(** * Approval profiles and voters of abcvoting

    A shallow embedding of [abcvoting/preferences.py]: the classes [Voter]
    and [Profile], their validation, their insertion paths and their two
    textual summaries.

    Python values are modelled as follows.
    - A candidate handed to the library is any object; the code tells
      integers from everything else with [isinstance(candidate, int)], and
      sets and dictionaries tell objects apart with [==] and refuse an object
      that cannot be hashed. [candidate] has the integers, the numbers of
      other types that equal an integer, the other objects that can be
      hashed, and those that cannot.
    - A weight is an [int] or a [Fraction]; both are canonical rationals [Qc].
    - A [set] is an abstract type with an iteration order ([PySet]); Python
      leaves that order unspecified, so the program is written against the
      interface and the theorems hold for every implementation that obeys the
      set laws ([PySetLaws]).
    - An exception is a value of [error]; a method that can raise after it has
      assigned to [self] returns the new state next to the result. *)

From Stdlib Require Import QArith Qcanon.
From stdpp Require Import base numbers list sets strings pretty sorting.

Local Open Scope Z_scope.

(** ** Python values *)

Inductive candidate :=
  | CInt (z : Z)        (* an [int]; [True] and [False] are the ints 1 and 0 *)
  | CNum (z : Z)        (* a number of another type that equals the int [z]:
                           [1.0], [Fraction(1)], [numpy.int64(1)] *)
  | CObj (s : string)   (* any other hashable object, named by a tag that
                           equal objects share: ['a'], [1.5], [None] *)
  | CUnhashable (s : string).
                        (* an object that cannot be hashed: a list, a dict,
                           a set *)

Global Instance candidate_eq_dec : EqDecision candidate.
Proof. solve_decision. Defined.

(** Python's [==] on candidates: [c == d] when the two have the same
    [py_key]. Numbers are equal when their values are, whatever their types;
    [hash] agrees with [==]. *)
Definition py_key (c : candidate) : candidate :=
  match c with
  | CNum z => CInt z
  | _ => c
  end.

(** [hash(c)] returns for every candidate but the last kind. *)
Definition hashable (c : candidate) : bool :=
  match c with
  | CUnhashable _ => false
  | _ => true
  end.

(** [k1 == k2] on tuples of candidates goes entry by entry. *)
Definition tuple_key (k : list candidate) : list candidate := py_key <$> k.

(** The [raise] statements of the module, one constructor per statement
    (and five for errors the interpreter raises itself). *)
Inductive error :=
  | InvalidArgument       (* ValueError, Profile.__init__: bad num_cand or cand_names *)
  | Unhashable            (* TypeError, unhashable type: ... *)
  | NoLength              (* TypeError, object of type ... has no len() *)
  | DuplicateApproval     (* ValueError "double entries found in list of approved candidates" *)
  | InvalidCandidateType  (* TypeError "Object of type ... not suitable as candidate" *)
  | CandidateOutOfRange   (* ValueError "... not valid for num_cand = ..." *)
  | InvalidWeight         (* ValueError "Weight should be a number > 0." *)
  | IndexOutOfRange       (* IndexError, list assignment index out of range *)
  | UnboundLocal          (* UnboundLocalError, local read before assignment *)
  | NotIterable.          (* TypeError, object is not iterable *)

Global Instance error_eq_dec : EqDecision error.
Proof. solve_decision. Defined.

Inductive exception_class := ValueError | TypeError | IndexError | UnboundLocalError.

Definition raised_as (e : error) : exception_class :=
  match e with
  | InvalidArgument | DuplicateApproval | CandidateOutOfRange | InvalidWeight => ValueError
  | InvalidCandidateType | NotIterable | NoLength | Unhashable => TypeError
  | IndexOutOfRange => IndexError
  | UnboundLocal => UnboundLocalError
  end.

Inductive result (A : Type) :=
  | Ok (a : A)
  | Err (e : error).
Arguments Ok {A} a.
Arguments Err {A} e.

Global Instance result_bind : MBind result := λ A B k r,
  match r with
  | Ok a => k a
  | Err e => Err e
  end.

(** [num_cand] of [check_valid] defaults to [float("inf")]. *)
Inductive bound :=
  | Finite (n : Z)
  | Infinity.

(** [candidate >= num_cand] *)
Definition ge_bound (z : Z) (num_cand : bound) : bool :=
  match num_cand with
  | Finite n => n <=? z
  | Infinity => false
  end.

(** ** Python's [set], as far as the module uses it *)

Class PySet (PS : Type) := {
  set_empty : PS;                      (* set() *)
  set_of_list : list candidate → PS;   (* set(xs) for a list, tuple or other sequence xs
                                          of objects that can be hashed *)
  set_copy : PS → PS;                  (* set(s) for a set s *)
  set_iter : PS → list candidate;      (* what iter(s), tuple(s), list(s) yield, in order *)
  set_update : PS → PS → PS;           (* s.update(t) for a set t *)
  set_and : PS → PS → PS               (* s & t *)
}.

(** [len(s)] *)
Definition set_len `{PySet PS} (s : PS) : nat := length (set_iter s).

(** [c in s]: some member of [s] equals [c]. *)
Definition set_has `{PySet PS} (s : PS) (c : candidate) : Prop :=
  py_key c ∈ py_key <$> set_iter s.

(** The members of a list that are the first with their key, in order *)
Fixpoint nub_by {A B} `{EqDecision B} (f : A → B) (l : list A) : list A :=
  match l with
  | [] => []
  | x :: l' => x :: filter (λ y, f y ≠ f x) (nub_by f l')
  end.

(** What the module relies on: no two members of a set are equal; [set(xs)]
    keeps, of the entries that are equal, the first one; adding to a set
    keeps the member that is there; an intersection holds one member for each
    object that is in both sets, taken from one of them. *)
Class PySetLaws (PS : Type) `{PySet PS} : Prop := {
  set_iter_NoDup (s : PS) : NoDup (py_key <$> set_iter s);
  set_iter_empty : set_iter set_empty = [];
  set_iter_of_list (l : list candidate) : set_iter (set_of_list l) ≡ₚ nub_by py_key l;
  elem_of_set_copy (s : PS) x : x ∈ set_iter (set_copy s) ↔ x ∈ set_iter s;
  elem_of_set_update (s t : PS) x :
    x ∈ set_iter (set_update s t)
    ↔ x ∈ set_iter s ∨ (x ∈ set_iter t ∧ ¬ set_has s x);
  elem_of_set_and (s t : PS) x :
    x ∈ set_iter (set_and s t) → x ∈ set_iter s ∨ x ∈ set_iter t;
  set_has_and (s t : PS) x :
    set_has (set_and s t) x ↔ set_has s x ∧ set_has t x
}.

(** An iterable of candidates as the caller passes it: a sequence (a list,
    a tuple, the keys of a dictionary), a set, or an iterator or generator,
    which yields its items once and has no length. *)
Inductive iterable (PS : Type) :=
  | IterList (xs : list candidate)
  | IterSet (s : PS)
  | IterGen (xs : list candidate).
Arguments IterList {PS} _.
Arguments IterSet {PS} _.
Arguments IterGen {PS} _.

(** [set(x)] and [list(x)] for an iterable [x] that has not been iterated,
    and [len(x)], which an iterator does not have. *)
Definition py_set `{PySet PS} (x : iterable PS) : PS :=
  match x with
  | IterList xs => set_of_list xs
  | IterSet s => set_copy s
  | IterGen xs => set_of_list xs
  end.

Definition py_list `{PySet PS} (x : iterable PS) : list candidate :=
  match x with
  | IterList xs => xs
  | IterSet s => set_iter s
  | IterGen xs => xs
  end.

Definition py_len `{PySet PS} (x : iterable PS) : option nat :=
  match x with
  | IterList xs => Some (length xs)
  | IterSet s => Some (set_len s)
  | IterGen _ => None
  end.

(** ** The two classes *)

Record Voter (PS : Type) := mkVoter {
  approved : PS;
  weight : Qc
}.
Arguments mkVoter {PS} _ _.
Arguments approved {PS} _.
Arguments weight {PS} _.

Record Profile (PS : Type) := mkProfile {
  candidates : list Z;
  cand_names : list string;
  _voters : list (Voter PS);
  _approved_candidates : option PS
}.
Arguments mkProfile {PS} _ _ _ _.
Arguments candidates {PS} _.
Arguments cand_names {PS} _.
Arguments _voters {PS} _.
Arguments _approved_candidates {PS} _.

(** The argument of [add_voter] and [__setitem__]: [isinstance(voter, Voter)]
    or an iterable of candidates. *)
Inductive voter_arg (PS : Type) :=
  | ArgVoter (voter : Voter PS)
  | ArgIterable (approved_raw : iterable PS).
Arguments ArgVoter {PS} _.
Arguments ArgIterable {PS} _.

(** [range(n)] *)
Definition range (n : Z) : list Z := seqZ 0 n.

(** The newline character, as a string *)
Definition NL : string := String (Ascii.ascii_of_nat 10) EmptyString.

(** [s[:-2]] on a string *)
Definition drop_last2 (s : string) : string :=
  String.substring 0 (String.length s - 2) s.

(** [str(w)] for an [int] or a [Fraction] *)
Definition str_weight (w : Qc) : string :=
  if (Z.pos (Qden w) =? 1) then pretty (Qnum w)
  else pretty (Qnum w) +:+ "/" +:+ pretty (Z.pos (Qden w)).

(** [lst[i]] as the target of an assignment: the position written, if any. *)
Definition list_index (len : nat) (i : Z) : option nat :=
  let j := if i <? 0 then i + Z.of_nat len else i in
  if (j <? 0) || (Z.of_nat len <=? j) then None else Some (Z.to_nat j).

(** An [OrderedDict] from tuples of candidates to weights, and the
    statement [compact[key] += w if key in compact else compact[key] = w]:
    an entry whose key equals [key] keeps its own key. *)
Definition ordered_dict := list (list candidate * Qc).

Fixpoint od_accumulate (compact : ordered_dict) (key : list candidate) (w : Qc)
  : ordered_dict :=
  match compact with
  | [] => [(key, w)]
  | (k, total) :: rest =>
      if decide (tuple_key k = tuple_key key) then (k, (total + w)%Qc) :: rest
      else (k, total) :: od_accumulate rest key w
  end.

Section Preferences.
Context {PS : Type} `{PySet PS}.

(** [abcvoting.misc.str_set_of_candidates(candset, cand_names)], which the
    module imports; [candset] is passed as the sequence it iterates to. *)
Variable str_set_of_candidates : list candidate → list string → string.

(** *** Voter *)

(** The loop [for candidate in self.approved] of [check_valid]. *)
Fixpoint check_candidates (num_cand : bound) (cands : list candidate) : result unit :=
  match cands with
  | [] => Ok ()
  | CInt z :: cands' =>
      if (z <? 0) || ge_bound z num_cand then Err CandidateOutOfRange
      else check_candidates num_cand cands'
  | _ :: _ => Err InvalidCandidateType
  end.

(** The first test of [check_valid], which evaluates [len(approved_raw)]. *)
Definition check_duplicates (self : Voter PS) (approved_raw : option (iterable PS))
  : result unit :=
  match approved_raw with
  | Some raw =>
      match py_len raw with
      | Some n =>
          if (set_len (approved self) <? n)%nat then Err DuplicateApproval else Ok ()
      | None => Err NoLength
      end
  | None => Ok ()
  end.

Definition check_valid (self : Voter PS) (num_cand : bound)
    (approved_raw : option (iterable PS)) : result unit :=
  _ ← check_duplicates self approved_raw;
  _ ← check_candidates num_cand (set_iter (approved self));
  if negb (bool_decide (0 < weight self)%Qc) then Err InvalidWeight
  else Ok ().

(** [set(approved)] hashes the entries it is given, and raises for one that
    cannot be hashed; the members of a set have been hashed before. *)
Definition check_hashable (approved : iterable PS) : result unit :=
  match approved with
  | IterSet _ => Ok ()
  | IterList xs | IterGen xs => if forallb hashable xs then Ok () else Err Unhashable
  end.

(** [Voter.__init__(approved, weight=1)] *)
Definition Voter_init (approved_raw : iterable PS) (w : Qc) : result (Voter PS) :=
  _ ← check_hashable approved_raw;
  let self := mkVoter (py_set approved_raw) w in
  _ ← check_valid self Infinity (Some approved_raw);
  Ok self.

(** *** Profile *)

(** [Profile.__init__(num_cand, cand_names=None)]; a name is given by
    what [str] makes of it. *)
Definition Profile_init (num_cand : Z) (names : option (list string))
  : result (Profile PS) :=
  if num_cand <=? 0 then Err InvalidArgument
  else
    let self := mkProfile (range num_cand) (pretty <$> range num_cand) [] None in
    match names with
    | Some ((_ :: _) as names) =>
        if (Z.of_nat (length names) <? num_cand) then Err InvalidArgument
        else Ok (mkProfile (candidates self)
                   ((λ i, default "" (names !! Z.to_nat i)) <$> range num_cand)
                   (_voters self) (_approved_candidates self))
    | _ => Ok self
    end.

Definition num_cand (self : Profile PS) : Z := Z.of_nat (length (candidates self)).

(** The property [approved_candidates]. The local [_approved_candidates]
    is bound only inside the [if]. *)
Definition approved_candidates (self : Profile PS) : result PS :=
  match _approved_candidates self with
  | None =>
      Ok (foldl (λ acc voter, set_update acc (approved voter))
            set_empty (_voters self))
  | Some _ => Err UnboundLocal
  end.

Definition len (self : Profile PS) : nat := length (_voters self).

Definition set_voters (self : Profile PS) (voters : list (Voter PS)) : Profile PS :=
  mkProfile (candidates self) (cand_names self) voters (_approved_candidates self).

Definition clear_cache (self : Profile PS) : Profile PS :=
  mkProfile (candidates self) (cand_names self) (_voters self) None.

Definition _unique_voter (self : Profile PS) (voter : voter_arg PS)
  : Profile PS * result (Voter PS) :=
  match match voter with
        | ArgVoter v => Voter_init (IterSet (approved v)) (weight v)
        | ArgIterable raw => Voter_init raw 1%Qc
        end
  with
  | Err e => (self, Err e)
  | Ok _voter =>
      let self := clear_cache self in
      (self, _ ← check_valid _voter (Finite (num_cand self)) None; Ok _voter)
  end.

Definition add_voter (self : Profile PS) (voter : voter_arg PS)
  : Profile PS * result unit :=
  match _unique_voter self voter with
  | (self, Ok _voter) => (set_voters self (_voters self ++ [_voter]), Ok ())
  | (self, Err e) => (self, Err e)
  end.

Fixpoint add_voters (self : Profile PS) (voters : list (voter_arg PS))
  : Profile PS * result unit :=
  match voters with
  | [] => (self, Ok ())
  | voter :: voters' =>
      match add_voter self voter with
      | (self, Ok _) => add_voters self voters'
      | (self, Err e) => (self, Err e)
      end
  end.

Definition totalweight (self : Profile PS) : Qc :=
  foldl (λ acc voter, (acc + weight voter)%Qc) 0%Qc (_voters self).

Definition has_unit_weights (self : Profile PS) : bool :=
  forallb (λ voter, bool_decide (weight voter = 1%Qc)) (_voters self).

(** [__getitem__] with an integer index *)
Definition getitem (self : Profile PS) (i : Z) : result (Voter PS) :=
  match list_index (len self) i with
  | Some k => match _voters self !! k with Some v => Ok v | None => Err IndexOutOfRange end
  | None => Err IndexOutOfRange
  end.

(** [__setitem__] with an integer index: the right-hand side is evaluated
    first, then the list assignment. *)
Definition setitem (self : Profile PS) (i : Z) (voter : voter_arg PS)
  : Profile PS * result unit :=
  match _unique_voter self voter with
  | (self, Ok _voter) =>
      match list_index (len self) i with
      | Some k => (set_voters self (<[k := _voter]> (_voters self)), Ok ())
      | None => (self, Err IndexOutOfRange)
      end
  | (self, Err e) => (self, Err e)
  end.

Definition header (self : Profile PS) : string :=
  "profile with " +:+ pretty (len self) +:+ " votes and "
    +:+ pretty (num_cand self) +:+ " candidates:" +:+ NL.

(** [__str__] *)
Definition str (self : Profile PS) : string :=
  let output :=
    if has_unit_weights self then
      foldl (λ output voter,
               output +:+ " "
                 +:+ str_set_of_candidates (set_iter (approved voter)) (cand_names self)
                 +:+ "," +:+ NL)
        (header self) (_voters self)
    else
      foldl (λ output voter,
               (output +:+ " " +:+ str_weight (weight voter) +:+ " * ")
                 +:+ str_set_of_candidates (set_iter (approved voter)) (cand_names self)
                 +:+ " ," +:+ NL)
        ("weighted " +:+ header self) (_voters self)
  in drop_last2 output.

Definition is_party_list (self : Profile PS) : bool :=
  forallb (λ voter1,
    forallb (λ voter2,
      let n := set_len (set_and (approved voter1) (approved voter2)) in
      (n =? 0)%nat || (n =? set_len (approved voter1))%nat)
      (_voters self))
    (_voters self).

(** The first loop of [str_compact]. *)
Definition compact_of (voters : list (Voter PS)) : ordered_dict :=
  foldl (λ compact voter, od_accumulate compact (set_iter (approved voter)) (weight voter))
    [] voters.

Definition str_compact (self : Profile PS) : string :=
  let compact := compact_of (_voters self) in
  let output := if has_unit_weights self then "" else "weighted " in
  let output := output +:+ header self in
  let output :=
    foldl (λ output entry,
             output +:+ (" " +:+ str_weight entry.2 +:+ " x "
               +:+ str_set_of_candidates entry.1 (cand_names self) +:+ "," +:+ NL))
      output compact in
  let output := drop_last2 output in
  let output :=
    if negb (has_unit_weights self)
    then output +:+ NL +:+ "total weight: " +:+ str_weight (totalweight self)
    else output in
  output +:+ NL.

End Preferences.

(** ** Objects and references

    The same insertion paths with the objects of the interpreter made
    explicit: a value of class [Voter] refers to its set, the profile refers
    to its voters, and a caller keeps references of its own. A reference is
    a position in the store; creating an object extends the store. *)

Abbreviation loc := nat.

Inductive object (PS : Type) :=
  | ObjList (xs : list candidate)              (* a list or a tuple of candidates *)
  | ObjSet (s : PS)                            (* a set *)
  | ObjVoter (approved_ref : loc) (w : Qc).    (* an instance of Voter *)
Arguments ObjList {PS} _.
Arguments ObjSet {PS} _.
Arguments ObjVoter {PS} _ _.

Abbreviation store PS := (list (object PS)).

(** An instance of [Profile], with references for its voters. *)
Record ProfileObj := mkProfileObj {
  obj_candidates : list Z;
  obj_cand_names : list string;
  obj_voters : list loc;
  obj_approved_candidates : option loc
}.

Section References.
Context {PS : Type} `{PySet PS}.

Definition alloc (h : store PS) (o : object PS) : store PS * loc :=
  (h ++ [o], length h).

(** The iterable behind a reference, if the object is one. *)
Definition iterable_at (h : store PS) (l : loc) : option (iterable PS) :=
  match h !! l with
  | Some (ObjList xs) => Some (IterList xs)
  | Some (ObjSet s) => Some (IterSet s)
  | _ => None
  end.

(** The voter behind a reference: its set, as it is now, and its weight. *)
Definition voter_at (h : store PS) (l : loc) : option (Voter PS) :=
  match h !! l with
  | Some (ObjVoter ls w) =>
      match h !! ls with
      | Some (ObjSet s) => Some (mkVoter s w)
      | _ => None
      end
  | _ => None
  end.

(** [Voter(approved, weight)]: [set(approved)] is a new set object, and
    the instance is a new object that refers to it; the constructor raises
    as it does on values. When it raises, the objects it has made are left
    behind, and nothing refers to them. *)
Definition Voter_new (h : store PS) (approved_ref : loc) (w : Qc)
  : store PS * result loc :=
  match iterable_at h approved_ref with
  | None => (h, Err NotIterable)
  | Some raw =>
      let (h, ls) := alloc h (ObjSet (py_set raw)) in
      let (h, self) := alloc h (ObjVoter ls w) in
      match Voter_init raw w with
      | Ok _ => (h, Ok self)
      | Err e => (h, Err e)
      end
  end.

Definition obj_num_cand (self : ProfileObj) : Z :=
  Z.of_nat (length (obj_candidates self)).

Definition obj_set_voters (self : ProfileObj) (voters : list loc) : ProfileObj :=
  mkProfileObj (obj_candidates self) (obj_cand_names self) voters
    (obj_approved_candidates self).

Definition obj_clear_cache (self : ProfileObj) : ProfileObj :=
  mkProfileObj (obj_candidates self) (obj_cand_names self) (obj_voters self) None.

Definition unique_voter_ref (h : store PS) (self : ProfileObj) (voter : loc)
  : store PS * ProfileObj * result loc :=
  match match h !! voter with
        | Some (ObjVoter approved_ref w) => Voter_new h approved_ref w
        | _ => Voter_new h voter 1%Qc
        end
  with
  | (h, Err e) => (h, self, Err e)
  | (h, Ok _voter) =>
      let self := obj_clear_cache self in
      match voter_at h _voter with
      | Some v =>
          match check_valid v (Finite (obj_num_cand self)) None with
          | Ok _ => (h, self, Ok _voter)
          | Err e => (h, self, Err e)
          end
      | None => (h, self, Err NotIterable)
      end
  end.

Definition add_voter_ref (h : store PS) (self : ProfileObj) (voter : loc)
  : store PS * ProfileObj * result unit :=
  match unique_voter_ref h self voter with
  | (h, self, Ok _voter) => (h, obj_set_voters self (obj_voters self ++ [_voter]), Ok ())
  | (h, self, Err e) => (h, self, Err e)
  end.

Fixpoint add_voters_ref (h : store PS) (self : ProfileObj) (voters : list loc)
  : store PS * ProfileObj * result unit :=
  match voters with
  | [] => (h, self, Ok ())
  | voter :: voters' =>
      match add_voter_ref h self voter with
      | (h, self, Ok _) => add_voters_ref h self voters'
      | (h, self, Err e) => (h, self, Err e)
      end
  end.

Definition setitem_ref (h : store PS) (self : ProfileObj) (i : Z) (voter : loc)
  : store PS * ProfileObj * result unit :=
  match unique_voter_ref h self voter with
  | (h, self, Ok _voter) =>
      match list_index (length (obj_voters self)) i with
      | Some k => (h, obj_set_voters self (<[k := _voter]> (obj_voters self)), Ok ())
      | None => (h, self, Err IndexOutOfRange)
      end
  | (h, self, Err e) => (h, self, Err e)
  end.

(** The set object of the voter at [l]. *)
Definition approved_at (h : store PS) (l : loc) : option loc :=
  match h !! l with
  | Some (ObjVoter ls _) => Some ls
  | _ => None
  end.

(** The objects the profile owns: its voters and their sets. *)
Definition owned (h : store PS) (self : ProfileObj) (l : loc) : Prop :=
  ∃ lv, lv ∈ obj_voters self ∧ (l = lv ∨ approved_at h lv = Some l).

(** The stores and profiles that arise when a caller creates objects,
    changes objects that the profile does not own, and calls the mutating
    methods. *)
Inductive reachable_ref : store PS → ProfileObj → Prop :=
  | rr_init h candidates names :
      reachable_ref h (mkProfileObj candidates names [] None)
  | rr_add_voter h self voter :
      reachable_ref h self →
      reachable_ref (add_voter_ref h self voter).1.1 (add_voter_ref h self voter).1.2
  | rr_add_voters h self voters :
      reachable_ref h self →
      reachable_ref (add_voters_ref h self voters).1.1 (add_voters_ref h self voters).1.2
  | rr_setitem h self i voter :
      reachable_ref h self →
      reachable_ref (setitem_ref h self i voter).1.1 (setitem_ref h self i voter).1.2
  | rr_create h self o :
      reachable_ref h self → reachable_ref (h ++ [o]) self
  | rr_mutate h self l o :
      reachable_ref h self → ¬ owned h self l → reachable_ref (<[l := o]> h) self.

(** The voters are distinct objects with distinct sets. *)
Definition distinct_voters (h : store PS) (voters : list loc) : Prop :=
  (∀ i lv, voters !! i = Some lv →
     ∃ ls w s, h !! lv = Some (ObjVoter ls w) ∧ h !! ls = Some (ObjSet s))
  ∧ (∀ i j lvi lvj, i ≠ j →
       voters !! i = Some lvi → voters !! j = Some lvj →
       lvi ≠ lvj ∧ approved_at h lvi ≠ approved_at h lvj).

(** The pure profile that a profile object stands for. *)
Definition profile_of (h : store PS) (self : ProfileObj) : Profile PS :=
  mkProfile (obj_candidates self) (obj_cand_names self)
    (omap (voter_at h) (obj_voters self)) None.

(** The pure argument that a reference stands for. *)
Definition arg_of (h : store PS) (voter : loc) : option (voter_arg PS) :=
  match h !! voter with
  | Some (ObjVoter approved_ref w) =>
      match h !! approved_ref with
      | Some (ObjSet s) => Some (ArgVoter (mkVoter s w))
      | _ => None
      end
  | Some (ObjList xs) => Some (ArgIterable (IterList xs))
  | Some (ObjSet s) => Some (ArgIterable (IterSet s))
  | None => None
  end.

End References.


(** ** Two implementations of the set interface *)

(** *** Sets that iterate in insertion order

    A set is the list of the elements added, and iterates to them in the
    order of their first insertion. *)


Definition ordered_set : PySet (list candidate) := {|
  set_empty := [];
  set_of_list l := nub_by py_key l;
  set_copy s := nub_by py_key s;
  set_iter s := nub_by py_key s;
  set_update s t := nub_by py_key (s ++ t);
  set_and s t := filter (λ x, py_key x ∈ py_key <$> t) (nub_by py_key s)
|}.

(** *** CPython's set (Objects/setobject.c)

    The set is an open-addressing hash table whose size is a power of two;
    iteration walks the slots from the first to the last. No entry is ever
    deleted here, so every slot is unused or active. *)

Module CPython.

Definition LINEAR_PROBES : Z := 9.
Definition PERTURB_SHIFT : Z := 5.
Definition PySet_MINSIZE : Z := 8.

Definition table := list (option candidate).

Definition mask (so : table) : Z := Z.of_nat (length so) - 1.

(** [so->used], equal to [so->fill] *)
Definition used (so : table) : Z := Z.of_nat (length (omap id so)).

(** [hash(n)] of an [int] on a 64-bit build *)
Definition hash_int (n : Z) : Z :=
  let h := Z.sgn n * (Z.abs n mod (2 ^ 61 - 1)) in
  if h =? -1 then -2 else h.

Section Table.
(** The hash of an object that is not an [int] (salted per process for
    [str]). *)
Variable hash_obj : string → Z.

(** [hash(key)]. An object that cannot be hashed does not get here:
    [check_hashable] stops it. *)
Definition hash (key : candidate) : Z :=
  match key with
  | CInt n | CNum n => hash_int n
  | CObj s | CUnhashable s => hash_obj s
  end.

(** The inner loop of [set_add_entry]: slots [i], ..., [i + probes]. The
    result is the slot found and whether it holds an object equal to [key]
    already. *)
Fixpoint scan (so : table) (key : candidate) (i : Z) (n : nat) : option (Z * bool) :=
  match n with
  | O => None
  | S n' =>
      match so !! Z.to_nat i with
      | Some None => Some (i, false)
      | Some (Some k) =>
          if decide (py_key k = py_key key) then Some (i, true)
          else scan so key (i + 1) n'
      | None => None
      end
  end.

(** The outer loop of [set_add_entry]; [fuel] bounds the number of
    rounds, which the table, never full, keeps finite. *)
Fixpoint lookkey (fuel : nat) (so : table) (key : candidate) (i perturb : Z)
  : option (Z * bool) :=
  match fuel with
  | O => None
  | S fuel' =>
      let probes := if i + LINEAR_PROBES <=? mask so then LINEAR_PROBES else 0 in
      match scan so key i (S (Z.to_nat probes)) with
      | Some found => Some found
      | None =>
          let perturb := perturb ≫ PERTURB_SHIFT in
          lookkey fuel' so key (Z.land (i * 5 + 1 + perturb) (mask so)) perturb
      end
  end.

Definition rounds (so : table) : nat := (64 + length so)%nat.

(** [set_insert_clean]: the key is known to be absent. *)
Fixpoint scan_clean (so : table) (i : Z) (n : nat) : option Z :=
  match n with
  | O => None
  | S n' =>
      match so !! Z.to_nat i with
      | Some None => Some i
      | Some (Some _) => scan_clean so (i + 1) n'
      | None => None
      end
  end.

Fixpoint lookfree (fuel : nat) (so : table) (i perturb : Z) : option Z :=
  match fuel with
  | O => None
  | S fuel' =>
      let probes := if i + LINEAR_PROBES <=? mask so then LINEAR_PROBES else 0 in
      match scan_clean so i (S (Z.to_nat probes)) with
      | Some found => Some found
      | None =>
          let perturb := perturb ≫ PERTURB_SHIFT in
          lookfree fuel' so (Z.land (i * 5 + 1 + perturb) (mask so)) perturb
      end
  end.

Definition set_insert_clean (so : table) (key : candidate) : table :=
  let h := hash key in
  match lookfree (rounds so) so (Z.land h (mask so)) (h mod 2 ^ 64) with
  | Some i => <[Z.to_nat i := Some key]> so
  | None => so
  end.

(** The size [set_table_resize] picks: the least [8 * 2^k > minused]. *)
Fixpoint newsize (fuel : nat) (size minused : Z) : Z :=
  match fuel with
  | O => size
  | S fuel' => if size <=? minused then newsize fuel' (size * 2) minused else size
  end.

Definition set_table_resize (so : table) (minused : Z) : table :=
  let size := newsize 64 PySet_MINSIZE minused in
  foldl set_insert_clean (replicate (Z.to_nat size) None) (omap id so).

Definition set_add_entry (so : table) (key : candidate) : table :=
  let h := hash key in
  match lookkey (rounds so) so key (Z.land h (mask so)) (h mod 2 ^ 64) with
  | Some (i, true) => so
  | Some (i, false) =>
      let so := <[Z.to_nat i := Some key]> so in
      if used so * 5 <? mask so * 3 then so
      else set_table_resize so (if 50000 <? used so then used so * 2 else used so * 4)
  | None => so
  end.

Definition empty_table : table := replicate (Z.to_nat PySet_MINSIZE) None.

Definition set_merge (so other : table) : table :=
  if used other =? 0 then so
  else
    let so :=
      if mask so * 3 <=? (used so + used other) * 5
      then set_table_resize so ((used so + used other) * 2)
      else so in
    if (used so =? 0) && (mask so =? mask other) then other
    else if used so =? 0 then foldl set_insert_clean so (omap id other)
    else foldl set_add_entry so (omap id other).

(** [so & other]: the smaller set is walked, the larger one searched. *)
Definition set_intersection (so other : table) : table :=
  let (so, other) := if used so <? used other then (other, so) else (so, other) in
  foldl (λ result key,
           if decide (py_key key ∈ py_key <$> omap id so) then set_add_entry result key
           else result)
    empty_table (omap id other).

Definition hash_set : PySet table := {|
  set_empty := empty_table;
  set_of_list l := foldl set_add_entry empty_table l;
  set_copy s := set_merge empty_table s;
  set_iter s := omap id s;
  set_update s t := set_merge s t;
  set_and s t := set_intersection s t
|}.
End Table.

End CPython.

(** Integer candidates *)
Definition ints (l : list Z) : list candidate := CInt <$> l.

(** Modelled from the spec: [abcvoting.misc.str_set_of_candidates], which is
    not among the sources. The spec has a set of candidate indices rendered
    with the names of the profile, in ascending order of the indices, in the
    usual syntax of a set, as in {a, c}. *)
Definition str_set_of_candidates_spec (candset : list candidate)
    (cand_names : list string) : string :=
  let indices :=
    merge_sort Z.le
      (omap (λ c, match c with CInt z => Some z | _ => None end) candset) in
  "{" +:+ String.concat ", " ((λ i, default "" (cand_names !! Z.to_nat i)) <$> indices)
      +:+ "}".

(** ** Sample inputs *)

(** CPython's set, with a hash for the objects that are not integers. *)
Definition cpython_set : PySet CPython.table := CPython.hash_set (λ _, 0).

(** A list of integers as the argument of [add_voter]. *)
Definition from_list {PS : Type} (l : list Z) : voter_arg PS :=
  ArgIterable (IterList (ints l)).

(** [Profile(n)] *)
Definition new_profile {PS : Type} (n : Z) : Profile PS :=
  mkProfile (range n) (pretty <$> range n) [] None.

(** [Profile(n)] after [add_voters] of lists of integers, on insertion-ordered
    sets and on CPython's sets. *)
Definition ordered_profile (n : Z) (ls : list (list Z)) : Profile (list candidate) :=
  (@add_voters _ ordered_set (new_profile n) (from_list <$> ls)).1.

Definition cpython_profile (n : Z) (ls : list (list Z)) : Profile CPython.table :=
  (@add_voters _ cpython_set (new_profile n) (from_list <$> ls)).1.

(** ** Notions of the specification *)

Section Specification.
Context {PS : Type} `{PySet PS}.

(** The set [s] holds exactly the members of [l]. *)
Definition set_is (s : PS) (l : list candidate) : Prop :=
  ∀ x, x ∈ set_iter s ↔ x ∈ l.

(** [s == t], [s.isdisjoint(t)] and [s <= t]: membership is [x in s]. *)
Definition same_set (s t : PS) : Prop :=
  ∀ x, set_has s x ↔ set_has t x.

Definition disjoint_sets (s t : PS) : Prop :=
  ∀ x, set_has s x → ¬ set_has t x.

(** The members of [s] are members of [t]. *)
Definition subset_of (s t : PS) : Prop :=
  ∀ x, set_has s x → set_has t x.

(** No two entries of the input are equal. *)
Definition no_repeats (l : list candidate) : Prop := NoDup (py_key <$> l).

(** [set] accepts the input: every entry can be hashed. *)
Definition hashable_entries (raw : iterable PS) : Prop := check_hashable raw = Ok ().

(** The input has a length: it is a sequence or a set, not an iterator. *)
Definition sized (raw : iterable PS) : Prop := py_len raw = Some (length (py_list raw)).

(** An integer candidate that is not negative and below the bound. *)
Definition within (num_cand : bound) (c : candidate) : Prop :=
  ∃ z, c = CInt z ∧ 0 ≤ z ∧ ge_bound z num_cand = false.

Definition is_int (c : candidate) : Prop := ∃ z, c = CInt z.

(** A voter over the candidates [0, ..., n-1]. *)
Definition valid_voter (n : Z) (v : Voter PS) : Prop :=
  (∀ c, c ∈ set_iter (approved v) → ∃ z, c = CInt z ∧ 0 ≤ z < n)
  ∧ (0 < weight v)%Qc.

(** What [add_voter] and [__setitem__] pass to the constructor. *)
Definition arg_approved (x : voter_arg PS) : iterable PS :=
  match x with
  | ArgVoter v => IterSet (approved v)
  | ArgIterable raw => raw
  end.

Definition arg_weight (x : voter_arg PS) : Qc :=
  match x with
  | ArgVoter v => weight v
  | ArgIterable _ => 1%Qc
  end.

(** [tuple(voter.approved)], the key of [str_compact] *)
Definition voter_key (v : Voter PS) : list candidate := set_iter (approved v).

Definition sum_weights (vs : list (Voter PS)) : Qc :=
  foldr (λ v acc, (weight v + acc)%Qc) 0%Qc vs.

(** One entry for each distinct key, in the order of first occurrence,
    with the sum of the weights of the voters that have the key; keys are
    distinct when they are not equal as tuples. *)
Definition groups (vs : list (Voter PS)) : ordered_dict :=
  (λ k, (k, sum_weights (filter (λ v, tuple_key (voter_key v) = tuple_key k) vs)))
    <$> nub_by tuple_key (voter_key <$> vs).

(** The voter stored for the argument [x], when [x] is accepted. *)
Definition stored_for (x : voter_arg PS) : Voter PS :=
  mkVoter (py_set (arg_approved x)) (arg_weight x).

(** The profiles a caller can hold: a constructed one, and what the
    mutating methods leave behind, whether they return or raise. *)
Inductive reachable : Profile PS → Prop :=
  | reach_init n names p :
      Profile_init n names = Ok p → reachable p
  | reach_add_voter p x :
      reachable p → reachable (add_voter p x).1
  | reach_add_voters p xs :
      reachable p → reachable (add_voters p xs).1
  | reach_setitem p i x :
      reachable p → reachable (setitem p i x).1.

(** What every reachable profile satisfies. *)
Record profile_inv (p : Profile PS) : Prop := {
  inv_cache : _approved_candidates p = None;
  inv_voters : Forall (valid_voter (num_cand p)) (_voters p);
  inv_num_cand : 0 < num_cand p;
  inv_candidates : candidates p = range (num_cand p);
  inv_names : length (cand_names p) = length (candidates p)
}.

End Specification.

(** * Properties *)

(** ** The insertion-ordered sets obey the set laws *)

Lemma filter_all {A : Type} (P : A → Prop) `{∀ x, Decision (P x)} (l : list A) :
  (∀ x, x ∈ l → P x) → filter P l = l.
Proof.
  induction l as [|y l IH]; intros Hall; [done|].
  rewrite filter_cons_True by (apply Hall; left).
  f_equal. apply IH. intros x Hx. apply Hall. by right.
Qed.

Section nub_by.
Context {A B : Type} `{EqDecision B} (f : A → B).

Lemma fmap_filter_ne (k : B) (l : list A) :
  f <$> filter (λ y, f y ≠ k) l = filter (λ b, b ≠ k) (f <$> l).
Proof.
  induction l as [|y l IH]; [done|].
  rewrite fmap_cons, !filter_cons. cbv beta.
  destruct (decide (f y ≠ k)); [|done]. by rewrite fmap_cons, IH.
Qed.

Lemma fmap_filter_in (K : list B) (l : list A) :
  f <$> filter (λ y, f y ∈ K) l = filter (λ b, b ∈ K) (f <$> l).
Proof.
  induction l as [|y l IH]; [done|].
  rewrite fmap_cons, !filter_cons. cbv beta.
  destruct (decide (f y ∈ K)); [|done]. by rewrite fmap_cons, IH.
Qed.

Lemma elem_of_nub_by (x : A) (l : list A) : x ∈ nub_by f l → x ∈ l.
Proof.
  induction l as [|y l IH]; simpl; [done|].
  rewrite !elem_of_cons, list_elem_of_filter. tauto.
Qed.

Lemma elem_of_nub_by_key (k : B) (l : list A) : k ∈ f <$> nub_by f l ↔ k ∈ f <$> l.
Proof.
  induction l as [|y l IH]; cbn [nub_by]; [done|].
  rewrite !fmap_cons, !elem_of_cons, fmap_filter_ne.
  rewrite list_elem_of_filter, IH. destruct (decide (k = f y)); tauto.
Qed.

Lemma NoDup_nub_by (l : list A) : NoDup (f <$> nub_by f l).
Proof.
  induction l as [|y l IH]; cbn [nub_by]; [constructor|].
  rewrite fmap_cons, fmap_filter_ne. constructor.
  - rewrite list_elem_of_filter. tauto.
  - by apply NoDup_filter.
Qed.

Lemma nub_by_id (l : list A) : NoDup (f <$> l) → nub_by f l = l.
Proof.
  induction l as [|y l IH]; [done|].
  rewrite fmap_cons, NoDup_cons. intros [Hy Hnd]. cbn [nub_by]. rewrite (IH Hnd). f_equal.
  apply filter_all. intros x Hx E. apply Hy. rewrite <-E. by apply list_elem_of_fmap_2.
Qed.

Lemma nub_by_idemp (l : list A) : nub_by f (nub_by f l) = nub_by f l.
Proof. apply nub_by_id, NoDup_nub_by. Qed.

Lemma nub_by_app (l1 l2 : list A) :
  nub_by f (l1 ++ l2) = nub_by f l1 ++ filter (λ y, f y ∉ f <$> l1) (nub_by f l2).
Proof.
  induction l1 as [|x l1 IH].
  - symmetry. apply filter_all. intros y _. apply not_elem_of_nil.
  - rewrite <-app_comm_cons. cbn [nub_by]. rewrite <-app_comm_cons. f_equal.
    rewrite IH, filter_app. f_equal.
    rewrite list_filter_filter. apply list_filter_iff. intros y.
    rewrite fmap_cons, not_elem_of_cons. tauto.
Qed.

Lemma nub_by_snoc (l : list A) (a : A) :
  nub_by f (l ++ [a]) = if decide (f a ∈ f <$> l) then nub_by f l else nub_by f l ++ [a].
Proof.
  rewrite nub_by_app. cbn [nub_by]. rewrite filter_nil.
  destruct (decide (f a ∈ f <$> l)) as [Hin|Hnin].
  - rewrite filter_cons_False, filter_nil by tauto. by rewrite app_nil_r.
  - by rewrite filter_cons_True, filter_nil by done.
Qed.

Lemma length_nub_by_le (l : list A) : (length (nub_by f l) ≤ length l)%nat.
Proof.
  induction l as [|a l IH]; simpl; [done|].
  pose proof (length_filter (λ y, f y ≠ f a) (nub_by f l)). lia.
Qed.

Lemma elem_of_fmap_filter_in (K : list B) (k : B) (l : list A) :
  k ∈ f <$> filter (λ y, f y ∈ K) l ↔ k ∈ f <$> l ∧ k ∈ K.
Proof.
  rewrite fmap_filter_in, list_elem_of_filter. tauto.
Qed.

End nub_by.

Lemma ordered_set_laws : @PySetLaws (list candidate) ordered_set.
Proof.
  split; unfold set_has; simpl.
  - apply NoDup_nub_by.
  - done.
  - intros l. by rewrite nub_by_idemp.
  - intros s x. by rewrite nub_by_idemp.
  - intros s t x. rewrite nub_by_idemp, nub_by_app, elem_of_app, list_elem_of_filter.
    rewrite elem_of_nub_by_key. tauto.
  - intros s t x Hx. left.
    apply elem_of_nub_by in Hx. by apply list_elem_of_filter in Hx as [_ ?].
  - intros s t x. rewrite !elem_of_nub_by_key.
    rewrite elem_of_fmap_filter_in.
    rewrite elem_of_nub_by_key. tauto.
Qed.

Section Properties.
Context {PS : Type} `{PySetLaws PS}.

Implicit Types (p : Profile PS) (v : Voter PS) (x : voter_arg PS)
  (raw : iterable PS) (s t : PS) (c : candidate).

(** *** Equality of candidates *)

Lemma py_key_int c : is_int c → py_key c = c.
Proof. by intros [z ->]. Qed.

Lemma py_key_ints (l : list candidate) : (∀ c, c ∈ l → is_int c) → py_key <$> l = l.
Proof.
  intros Hint. induction l as [|c l IH]; [done|].
  rewrite fmap_cons, py_key_int by (apply Hint; left).
  f_equal. apply IH. intros d Hd. apply Hint. by right.
Qed.

Lemma no_repeats_NoDup (l : list candidate) : no_repeats l → NoDup l.
Proof. apply NoDup_fmap_1. Qed.

Lemma no_repeats_ints (l : list candidate) :
  (∀ c, c ∈ l → is_int c) → no_repeats l ↔ NoDup l.
Proof. intros Hint. unfold no_repeats. by rewrite py_key_ints. Qed.

Lemma within_is_int b c : within b c → is_int c.
Proof. intros (z & -> & _). by exists z. Qed.

(** *** Sets *)

Lemma set_iter_NoDup_members s : NoDup (set_iter s).
Proof. apply no_repeats_NoDup, set_iter_NoDup. Qed.

Lemma elem_of_set_has s c : c ∈ set_iter s → set_has s c.
Proof. apply list_elem_of_fmap_2. Qed.

(** In a set of integers, an integer is in the set when it is a member. *)
Lemma set_has_ints s c :
  (∀ d, d ∈ set_iter s → is_int d) → is_int c → set_has s c ↔ c ∈ set_iter s.
Proof.
  intros Hs Hc. unfold set_has. by rewrite py_key_ints, py_key_int.
Qed.

Lemma set_has_set_is s (l : list candidate) c :
  set_is s l → set_has s c ↔ py_key c ∈ py_key <$> l.
Proof.
  intros Hs. unfold set_has. rewrite !list_elem_of_fmap.
  split; intros (d & ? & Hd); exists d; (split; [done|]); by apply Hs.
Qed.

Lemma set_has_copy s c : set_has (set_copy s) c ↔ set_has s c.
Proof.
  unfold set_has. rewrite !list_elem_of_fmap.
  split; intros (d & ? & Hd); exists d; (split; [done|]); by apply elem_of_set_copy.
Qed.

Lemma length_nub_by_eq {A B : Type} `{EqDecision B} (f : A → B) (l : list A) :
  length (nub_by f l) = length l → NoDup (f <$> l).
Proof.
  induction l as [|x l IH]; [constructor|]. cbn [nub_by length]. intros Hlen.
  pose proof (length_filter (λ y, f y ≠ f x) (nub_by f l)) as Hle.
  pose proof (length_nub_by_le f l) as Hle'.
  assert (length (nub_by f l) = length l) as Hl by lia.
  rewrite fmap_cons. constructor; [|by apply IH].
  intros (y & Hxy & Hy)%list_elem_of_fmap.
  apply IH in Hl as Hnd. rewrite (nub_by_id f l Hnd) in Hlen.
  pose proof (length_filter_lt (λ y, f y ≠ f x) l y Hy) as Hlt.
  cbv beta in Hlt. rewrite <-Hxy in Hlt. specialize (Hlt (λ Hne, Hne eq_refl)).
  simpl in Hlen. lia.
Qed.

(** [set(x)] holds the entries of [x] that are the first of their kind. *)
Lemma py_set_nub raw : set_iter (py_set raw) ≡ₚ nub_by py_key (py_list raw).
Proof.
  destruct raw as [xs|s|xs]; simpl; [apply set_iter_of_list| |apply set_iter_of_list].
  rewrite (nub_by_id py_key (set_iter s)) by apply set_iter_NoDup.
  apply NoDup_Permutation; [apply set_iter_NoDup_members..|].
  intros c. apply elem_of_set_copy.
Qed.

Lemma py_set_subset raw c : c ∈ set_iter (py_set raw) → c ∈ py_list raw.
Proof. rewrite py_set_nub. apply elem_of_nub_by. Qed.

Lemma py_set_perm raw : no_repeats (py_list raw) → set_iter (py_set raw) ≡ₚ py_list raw.
Proof. intros Hnd. by rewrite py_set_nub, nub_by_id. Qed.

Lemma elem_of_py_set raw c :
  no_repeats (py_list raw) → c ∈ set_iter (py_set raw) ↔ c ∈ py_list raw.
Proof. intros Hnd. by rewrite py_set_perm. Qed.

Lemma set_has_py_set raw c : set_has (py_set raw) c ↔ py_key c ∈ py_key <$> py_list raw.
Proof. unfold set_has. by rewrite py_set_nub, elem_of_nub_by_key. Qed.

Lemma py_len_Some raw n : py_len raw = Some n → n = length (py_list raw).
Proof. destruct raw; simpl; [by intros [= <-]..|done]. Qed.

Lemma sized_or_not raw : sized raw ∨ py_len raw = None.
Proof. destruct raw; unfold sized; simpl; tauto. Qed.

(** The test [len(self.approved) < len(approved_raw)] of the constructor
    fires exactly when two entries are equal. *)
Lemma duplicate_test raw :
  (set_len (py_set raw) <? length (py_list raw))%nat = true ↔ ¬ no_repeats (py_list raw).
Proof.
  unfold set_len. rewrite py_set_nub, Nat.ltb_lt.
  pose proof (length_nub_by_le py_key (py_list raw)) as Hle.
  pose proof (length_nub_by_eq py_key (py_list raw)) as Heq.
  split.
  - intros Hlt Hnd. rewrite nub_by_id in Hlt by done. lia.
  - intros Hnd.
    destruct (decide (length (nub_by py_key (py_list raw)) = length (py_list raw)));
      [|lia]. by destruct Hnd; apply Heq.
Qed.

(** *** Validation *)

Lemma check_candidates_Ok b (l : list candidate) :
  check_candidates b l = Ok () ↔ Forall (within b) l.
Proof.
  induction l as [|c l IH]; simpl.
  - split; [constructor|done].
  - rewrite Forall_cons, <-IH. unfold within. destruct c as [z|z|o|o].
    + destruct ((z <? 0) || ge_bound z b) eqn:E.
      * split; [done|]. intros [(z' & [= <-] & ? & ?) _].
        apply orb_true_iff in E as [E|E]; [lia|congruence].
      * apply orb_false_iff in E as [E1 E2]. split; [|tauto].
        intros ->. split; [|done]. exists z. split; [done|]. split; [lia|done].
    + split; [done|]. by intros [(z' & ? & _) _].
    + split; [done|]. by intros [(z' & ? & _) _].
    + split; [done|]. by intros [(z' & ? & _) _].
Qed.

Lemma check_candidates_cases b (l : list candidate) :
  check_candidates b l = Ok ()
  ∨ check_candidates b l = Err InvalidCandidateType
  ∨ check_candidates b l = Err CandidateOutOfRange.
Proof.
  induction l as [|[z|z|o|o] l IH]; simpl; [tauto| |tauto..].
  destruct ((z <? 0) || ge_bound z b); tauto.
Qed.

(** The loop stops at the first candidate that is not an integer of the
    range: the error is the one of that candidate. *)
Lemma check_candidates_first b (pre post : list candidate) c :
  Forall (within b) pre → ¬ within b c →
  check_candidates b (pre ++ c :: post)
  = match c with
    | CInt _ => Err CandidateOutOfRange
    | _ => Err InvalidCandidateType
    end.
Proof.
  intros Hpre Hc. induction Hpre as [|d pre Hd _ IH]; simpl.
  - destruct c as [z|z|o|o]; [|done..].
    destruct ((z <? 0) || ge_bound z b) eqn:E; [done|].
    apply orb_false_iff in E as [E1 E2]. destruct Hc. exists z.
    split; [done|]. split; [lia|done].
  - destruct Hd as (z & -> & Hz & Hb).
    assert ((z <? 0) = false) as -> by lia. by rewrite Hb.
Qed.

Lemma check_valid_None_Ok v b :
  check_valid v b None = Ok ()
  ↔ Forall (within b) (set_iter (approved v)) ∧ (0 < weight v)%Qc.
Proof.
  unfold check_valid. simpl. rewrite <-check_candidates_Ok.
  destruct (check_candidates b (set_iter (approved v))) as [[]|e]; simpl.
  - case_bool_decide; simpl; split; try done; tauto.
  - split; [done|]. by intros [? _].
Qed.

Lemma within_Finite n c : within (Finite n) c ↔ ∃ z, c = CInt z ∧ 0 ≤ z < n.
Proof.
  unfold within; simpl. split; intros (z & -> & Hz); exists z; (split; [done|]).
  - destruct Hz as [? Hz]. apply Z.leb_gt in Hz. lia.
  - split; [lia|]. apply Z.leb_gt. lia.
Qed.

Lemma check_valid_valid_voter v n :
  check_valid v (Finite n) None = Ok () ↔ valid_voter n v.
Proof.
  rewrite check_valid_None_Ok. unfold valid_voter.
  rewrite Forall_forall. setoid_rewrite within_Finite. done.
Qed.

(** *** The constructor of [Voter] *)

Lemma hashable_ints raw : (∀ c, c ∈ py_list raw → is_int c) → hashable_entries raw.
Proof.
  unfold hashable_entries. intros Hint.
  assert (∀ xs : list candidate, (∀ c, c ∈ xs → is_int c) → forallb hashable xs = true)
    as Hall.
  { intros xs Hxs. apply forallb_forall. intros c Hc%list_elem_of_In.
    by destruct (Hxs c Hc) as [z ->]. }
  destruct raw as [xs|s|xs]; simpl in *; [|done|]; by rewrite Hall.
Qed.

Lemma hashable_or_not raw : hashable_entries raw ∨ check_hashable raw = Err Unhashable.
Proof.
  unfold hashable_entries.
  destruct raw as [xs|s|xs]; simpl; [|tauto|]; destruct (forallb hashable xs); tauto.
Qed.

Lemma Voter_init_unfold raw w :
  Voter_init raw w =
    match check_hashable raw with
    | Err e => Err e
    | Ok _ =>
        match py_len raw with
        | None => Err NoLength
        | Some n =>
            if (set_len (py_set raw) <? n)%nat then Err DuplicateApproval
            else match check_candidates Infinity (set_iter (py_set raw)) with
                 | Err e => Err e
                 | Ok _ => if bool_decide (0 < w)%Qc then Ok (mkVoter (py_set raw) w)
                           else Err InvalidWeight
                 end
        end
    end.
Proof.
  unfold Voter_init, check_valid, check_duplicates; simpl.
  destruct (check_hashable raw) as [[]|e]; simpl; [|done].
  destruct (py_len raw) as [n|]; [|done].
  destruct (set_len (py_set raw) <? n)%nat; [done|]. simpl.
  destruct (check_candidates _ _); simpl; [|done].
  by case_bool_decide.
Qed.

Lemma Voter_init_value raw w v : Voter_init raw w = Ok v → v = mkVoter (py_set raw) w.
Proof.
  unfold Voter_init. destruct (check_hashable raw); simpl; [|done].
  destruct (check_valid _ _ _); simpl; [|done]. by intros [= <-].
Qed.

Lemma Voter_init_unhashable raw w :
  ¬ hashable_entries raw → Voter_init raw w = Err Unhashable.
Proof.
  intros Hno. rewrite Voter_init_unfold.
  destruct (hashable_or_not raw) as [?| ->]; done.
Qed.

Lemma Voter_init_sized raw w :
  hashable_entries raw → sized raw →
  Voter_init raw w =
    if (set_len (py_set raw) <? length (py_list raw))%nat then Err DuplicateApproval
    else match check_candidates Infinity (set_iter (py_set raw)) with
         | Err e => Err e
         | Ok _ => if bool_decide (0 < w)%Qc then Ok (mkVoter (py_set raw) w)
                   else Err InvalidWeight
         end.
Proof.
  intros Hhash Hlen. rewrite Voter_init_unfold.
  unfold hashable_entries, sized in *. by rewrite Hhash, Hlen.
Qed.

Lemma Voter_init_unsized raw w :
  hashable_entries raw → py_len raw = None → Voter_init raw w = Err NoLength.
Proof.
  intros Hhash Hlen. unfold hashable_entries in Hhash.
  by rewrite Voter_init_unfold, Hhash, Hlen.
Qed.

Lemma Voter_init_Ok raw w v :
  Voter_init raw w = Ok v ↔
    v = mkVoter (py_set raw) w ∧ NoDup (py_list raw)
    ∧ Forall (within Infinity) (py_list raw) ∧ (0 < w)%Qc ∧ sized raw.
Proof.
  destruct (hashable_or_not raw) as [Hhash|Hhash].
  2:{ rewrite Voter_init_unfold, Hhash. split; [done|].
      intros (_ & _ & Hall & _). rewrite Forall_forall in Hall.
      assert (hashable_entries raw) as Hh; [|unfold hashable_entries in Hh; congruence].
      apply hashable_ints. intros c Hc. by apply within_is_int with Infinity, Hall. }
  destruct (sized_or_not raw) as [Hlen|Hlen].
  2:{ rewrite Voter_init_unsized by done. split; [done|].
      intros (_ & _ & _ & _ & Hs). unfold sized in Hs. congruence. }
  rewrite Voter_init_sized by done.
  pose proof (duplicate_test raw) as Hdup.
  destruct (set_len (py_set raw) <? length (py_list raw))%nat.
  { split; [done|]. intros (_ & Hnd & Hall & _). destruct (proj1 Hdup eq_refl).
    apply no_repeats_ints; [|done]. intros c Hc. rewrite Forall_forall in Hall.
    by apply within_is_int with Infinity, Hall. }
  assert (no_repeats (py_list raw)) as Hnd.
  { destruct (decide (no_repeats (py_list raw))) as [|Hn]; [done|].
    by apply Hdup in Hn. }
  assert (Forall (within Infinity) (py_list raw)
          ↔ check_candidates Infinity (set_iter (py_set raw)) = Ok ()) as Hcheck.
  { rewrite check_candidates_Ok, !Forall_forall.
    by setoid_rewrite (elem_of_py_set raw _ Hnd). }
  apply no_repeats_NoDup in Hnd as Hnd'.
  destruct (check_candidates _ _) as [[]|e].
  - case_bool_decide; split; try done.
    + intros [= <-]. by rewrite Hcheck.
    + by intros (-> & _).
    + by intros (_ & _ & _ & ? & _).
  - split; [done|]. intros (_ & _ & Hall & _). by apply Hcheck in Hall.
Qed.

(** An accepted input has no two equal entries. *)
Lemma Voter_init_Ok_no_repeats raw w v :
  Voter_init raw w = Ok v → no_repeats (py_list raw).
Proof.
  intros (_ & Hnd & Hall & _)%Voter_init_Ok. apply no_repeats_ints; [|done].
  intros c Hc. rewrite Forall_forall in Hall. by apply within_is_int with Infinity, Hall.
Qed.

(** *** Insertion *)

Lemma unique_voter_unfold p x :
  _unique_voter p x =
    match Voter_init (arg_approved x) (arg_weight x) with
    | Err e => (p, Err e)
    | Ok v => (clear_cache p,
               _ ← check_valid v (Finite (num_cand p)) None; Ok v)
    end.
Proof. by destruct x. Qed.

Lemma unique_voter_state p x :
  (_unique_voter p x).1 = p ∨ (_unique_voter p x).1 = clear_cache p.
Proof.
  rewrite unique_voter_unfold. destruct (Voter_init _ _); simpl; tauto.
Qed.

Lemma unique_voter_Ok p x v :
  (_unique_voter p x).2 = Ok v →
  (_unique_voter p x).1 = clear_cache p
  ∧ v = mkVoter (py_set (arg_approved x)) (arg_weight x)
  ∧ valid_voter (num_cand p) v.
Proof.
  rewrite unique_voter_unfold.
  destruct (Voter_init _ _) as [v'|e] eqn:Hinit; simpl; [|done].
  apply Voter_init_Ok in Hinit as (-> & _).
  destruct (check_valid _ _ _) as [[]|e] eqn:Hcheck; simpl; [|done].
  intros [= <-]. split; [done|]. split; [done|].
  by apply check_valid_valid_voter.
Qed.

Lemma unique_voter_Ok_input p x v :
  (_unique_voter p x).2 = Ok v →
  sized (arg_approved x) ∧ no_repeats (py_list (arg_approved x)).
Proof.
  rewrite unique_voter_unfold.
  destruct (Voter_init _ _) as [v'|e] eqn:Hinit; simpl; [|done]. intros _.
  split; [by apply Voter_init_Ok in Hinit as (_ & _ & _ & _ & ?)|].
  by apply Voter_init_Ok_no_repeats in Hinit.
Qed.

Lemma clear_cache_id p : _approved_candidates p = None → clear_cache p = p.
Proof. destruct p; simpl. by intros ->. Qed.

Lemma add_voter_Ok p x :
  (add_voter p x).2 = Ok () →
  ∃ v, (_unique_voter p x).2 = Ok v
       ∧ (add_voter p x).1 = set_voters (clear_cache p) (_voters p ++ [v]).
Proof.
  unfold add_voter. destruct (_unique_voter p x) as [p' [v|e]] eqn:Hu; [|done].
  intros _. exists v. split; [done|].
  pose proof (unique_voter_Ok p x v) as Hok. rewrite Hu in Hok.
  destruct (Hok eq_refl) as (Hp' & _). simpl in *. by subst p'.
Qed.

Lemma add_voter_Err p x e :
  (add_voter p x).2 = Err e →
  (_unique_voter p x).2 = Err e ∧ (add_voter p x).1 = (_unique_voter p x).1.
Proof.
  unfold add_voter. destruct (_unique_voter p x) as [p' [v|e']]; [done|].
  simpl. by intros [= ->].
Qed.

Lemma add_voter_cases p x :
  (∃ v, (add_voter p x).2 = Ok () ∧ (_unique_voter p x).2 = Ok v
        ∧ (add_voter p x).1 = set_voters (clear_cache p) (_voters p ++ [v]))
  ∨ (∃ e, (add_voter p x).2 = Err e
          ∧ ((add_voter p x).1 = p ∨ (add_voter p x).1 = clear_cache p)).
Proof.
  destruct (add_voter p x).2 as [[]|e] eqn:Hr.
  - left. destruct (add_voter_Ok p x Hr) as (v & ? & ?). by exists v.
  - right. exists e. split; [done|].
    destruct (add_voter_Err p x e Hr) as (_ & ->). apply unique_voter_state.
Qed.

Lemma setitem_cases p i x :
  (∃ v k, (setitem p i x).2 = Ok () ∧ (_unique_voter p x).2 = Ok v
          ∧ list_index (len p) i = Some k
          ∧ (setitem p i x).1 = set_voters (clear_cache p) (<[k := v]> (_voters p)))
  ∨ (∃ e, (setitem p i x).2 = Err e
          ∧ ((setitem p i x).1 = p ∨ (setitem p i x).1 = clear_cache p)).
Proof.
  unfold setitem.
  pose proof (unique_voter_state p x) as Hst.
  pose proof (unique_voter_Ok p x) as Hok.
  destruct (_unique_voter p x) as [p' [v|e]]; simpl in *.
  - destruct (Hok v eq_refl) as (-> & _).
    replace (len (clear_cache p)) with (len p) by done.
    destruct (list_index (len p) i) as [k|]; simpl.
    + left. by exists v, k.
    + right. exists IndexOutOfRange. tauto.
  - right. by exists e.
Qed.

(** *** The invariant of reachable profiles *)

Lemma profile_inv_clear_cache p : profile_inv p → profile_inv (clear_cache p).
Proof. intros []. by split. Qed.

Lemma profile_inv_set_voters p (vs : list (Voter PS)) :
  profile_inv p → Forall (valid_voter (num_cand p)) vs → profile_inv (set_voters p vs).
Proof. intros [] ?. by split. Qed.

Lemma length_range n : length (range n) = Z.to_nat n.
Proof. apply length_seqZ. Qed.

Lemma Profile_init_inv n names p : Profile_init n names = Ok p → profile_inv p.
Proof.
  unfold Profile_init. destruct (n <=? 0) eqn:Hn; [done|]. apply Z.leb_gt in Hn.
  assert (Z.of_nat (length (range n)) = n) as Hlen by (rewrite length_range; lia).
  assert (∀ names', profile_inv (mkProfile (range n) names' [] None)
                    ↔ length names' = length (range n)) as Hinv.
  { intros names'. split; [by intros []|]. intros Hl.
    split; unfold num_cand; simpl; rewrite ?Hlen; auto with lia. }
  destruct names as [[|name names]|]; simpl.
  - intros [= <-]. apply Hinv. by rewrite length_fmap.
  - destruct (_ <? n); [done|]. intros [= <-]. apply Hinv. by rewrite length_fmap.
  - intros [= <-]. apply Hinv. by rewrite length_fmap.
Qed.

Lemma add_voter_inv p x : profile_inv p → profile_inv (add_voter p x).1.
Proof.
  intros Hinv. destruct (add_voter_cases p x) as [(v & _ & Hv & ->)|(e & _ & [->| ->])].
  - apply unique_voter_Ok in Hv as (_ & _ & Hv).
    apply profile_inv_set_voters; [by apply profile_inv_clear_cache|].
    apply Forall_app. split; [apply Hinv|]. by apply Forall_singleton.
  - done.
  - by apply profile_inv_clear_cache.
Qed.

Lemma add_voters_inv p (xs : list (voter_arg PS)) :
  profile_inv p → profile_inv (add_voters p xs).1.
Proof.
  revert p. induction xs as [|x xs IH]; intros p Hinv; simpl; [done|].
  pose proof (add_voter_inv p x Hinv) as Hstep.
  destruct (add_voter p x) as [p' [[]|e]]; simpl in *; [by apply IH|done].
Qed.

Lemma setitem_inv p i x : profile_inv p → profile_inv (setitem p i x).1.
Proof.
  intros Hinv.
  destruct (setitem_cases p i x) as [(v & k & _ & Hv & _ & ->)|(e & _ & [->| ->])].
  - apply unique_voter_Ok in Hv as (_ & _ & Hv).
    apply profile_inv_set_voters; [by apply profile_inv_clear_cache|].
    apply Forall_insert; [apply Hinv|done].
  - done.
  - by apply profile_inv_clear_cache.
Qed.

Lemma reachable_inv p : reachable p → profile_inv p.
Proof.
  induction 1 as [n names p Hinit| | |];
    eauto using Profile_init_inv, add_voter_inv, add_voters_inv, setitem_inv.
Qed.

(** C1. Every voter stored in a profile that was built through the
    constructor, [add_voter], [add_voters] and index assignment passes
    [check_valid(num_cand)]: its approved candidates are integers of
    [0, ..., num_cand - 1] and its weight is positive. *)
Theorem stored_voters_valid p v :
  reachable p → v ∈ _voters p →
  check_valid v (Finite (num_cand p)) None = Ok ()
  ∧ (∀ c, c ∈ set_iter (approved v) → ∃ z, c = CInt z ∧ 0 ≤ z < num_cand p)
  ∧ (0 < weight v)%Qc.
Proof.
  intros Hreach Hv. apply reachable_inv in Hreach as [_ Hvalid _ _ _].
  rewrite Forall_forall in Hvalid. specialize (Hvalid v Hv).
  split; [by apply check_valid_valid_voter|done].
Qed.

(** *** Party lists *)

Lemma set_and_len_zero s t : set_len (set_and s t) = 0%nat ↔ disjoint_sets s t.
Proof.
  unfold set_len, disjoint_sets. rewrite length_zero_iff_nil. split.
  - intros Hnil x Hs Ht.
    assert (set_has (set_and s t) x) as Hx by (by apply set_has_and).
    unfold set_has in Hx. rewrite Hnil in Hx. by apply elem_of_nil in Hx.
  - intros Hdis. apply elem_of_nil_inv. intros x Hx%elem_of_set_has.
    apply set_has_and in Hx as [Hs Ht]. by apply (Hdis x).
Qed.

Lemma set_and_len_full s t : set_len (set_and s t) = set_len s ↔ subset_of s t.
Proof.
  unfold set_len, subset_of.
  rewrite <-(length_fmap py_key (set_iter (set_and s t))).
  rewrite <-(length_fmap py_key (set_iter s)).
  assert (py_key <$> set_iter (set_and s t) ⊆+ py_key <$> set_iter s) as Hsub.
  { apply NoDup_submseteq; [apply set_iter_NoDup|].
    intros k (x & -> & Hx)%list_elem_of_fmap.
    by apply elem_of_set_has, set_has_and in Hx as [? _]. }
  split.
  - intros Hlen x Hx.
    apply submseteq_length_Permutation in Hsub; [|lia].
    unfold set_has in Hx. rewrite <-Hsub in Hx.
    by apply (set_has_and s t x) in Hx as [_ ?].
  - intros Hall. apply Permutation_length, NoDup_Permutation;
      [apply set_iter_NoDup | apply set_iter_NoDup |].
    intros k. split.
    + intros (x & -> & Hx)%list_elem_of_fmap.
      by apply elem_of_set_has, set_has_and in Hx as [? _].
    + intros (x & -> & Hx)%list_elem_of_fmap. apply elem_of_set_has in Hx.
      apply (set_has_and s t x). split; [done|auto].
Qed.

Lemma is_party_list_cardinalities p :
  is_party_list p = true ↔
  ∀ v1 v2, v1 ∈ _voters p → v2 ∈ _voters p →
    set_len (set_and (approved v1) (approved v2)) = 0%nat
    ∨ set_len (set_and (approved v1) (approved v2)) = set_len (approved v1).
Proof.
  unfold is_party_list. rewrite forallb_forall.
  setoid_rewrite forallb_forall. setoid_rewrite <-list_elem_of_In.
  setoid_rewrite orb_true_iff. setoid_rewrite Nat.eqb_eq.
  split; intros Hall v1 v2; [intros ? ?|intros ?]; by apply Hall.
Qed.

Lemma is_party_list_disjoint_or_same p :
  is_party_list p = true ↔
  ∀ v1 v2, v1 ∈ _voters p → v2 ∈ _voters p →
    disjoint_sets (approved v1) (approved v2) ∨ same_set (approved v1) (approved v2).
Proof.
  rewrite is_party_list_cardinalities.
  setoid_rewrite set_and_len_zero. setoid_rewrite set_and_len_full.
  split; intros Hall v1 v2 Hv1 Hv2.
  - destruct (Hall v1 v2 Hv1 Hv2) as [?|H12]; [by left|].
    destruct (Hall v2 v1 Hv2 Hv1) as [Hdis|H21].
    + left. intros x Hx1 Hx2. by apply (Hdis x).
    + right. intros x. split; [apply H12|apply H21].
  - destruct (Hall v1 v2 Hv1 Hv2) as [?|Hsame]; [by left|].
    right. intros x. apply Hsame.
Qed.

(** C2. [is_party_list()] holds exactly when, for every ordered pair of
    stored voters, the intersection of the approval sets has 0 members or
    as many as the first set; that is, when any two stored approval sets
    are disjoint or hold the same members. It holds for 0 and for 1 voter,
    fails for the approval sets {0,1}, {1,2} and holds for {0,1}, {0,1},
    {2}. *)
Theorem is_party_list_spec :
  (∀ p, is_party_list p = true ↔
     ∀ v1 v2, v1 ∈ _voters p → v2 ∈ _voters p →
       set_len (set_and (approved v1) (approved v2)) = 0%nat
       ∨ set_len (set_and (approved v1) (approved v2)) = set_len (approved v1))
  ∧ (∀ p, is_party_list p = true ↔
       ∀ v1 v2, v1 ∈ _voters p → v2 ∈ _voters p →
         disjoint_sets (approved v1) (approved v2)
         ∨ same_set (approved v1) (approved v2))
  ∧ (∀ p, (length (_voters p) ≤ 1)%nat → is_party_list p = true)
  ∧ (∀ p v1 v2, _voters p = [v1; v2] →
       set_is (approved v1) (ints [0; 1]) → set_is (approved v2) (ints [1; 2]) →
       is_party_list p = false)
  ∧ (∀ p v1 v2 v3, _voters p = [v1; v2; v3] →
       set_is (approved v1) (ints [0; 1]) → set_is (approved v2) (ints [0; 1]) →
       set_is (approved v3) (ints [2]) →
       is_party_list p = true).
Proof.
  split; [apply is_party_list_cardinalities|].
  split; [apply is_party_list_disjoint_or_same|].
  split; [|split].
  - intros p Hlen. apply is_party_list_disjoint_or_same.
    destruct (_voters p) as [|v [|v' vs]]; simpl in Hlen; [| |lia].
    + intros v1 v2 Hv1. by apply elem_of_nil in Hv1.
    + intros v1 v2 ->%list_elem_of_singleton ->%list_elem_of_singleton. by right.
  - intros p v1 v2 Hvs H1 H2. apply not_true_is_false.
    rewrite is_party_list_disjoint_or_same, Hvs. intros Hall.
    destruct (Hall v1 v2) as [Hdis|Hsame]; [set_solver..| |].
    + apply (Hdis (CInt 1)); apply elem_of_set_has; [apply H1|apply H2]; set_solver.
    + assert (set_has (approved v2) (CInt 0)) as Hin.
      { apply Hsame, elem_of_set_has, H1. set_solver. }
      apply (set_has_set_is _ _ _ H2) in Hin. set_solver.
  - intros p v1 v2 v3 Hvs H1 H2 H3.
    rewrite is_party_list_disjoint_or_same, Hvs. unfold disjoint_sets, same_set.
    intros u1 u2 Hu1 Hu2.
    assert (∀ u, u ∈ [v1; v2; v3] →
              set_is (approved u) (ints [0; 1]) ∨ set_is (approved u) (ints [2])) as Hcases.
    { intros u Hu.
      repeat (apply elem_of_cons in Hu as [->|Hu]; [tauto|]).
      by apply elem_of_nil in Hu. }
    destruct (Hcases u1 Hu1) as [E1|E1], (Hcases u2 Hu2) as [E2|E2];
      [right|left|left|right]; intros x;
      rewrite (set_has_set_is _ _ x E1), (set_has_set_is _ _ x E2); try done;
      simpl; rewrite !elem_of_cons, !elem_of_nil; intuition congruence.
Qed.

(** *** Successful insertion *)

Lemma Profile_init_Ok n names p :
  Profile_init n names = Ok p →
  0 < n ∧ num_cand p = n ∧ candidates p = range n
  ∧ _voters p = [] ∧ _approved_candidates p = None.
Proof.
  intros Hinit. pose proof (Profile_init_inv _ _ _ Hinit) as [_ _ _ Hc _].
  revert Hinit. unfold Profile_init.
  destruct (n <=? 0) eqn:Hn; [done|]. apply Z.leb_gt in Hn.
  assert (Z.of_nat (length (range n)) = n) as Hlen by (rewrite length_range; lia).
  intros Hinit.
  assert (candidates p = range n ∧ _voters p = [] ∧ _approved_candidates p = None)
    as (Hcand & ? & ?).
  { destruct names as [[|name names]|]; simpl in Hinit;
      [|destruct (_ <? n); [done|]|]; by injection Hinit as <-. }
  unfold num_cand. by rewrite Hcand, Hlen.
Qed.

Lemma add_voter_success p x :
  sized (arg_approved x) →
  NoDup (py_list (arg_approved x)) →
  (∀ c, c ∈ py_list (arg_approved x) → ∃ z, c = CInt z ∧ 0 ≤ z < num_cand p) →
  (0 < arg_weight x)%Qc →
  add_voter p x =
    (set_voters (clear_cache p)
       (_voters p ++ [mkVoter (py_set (arg_approved x)) (arg_weight x)]), Ok ()).
Proof.
  intros Hlen Hnd Hrange Hw. unfold add_voter. rewrite unique_voter_unfold.
  destruct (Voter_init _ _) as [v|e] eqn:Hinit.
  - apply Voter_init_Ok in Hinit as (-> & _).
    assert (check_valid (mkVoter (py_set (arg_approved x)) (arg_weight x))
              (Finite (num_cand p)) None = Ok ()) as ->; [|done].
    apply check_valid_valid_voter. split; [|done].
    intros c Hc. by apply Hrange, py_set_subset.
  - assert (Voter_init (arg_approved x) (arg_weight x)
            = Ok (mkVoter (py_set (arg_approved x)) (arg_weight x))) as Hok; [|congruence].
    apply Voter_init_Ok. split; [done|]. split; [done|]. split; [|done].
    apply Forall_forall. intros c Hc.
    destruct (Hrange c Hc) as (z & -> & Hz). exists z. split; [done|]. split; [lia|done].
Qed.

(** *** The approved candidates *)

(** [s.update(t)] on sets of integers adds the members of [t] to [s]. *)
Lemma elem_of_set_update_ints s t c :
  (∀ d, d ∈ set_iter s → is_int d) → (∀ d, d ∈ set_iter t → is_int d) →
  c ∈ set_iter (set_update s t) ↔ c ∈ set_iter s ∨ c ∈ set_iter t.
Proof.
  intros Hs Ht. rewrite elem_of_set_update. split; [tauto|].
  intros [?|Hc]; [tauto|]. destruct (decide (c ∈ set_iter s)); [tauto|].
  right. split; [done|]. rewrite set_has_ints; auto.
Qed.

Lemma elem_of_union_voters (vs : list (Voter PS)) (acc : PS) c :
  (∀ d, d ∈ set_iter acc → is_int d) →
  (∀ v d, v ∈ vs → d ∈ set_iter (approved v) → is_int d) →
  c ∈ set_iter (foldl (λ acc voter, set_update acc (approved voter)) acc vs)
  ↔ c ∈ set_iter acc ∨ ∃ v, v ∈ vs ∧ c ∈ set_iter (approved v).
Proof.
  revert acc. induction vs as [|v vs IH]; intros acc Hacc Hvs; simpl.
  - split; [tauto|]. intros [?|(v & Hv & _)]; [done|]. by apply elem_of_nil in Hv.
  - assert (∀ d, d ∈ set_iter (approved v) → is_int d) as Hv
      by (intros d; apply Hvs; left).
    rewrite IH.
    + rewrite elem_of_set_update_ints by done. setoid_rewrite elem_of_cons. split.
      * intros [[?|?]|(v' & ? & ?)];
          [tauto|right; exists v; tauto|right; exists v'; tauto].
      * intros [?|(v' & [->|?] & ?)]; [tauto|tauto|right; exists v'; tauto].
    + intros d [?|?]%elem_of_set_update_ints; auto.
    + intros v' d ?. apply Hvs. by right.
Qed.

Lemma elem_of_some_voter (vs : list (Voter PS)) c :
  (∃ v, v ∈ vs ∧ c ∈ set_iter (approved v))
  ↔ c ∈ concat ((λ v, set_iter (approved v)) <$> vs).
Proof.
  induction vs as [|v vs IH]; simpl.
  - rewrite elem_of_nil. split; [|done]. intros (v & Hv & _). by apply elem_of_nil in Hv.
  - rewrite elem_of_app, <-IH. setoid_rewrite elem_of_cons. split.
    + intros (v' & [->|?] & ?); [tauto|right; exists v'; tauto].
    + intros [?|(v' & ? & ?)]; [exists v; tauto|exists v'; tauto].
Qed.

Lemma valid_voter_ints n v d : valid_voter n v → d ∈ set_iter (approved v) → is_int d.
Proof. intros [Hall _] Hd. destruct (Hall d Hd) as (z & -> & _). by exists z. Qed.

Lemma approved_candidates_union p :
  profile_inv p →
  ∃ s, approved_candidates p = Ok s
       ∧ ∀ c, c ∈ set_iter s ↔ ∃ v, v ∈ _voters p ∧ c ∈ set_iter (approved v).
Proof.
  intros [Hnone Hvalid _ _ _]. unfold approved_candidates. rewrite Hnone.
  eexists. split; [done|]. intros c.
  rewrite elem_of_union_voters, set_iter_empty, elem_of_nil; [tauto| |].
  - rewrite set_iter_empty. by intros d ?%elem_of_nil.
  - intros v d Hv. rewrite Forall_forall in Hvalid.
    apply valid_voter_ints with (num_cand p). by apply Hvalid.
Qed.

Lemma no_repeats_of_ints (l : list Z) : NoDup l → no_repeats (ints l).
Proof.
  intros Hnd. unfold no_repeats, ints. rewrite <-list_fmap_compose.
  apply NoDup_fmap_2; [|done]. by intros ?? [= ->].
Qed.

Lemma elem_of_set_of_ints (l : list Z) c :
  NoDup l → c ∈ set_iter (set_of_list (ints l)) ↔ c ∈ ints l.
Proof.
  intros Hnd. apply (elem_of_py_set (IterList (ints l))). by apply no_repeats_of_ints.
Qed.

(** C3. Reading [approved_candidates] on a profile built through the
    constructor, [add_voter], [add_voters] and index assignment returns the
    union of the approval sets of the voters stored at that moment: the
    empty set for a new profile, {0,1,2} after the insertion of {0} and
    {1,2}, and {0,1,2,3} after the further insertion of {3}. *)
Theorem approved_candidates_spec :
  (∀ p, reachable p →
     ∃ s, approved_candidates p = Ok s
          ∧ ∀ c, c ∈ set_iter s ↔ ∃ v, v ∈ _voters p ∧ c ∈ set_iter (approved v))
  ∧ (∀ n names p, Profile_init n names = Ok p →
       ∃ s, approved_candidates p = Ok s ∧ set_iter s = [])
  ∧ (∀ names p0, Profile_init 4 names = Ok p0 →
       let p1 := (add_voters p0 [ArgIterable (IterList (ints [0]));
                                 ArgIterable (IterList (ints [1; 2]))]).1 in
       let p2 := (add_voter p1 (ArgIterable (IterList (ints [3])))).1 in
       (∃ s, approved_candidates p1 = Ok s ∧ set_is s (ints [0; 1; 2]))
       ∧ (∃ s, approved_candidates p2 = Ok s ∧ set_is s (ints [0; 1; 2; 3]))).
Proof.
  split; [|split].
  - intros p Hreach. apply approved_candidates_union. by apply reachable_inv.
  - intros n names p Hinit.
    apply Profile_init_Ok in Hinit as (_ & _ & _ & Hvs & Hnone).
    unfold approved_candidates. rewrite Hnone, Hvs. simpl.
    eexists. split; [done|apply set_iter_empty].
  - intros names p0 Hinit.
    pose proof (reach_init _ _ _ Hinit) as Hreach.
    apply Profile_init_Ok in Hinit as (_ & Hn & _ & Hvs & _).
    assert (∀ p (l : list Z), num_cand p = 4 → NoDup l → Forall (λ z, 0 ≤ z < 4) l →
              add_voter p (ArgIterable (IterList (ints l)))
              = (set_voters (clear_cache p)
                   (_voters p ++ [mkVoter (set_of_list (ints l)) 1%Qc]), Ok ())) as Hadd.
    { intros p l Hp Hnd Hl. apply (add_voter_success p (ArgIterable (IterList (ints l)))).
      - done.
      - simpl. apply NoDup_fmap_2; [|done]. by intros ?? [= ->].
      - simpl. intros c (z & -> & Hz)%list_elem_of_fmap. exists z. split; [done|].
        rewrite Hp. by rewrite Forall_forall in Hl; apply Hl.
      - done. }
    intros p1 p2.
    assert (reachable p1) as Hreach1 by by apply reach_add_voters.
    assert (reachable p2) as Hreach2 by by apply reach_add_voter.
    assert (_voters p1 = [mkVoter (set_of_list (ints [0])) 1%Qc;
                          mkVoter (set_of_list (ints [1; 2])) 1%Qc]
            ∧ num_cand p1 = 4) as [Hvs1 Hn1].
    { subst p1. unfold add_voters.
      rewrite Hadd; [|exact Hn|repeat constructor; set_solver|repeat constructor; lia].
      cbv beta iota.
      rewrite Hadd; [|exact Hn|repeat constructor; set_solver|repeat constructor; lia].
      split; [|exact Hn]. cbn [fst _voters set_voters]. by rewrite Hvs. }
    assert (_voters p2 = _voters p1 ++ [mkVoter (set_of_list (ints [3])) 1%Qc]) as Hvs2.
    { subst p2. rewrite Hadd; [done|exact Hn1|repeat constructor; set_solver|
                                 repeat constructor; lia]. }
    apply reachable_inv in Hreach1 as Hinv1.
    apply reachable_inv in Hreach2 as Hinv2.
    destruct (approved_candidates_union p1 Hinv1) as (s1 & Hs1 & Hin1).
    destruct (approved_candidates_union p2 Hinv2) as (s2 & Hs2 & Hin2).
    assert (NoDup [0] ∧ NoDup [1; 2] ∧ NoDup [3]) as (Hnd0 & Hnd12 & Hnd3)
      by (repeat split; by apply (bool_decide_unpack _)).
    split; [exists s1|exists s2]; (split; [done|]); intros c.
    + rewrite Hin1, elem_of_some_voter, Hvs1. cbn [fmap list_fmap concat approved].
      rewrite !elem_of_app, !elem_of_set_of_ints by done. unfold ints; simpl.
      rewrite !elem_of_cons, !elem_of_nil. tauto.
    + rewrite Hin2, elem_of_some_voter, Hvs2, Hvs1.
      cbn [fmap list_fmap concat approved app].
      rewrite !elem_of_app, !elem_of_set_of_ints by done. unfold ints; simpl.
      rewrite !elem_of_cons, !elem_of_nil. tauto.
Qed.

(** *** Which error the validation reports *)

Lemma check_candidates_type b (l : list candidate) :
  (∃ c, c ∈ l ∧ ¬ is_int c) →
  (∀ z, CInt z ∈ l → 0 ≤ z ∧ ge_bound z b = false) →
  check_candidates b l = Err InvalidCandidateType.
Proof.
  induction l as [|[z|z|o|o] l IH]; simpl; intros (c & Hc & Hno) Hrange; [|  |done..].
  - by apply elem_of_nil in Hc.
  - destruct (Hrange z) as [Hz ->]; [left|].
    assert ((z <? 0) = false) as -> by lia. simpl.
    apply IH; [|intros z' ?; apply Hrange; by right].
    apply elem_of_cons in Hc as [->|Hc]; [|by exists c].
    destruct Hno. by exists z.
Qed.

Lemma check_candidates_range b (l : list candidate) :
  (∀ c, c ∈ l → is_int c) →
  (∃ z, CInt z ∈ l ∧ (z < 0 ∨ ge_bound z b = true)) →
  check_candidates b l = Err CandidateOutOfRange.
Proof.
  induction l as [|[z|z|o|o] l IH]; simpl; intros Hint (z' & Hz' & Hout).
  - by apply elem_of_nil in Hz'.
  - destruct ((z <? 0) || ge_bound z b) eqn:E; [done|].
    apply orb_false_iff in E as [E1 E2].
    apply IH; [intros c ?; apply Hint; by right|].
    apply elem_of_cons in Hz' as [[= ->]|Hz']; [|by exists z'].
    destruct Hout; [lia|congruence].
  - destruct (Hint (CNum z)) as [z0 ?]; [left|done].
  - destruct (Hint (CObj o)) as [z0 ?]; [left|done].
  - destruct (Hint (CUnhashable o)) as [z0 ?]; [left|done].
Qed.

(** The errors of the loop, read backwards: a candidate of the kind that
    the error names is among the candidates. *)
Lemma check_candidates_Err b (l : list candidate) e :
  check_candidates b l = Err e →
  (e = InvalidCandidateType ∧ ∃ c, c ∈ l ∧ ¬ is_int c)
  ∨ (e = CandidateOutOfRange ∧ ∃ z, CInt z ∈ l ∧ (z < 0 ∨ ge_bound z b = true)).
Proof.
  induction l as [|[z|z|o|o] l IH]; simpl; [done| | | |].
  - destruct ((z <? 0) || ge_bound z b) eqn:E.
    + intros [= <-]. right. split; [done|]. exists z. split; [left|].
      apply orb_true_iff in E as [E|E]; [left; lia|by right].
    + intros [[-> (c & ? & ?)]|[-> (z' & ? & ?)]]%IH; [left|right];
        (split; [done|]); [exists c|exists z']; (split; [by right|done]).
  - intros [= <-]. left. split; [done|]. exists (CNum z). split; [left|by intros [z' ?]].
  - intros [= <-]. left. split; [done|]. exists (CObj o). split; [left|by intros [z' ?]].
  - intros [= <-]. left. split; [done|].
    exists (CUnhashable o). split; [left|by intros [z' ?]].
Qed.

(** What the constructor does with an input that [set] accepts, that has a
    length and no two equal entries: it visits the candidates of the set,
    then tests the weight. *)
Lemma Voter_init_no_repeats raw w :
  hashable_entries raw → sized raw → no_repeats (py_list raw) →
  Voter_init raw w =
    match check_candidates Infinity (set_iter (py_set raw)) with
    | Err e => Err e
    | Ok _ => if bool_decide (0 < w)%Qc then Ok (mkVoter (py_set raw) w)
              else Err InvalidWeight
    end.
Proof.
  intros Hhash Hlen Hnd. rewrite Voter_init_sized by done.
  destruct (set_len (py_set raw) <? length (py_list raw))%nat eqn:Htest; [|done].
  by apply duplicate_test in Htest.
Qed.

Lemma Voter_init_duplicate raw w :
  Voter_init raw w = Err DuplicateApproval
  ↔ hashable_entries raw ∧ ∃ n, py_len raw = Some n ∧ (set_len (py_set raw) < n)%nat.
Proof.
  rewrite Voter_init_unfold. unfold hashable_entries.
  destruct (hashable_or_not raw) as [Hhash|Hhash]; unfold hashable_entries in *;
    rewrite Hhash; [|split; [done|by intros [? _]]].
  destruct (py_len raw) as [n|].
  - destruct (set_len (py_set raw) <? n)%nat eqn:Htest.
    + apply Nat.ltb_lt in Htest. split; [|done]. intros _. split; [done|]. by exists n.
    + apply Nat.ltb_ge in Htest. split.
      * destruct (check_candidates_cases Infinity (set_iter (py_set raw)))
          as [->|[->| ->]]; [by case_bool_decide|done..].
      * intros (_ & n' & [= <-] & ?). lia.
  - split; [done|]. by intros (_ & n & ? & _).
Qed.

(** C4, as the code has it. The constructor of [Voter] first makes a set of
    the input, which raises Unhashable for an entry that cannot be hashed,
    then evaluates [len(approved)], which raises NoLength for an iterator.
    Otherwise it raises DuplicateApproval exactly when the set is smaller
    than the input, which is when two entries are equal ([1] and [1.0] are).
    On an input without equal entries the set holds the entries, and the
    candidates are visited in the iteration order of the set: the first one
    that is not an integer raises InvalidCandidateType, the first one that is
    a negative integer raises CandidateOutOfRange, whichever comes first. So
    the constructor raises InvalidCandidateType when some entry is not an
    integer and no integer entry is negative; it raises CandidateOutOfRange
    when all entries are integers and one is negative; it raises
    InvalidWeight when all entries are integers that are not negative and
    the weight is not positive; and it returns the voter when all entries
    are integers that are not negative, however large, and the weight is
    positive. It raises each of these errors in no other case. The empty
    input is accepted. *)
Theorem Voter_init_spec raw w :
  (¬ hashable_entries raw → Voter_init raw w = Err Unhashable)
  ∧ (hashable_entries raw → py_len raw = None → Voter_init raw w = Err NoLength)
  ∧ (Voter_init raw w = Err DuplicateApproval
     ↔ hashable_entries raw
       ∧ ∃ n, py_len raw = Some n ∧ (set_len (py_set raw) < n)%nat)
  ∧ (hashable_entries raw → sized raw →
     Voter_init raw w = Err DuplicateApproval ↔ ¬ no_repeats (py_list raw))
  ∧ (no_repeats (py_list raw) → set_iter (py_set raw) ≡ₚ py_list raw)
  ∧ (hashable_entries raw → sized raw → no_repeats (py_list raw) →
     ∀ pre c post,
       set_iter (py_set raw) = pre ++ c :: post →
       (∀ d, d ∈ pre → ∃ z, d = CInt z ∧ 0 ≤ z) →
       (¬ is_int c → Voter_init raw w = Err InvalidCandidateType)
       ∧ (∀ z, c = CInt z → z < 0 → Voter_init raw w = Err CandidateOutOfRange))
  ∧ (hashable_entries raw → sized raw → no_repeats (py_list raw) →
     (∃ c, c ∈ py_list raw ∧ ¬ is_int c) →
     (∀ z, CInt z ∈ py_list raw → 0 ≤ z) →
     Voter_init raw w = Err InvalidCandidateType)
  ∧ (sized raw → no_repeats (py_list raw) →
     (∀ c, c ∈ py_list raw → is_int c) →
     (∃ z, CInt z ∈ py_list raw ∧ z < 0) →
     Voter_init raw w = Err CandidateOutOfRange)
  ∧ (sized raw → no_repeats (py_list raw) →
     (∀ c, c ∈ py_list raw → ∃ z, c = CInt z ∧ 0 ≤ z) →
     (w ≤ 0)%Qc →
     Voter_init raw w = Err InvalidWeight)
  ∧ (sized raw → no_repeats (py_list raw) →
     (∀ c, c ∈ py_list raw → ∃ z, c = CInt z ∧ 0 ≤ z) →
     (0 < w)%Qc →
     Voter_init raw w = Ok (mkVoter (py_set raw) w))
  ∧ (Voter_init raw w = Err InvalidCandidateType →
     ∃ c, c ∈ py_list raw ∧ ¬ is_int c)
  ∧ (Voter_init raw w = Err CandidateOutOfRange →
     ∃ z, CInt z ∈ py_list raw ∧ z < 0)
  ∧ (Voter_init raw w = Err InvalidWeight →
     (w ≤ 0)%Qc ∧ ∀ c, c ∈ py_list raw → ∃ z, c = CInt z ∧ 0 ≤ z)
  ∧ ((0 < w)%Qc →
     Voter_init (IterList []) w = Ok (mkVoter (set_of_list []) w)).
Proof.
  assert (∀ raw', (∀ c, c ∈ py_list raw' → ∃ z, c = CInt z ∧ 0 ≤ z) →
            hashable_entries raw'
            ∧ check_candidates Infinity (set_iter (py_set raw')) = Ok ()) as Hvisit.
  { intros raw' Hall. split.
    - apply hashable_ints. intros c Hc. destruct (Hall c Hc) as (z & -> & _). by exists z.
    - apply check_candidates_Ok, Forall_forall.
      intros c Hc%py_set_subset. destruct (Hall c Hc) as (z & -> & ?). by exists z. }
  split; [apply Voter_init_unhashable|]. split; [apply Voter_init_unsized|].
  split; [apply Voter_init_duplicate|].
  split.
  { intros Hhash Hlen. rewrite Voter_init_duplicate, <-duplicate_test, Nat.ltb_lt.
    unfold sized in Hlen. rewrite Hlen. split; [by intros (_ & n & [= <-] & ?)|eauto]. }
  split; [apply py_set_perm|].
  split.
  { intros Hhash Hlen Hnd pre c post Hsplit Hpre.
    rewrite Voter_init_no_repeats, Hsplit by done.
    assert (Forall (within Infinity) pre) as Hpre'.
    { apply Forall_forall. intros d Hd. destruct (Hpre d Hd) as (z & -> & ?). by exists z. }
    split.
    - intros Hc. rewrite check_candidates_first; [|done|].
      + destruct c as [z| | |]; [|done..]. destruct Hc. by exists z.
      + by intros ?%within_is_int.
    - intros z -> Hz. rewrite check_candidates_first; [done|done|].
      intros (z' & [= <-] & ? & _). lia. }
  split.
  { intros Hhash Hlen Hnd (c & Hc & Hno) Hpos. rewrite Voter_init_no_repeats by done.
    rewrite (check_candidates_type Infinity); [done| |].
    - exists c. by rewrite elem_of_py_set.
    - intros z Hz%py_set_subset. split; [by apply Hpos|done]. }
  split.
  { intros Hlen Hnd Hint (z & Hz & Hneg).
    rewrite Voter_init_no_repeats by (try done; by apply hashable_ints).
    rewrite (check_candidates_range Infinity); [done| |].
    - intros c Hc%py_set_subset. by apply Hint.
    - exists z. rewrite elem_of_py_set by done. tauto. }
  split.
  { intros Hlen Hnd Hall Hw. destruct (Hvisit raw Hall) as [Hhash Hok].
    rewrite Voter_init_no_repeats, Hok by done.
    apply Qcle_ngt in Hw. by rewrite bool_decide_eq_false_2. }
  split.
  { intros Hlen Hnd Hall Hw. destruct (Hvisit raw Hall) as [Hhash Hok].
    rewrite Voter_init_no_repeats, Hok by done.
    by rewrite bool_decide_eq_true_2. }
  assert (∀ e, Voter_init raw w = Err e →
            e ≠ Unhashable → e ≠ NoLength → e ≠ DuplicateApproval →
            no_repeats (py_list raw)
            ∧ match check_candidates Infinity (set_iter (py_set raw)) with
              | Err e' => e = e'
              | Ok _ => e = InvalidWeight ∧ ¬ (0 < w)%Qc
              end) as Hlate.
  { intros e. rewrite Voter_init_unfold.
    destruct (hashable_or_not raw) as [Hh|Hh]; unfold hashable_entries in *;
      rewrite Hh; [|congruence].
    destruct (py_len raw) as [n|] eqn:Hn; [|congruence].
    apply py_len_Some in Hn as ->.
    destruct (set_len (py_set raw) <? length (py_list raw))%nat eqn:Htest;
      [congruence|].
    intros He _ _ _. split.
    { destruct (decide (no_repeats (py_list raw))) as [|Hno]; [done|].
      apply duplicate_test in Hno. congruence. }
    destruct (check_candidates _ _) as [[]|e']; [|congruence].
    revert He. case_bool_decide; [done|]. by intros [= <-]. }
  split; [|split; [|split]].
  - intros He. destruct (Hlate _ He) as [_ Hc']; [done..|].
    destruct (check_candidates _ _) as [[]|e'] eqn:Hc; [by destruct Hc'|].
    subst e'. apply check_candidates_Err in Hc as [[_ (c & Hc & ?)]|[? _]]; [|done].
    exists c. split; [by apply py_set_subset|done].
  - intros He. destruct (Hlate _ He) as [_ Hc']; [done..|].
    destruct (check_candidates _ _) as [[]|e'] eqn:Hc; [by destruct Hc'|].
    subst e'.
    apply check_candidates_Err in Hc as [[? _]|[_ (z & Hz & [?|?])]]; [done| |done].
    exists z. split; [by apply py_set_subset|done].
  - intros He. destruct (Hlate _ He) as [Hnd Hw]; [done..|].
    destruct (check_candidates _ _) as [[]|e'] eqn:Hc.
    2:{ subst e'. by apply check_candidates_Err in Hc as [[? _]|[? _]]. }
    destruct Hw as [_ Hw]. split; [by apply Qcnot_lt_le|].
    intros c Hc'%(elem_of_py_set raw c Hnd).
    apply check_candidates_Ok in Hc. rewrite Forall_forall in Hc.
    destruct (Hc c Hc') as (z & -> & ? & _). by exists z.
  - intros Hw. destruct (Hvisit (IterList [])) as [Hhash Hok].
    { intros c Hc. by apply elem_of_nil in Hc. }
    rewrite Voter_init_no_repeats; [|done|done|constructor].
    by rewrite Hok, bool_decide_eq_true_2.
Qed.

(** *** The constructor of [Profile] *)

Lemma names_comprehension (names : list string) n :
  n ≤ Z.of_nat (length names) →
  (λ i, default "" (names !! Z.to_nat i)) <$> range n = take (Z.to_nat n) names.
Proof.
  intros Hlen. apply list_eq. intros i. unfold range. rewrite list_lookup_fmap.
  destruct (decide (Z.of_nat i < n)) as [Hi|Hi].
  - rewrite lookup_seqZ_lt, lookup_take_lt by lia. simpl.
    rewrite Z.add_0_l, Nat2Z.id.
    destruct (lookup_lt_is_Some_2 names i) as [name ->]; [lia|done].
  - rewrite lookup_seqZ_ge, lookup_take_ge by lia. done.
Qed.

(** C5, as the code has it. The constructor of [Profile] raises
    InvalidArgument for every [num_cand <= 0], and for a [cand_names] that
    is not empty and has fewer entries than [num_cand]. Otherwise it returns
    a profile without voters over the candidates [0, ..., num_cand - 1]; the
    names are the indices as strings when [cand_names] is absent or empty,
    and the first [num_cand] entries of [cand_names] when it has that many. *)
Theorem Profile_init_spec :
  (∀ n names, n ≤ 0 → Profile_init (PS:=PS) n names = Err InvalidArgument)
  ∧ (∀ n names, 0 < n → names ≠ [] → Z.of_nat (length names) < n →
       Profile_init (PS:=PS) n (Some names) = Err InvalidArgument)
  ∧ (∀ n, 0 < n →
       Profile_init (PS:=PS) n None
         = Ok (mkProfile (range n) (pretty <$> range n) [] None)
       ∧ Profile_init (PS:=PS) n (Some [])
         = Ok (mkProfile (range n) (pretty <$> range n) [] None))
  ∧ (∀ n names, 0 < n → n ≤ Z.of_nat (length names) →
       Profile_init (PS:=PS) n (Some names)
         = Ok (mkProfile (range n) (take (Z.to_nat n) names) [] None)).
Proof.
  unfold Profile_init. split; [|split; [|split]].
  - intros n names Hn. by assert ((n <=? 0) = true) as -> by lia.
  - intros n [|name names] Hn Hne Hlen; [done|].
    assert ((n <=? 0) = false) as -> by lia.
    by assert ((Z.of_nat (length (name :: names)) <? n) = true) as -> by lia.
  - intros n Hn. by assert ((n <=? 0) = false) as -> by lia.
  - intros n [|name names] Hn Hlen; [simpl in Hlen; lia|].
    assert ((n <=? 0) = false) as -> by lia.
    assert ((Z.of_nat (length (name :: names)) <? n) = false) as -> by lia.
    cbn [candidates _voters _approved_candidates].
    by rewrite names_comprehension.
Qed.

(** *** Failing insertions *)

Lemma add_voter_failure_atomic p x e :
  (add_voter p x).2 = Err e →
  _voters (add_voter p x).1 = _voters p
  ∧ (_approved_candidates p = None → (add_voter p x).1 = p).
Proof.
  intros Hfail. destruct (add_voter_cases p x) as [(v & Hok & _)|(e' & _ & Hst)].
  - rewrite Hok in Hfail. done.
  - destruct Hst as [->| ->]; [done|]. split; [done|]. apply clear_cache_id.
Qed.

Lemma add_voter_out_of_range_fails p x z :
  CInt z ∈ py_list (arg_approved x) → z < 0 ∨ num_cand p ≤ z →
  ∃ e, (add_voter p x).2 = Err e.
Proof.
  intros Hz Hout. destruct (add_voter p x).2 as [[]|e] eqn:Hr; [|by exists e].
  apply add_voter_Ok in Hr as (v & Hv & _).
  apply unique_voter_Ok_input in Hv as Hin. destruct Hin as [_ Hnd].
  apply unique_voter_Ok in Hv as (_ & -> & [Hvalid _]).
  destruct (Hvalid (CInt z)) as (z' & [= <-] & ?); [by apply elem_of_py_set|lia].
Qed.

Lemma check_candidates_ints b (l : list candidate) :
  (∀ c, c ∈ l → is_int c) →
  check_candidates b l = Ok () ∨ check_candidates b l = Err CandidateOutOfRange.
Proof.
  intros Hint. destruct (check_candidates_cases b l) as [?|[Htype|?]]; [tauto| |tauto].
  apply check_candidates_Err in Htype as [[_ (c & Hc & Hno)]|[? _]]; [|done].
  destruct Hno. by apply Hint.
Qed.

Lemma add_voter_out_of_range_error p x z :
  CInt z ∈ py_list (arg_approved x) → z < 0 ∨ num_cand p ≤ z →
  NoDup (py_list (arg_approved x)) →
  (∀ c, c ∈ py_list (arg_approved x) → is_int c) →
  (0 < arg_weight x)%Qc →
  (add_voter p x).2 = match py_len (arg_approved x) with
                      | Some _ => Err CandidateOutOfRange
                      | None => Err NoLength
                      end.
Proof.
  intros Hz Hout Hnd Hint Hw. apply no_repeats_ints in Hnd; [|done].
  destruct (sized_or_not (arg_approved x)) as [Hlen|Hlen].
  2:{ rewrite Hlen. unfold add_voter. rewrite unique_voter_unfold.
      by rewrite Voter_init_unsized by (try done; by apply hashable_ints). }
  pose proof Hlen as Hlen'. unfold sized in Hlen'. rewrite Hlen'.
  unfold add_voter. rewrite unique_voter_unfold.
  rewrite Voter_init_no_repeats by (try done; by apply hashable_ints).
  assert (∀ c, c ∈ set_iter (py_set (arg_approved x)) → is_int c) as Hint'.
  { intros c Hc%py_set_subset. by apply Hint. }
  destruct (check_candidates_ints Infinity _ Hint') as [->| ->]; [|done].
  rewrite bool_decide_eq_true_2 by done. unfold check_valid. cbn [approved weight].
  cbn [check_duplicates mbind result_bind].
  rewrite (check_candidates_range (Finite (num_cand p))); [done|done|].
  exists z. rewrite elem_of_py_set by done. split; [done|].
  destruct Hout; [by left|right]. simpl. lia.
Qed.

(** C6, as the code has it. [add_voter] with an approval set that holds an
    index below 0 or not below [num_cand] raises, and the error is
    CandidateOutOfRange when the input has no repeated entry, all its
    entries are integers and its weight is positive (a repeated entry is
    reported first, as DuplicateApproval), unless the input is an iterator,
    for which [len()] raises. Whenever [add_voter] raises, the voters of
    the profile are the ones it had before; a profile built through the
    constructor and the mutating methods is left as it was. *)
Theorem add_voter_rejects p x :
  (∀ z, CInt z ∈ py_list (arg_approved x) → z < 0 ∨ num_cand p ≤ z →
     (∃ e, (add_voter p x).2 = Err e)
     ∧ _voters (add_voter p x).1 = _voters p
     ∧ length (_voters (add_voter p x).1) = length (_voters p)
     ∧ (NoDup (py_list (arg_approved x)) →
        (∀ c, c ∈ py_list (arg_approved x) → is_int c) →
        (0 < arg_weight x)%Qc →
        (add_voter p x).2 = match py_len (arg_approved x) with
                            | Some _ => Err CandidateOutOfRange
                            | None => Err NoLength
                            end))
  ∧ (∀ e, (add_voter p x).2 = Err e →
       _voters (add_voter p x).1 = _voters p
       ∧ (reachable p → (add_voter p x).1 = p)).
Proof.
  assert (∀ e, (add_voter p x).2 = Err e →
            _voters (add_voter p x).1 = _voters p
            ∧ (reachable p → (add_voter p x).1 = p)) as Hatomic.
  { intros e He. destruct (add_voter_failure_atomic p x e He) as [Hvs Hsame].
    split; [done|]. intros Hreach. apply Hsame. by apply reachable_inv. }
  split; [|done]. intros z Hz Hout.
  destruct (add_voter_out_of_range_fails p x z Hz Hout) as [e He].
  destruct (Hatomic e He) as [Hvs _].
  split; [by exists e|]. split; [done|]. split; [by rewrite Hvs|].
  by apply add_voter_out_of_range_error with z.
Qed.


(** *** Reading back *)

Lemma list_index_Some n i k : list_index n i = Some k → (k < n)%nat.
Proof.
  unfold list_index. destruct (_ || _) eqn:Hb; [done|]. intros [= <-].
  destruct (i <? 0) eqn:Hi; lia.
Qed.

(** After an accepted [profile[i] = voter], [profile[i]] is the voter made of
    the argument, and the number of voters is what it was. *)
Lemma getitem_setitem p i x :
  (setitem p i x).2 = Ok () →
  getitem (setitem p i x).1 i = Ok (stored_for x)
  ∧ len (setitem p i x).1 = len p.
Proof.
  intros Hok.
  destruct (setitem_cases p i x) as [(v & k & _ & Hv & Hk & Hp')|(e & He & _)];
    [|congruence].
  apply unique_voter_Ok in Hv as (_ & -> & _).
  assert (len (setitem p i x).1 = len p) as Hlen.
  { rewrite Hp'. unfold len, set_voters; simpl. apply length_insert. }
  split; [|done]. unfold getitem. rewrite Hlen, Hk, Hp'. simpl.
  rewrite list_lookup_insert_eq; [done|]. by apply list_index_Some in Hk.
Qed.

(** In Python's terms, the repeated entry, the candidate out of range and
    the bad weight are all [ValueError]s; the bad type is a [TypeError]. *)
Lemma errors_as_raised :
  raised_as DuplicateApproval = ValueError
  ∧ raised_as CandidateOutOfRange = ValueError
  ∧ raised_as InvalidWeight = ValueError
  ∧ raised_as InvalidArgument = ValueError
  ∧ raised_as InvalidCandidateType = TypeError.
Proof. done. Qed.

(** *** Bulk insertion *)

Lemma add_voter_Ok_stored p x p' :
  add_voter p x = (p', Ok ()) →
  p' = set_voters (clear_cache p) (_voters p ++ [stored_for x]).
Proof.
  intros Hadd.
  destruct (add_voter_Ok p x) as (v & Hv & Hp'); [by rewrite Hadd|].
  apply unique_voter_Ok in Hv as (_ & -> & _). by rewrite Hadd in Hp'.
Qed.

Lemma add_voters_app p (pre rest : list (voter_arg PS)) p1 :
  add_voters p pre = (p1, Ok ()) →
  add_voters p (pre ++ rest) = add_voters p1 rest.
Proof.
  revert p. induction pre as [|y pre IH]; intros p; simpl.
  - by intros [= ->].
  - destruct (add_voter p y) as [p' [[]|e]]; [apply IH|done].
Qed.

Lemma add_voters_Ok p (xs : list (voter_arg PS)) p' :
  add_voters p xs = (p', Ok ()) →
  _voters p' = _voters p ++ (stored_for <$> xs).
Proof.
  revert p. induction xs as [|y xs IH]; intros p; simpl.
  - intros [= ->]. by rewrite app_nil_r.
  - destruct (add_voter p y) as [p1 [[]|e]] eqn:Hadd; [|done].
    intros Hrest. rewrite (IH _ Hrest).
    apply add_voter_Ok_stored in Hadd as ->. simpl. by rewrite <-app_assoc.
Qed.

Lemma add_voters_Err p (xs : list (voter_arg PS)) p' e :
  add_voters p xs = (p', Err e) →
  ∃ pre x post p1,
    xs = pre ++ x :: post
    ∧ add_voters p pre = (p1, Ok ())
    ∧ add_voter p1 x = (p', Err e).
Proof.
  revert p. induction xs as [|y xs IH]; intros p; simpl; [done|].
  destruct (add_voter p y) as [p1 [[]|e']] eqn:Hadd.
  - intros Hrest. destruct (IH _ Hrest) as (pre & x & post & p2 & -> & Hpre & Hx).
    exists (y :: pre), x, post, p2. simpl. by rewrite Hadd.
  - intros [= -> ->]. by exists [], y, xs, p.
Qed.

(** C7. [add_voters] hands its elements to [add_voter] one after the
    other. When all are accepted, the voters made of them are appended in
    order. When the first [k-1] elements are accepted and the [k]-th is
    rejected, [add_voters] raises the error of the [k]-th, the voters of the
    first [k-1] elements stay in the profile, and neither the [k]-th nor a
    later element is inserted; and [add_voters] raises in no other way. *)
Theorem add_voters_not_atomic :
  (∀ p x (xs : list (voter_arg PS)),
     add_voters p [] = (p, Ok ())
     ∧ add_voters p (x :: xs) =
         match add_voter p x with
         | (p', Ok _) => add_voters p' xs
         | (p', Err e) => (p', Err e)
         end)
  ∧ (∀ p (xs : list (voter_arg PS)) p',
       add_voters p xs = (p', Ok ()) →
       _voters p' = _voters p ++ (stored_for <$> xs))
  ∧ (∀ p (pre : list (voter_arg PS)) x post p1 p2 e,
       add_voters p pre = (p1, Ok ()) →
       add_voter p1 x = (p2, Err e) →
       add_voters p (pre ++ x :: post) = (p2, Err e)
       ∧ _voters p2 = _voters p ++ (stored_for <$> pre)
       ∧ length (_voters p2) = (length (_voters p) + length pre)%nat)
  ∧ (∀ p (xs : list (voter_arg PS)) p' e,
       add_voters p xs = (p', Err e) →
       ∃ pre x post p1,
         xs = pre ++ x :: post
         ∧ add_voters p pre = (p1, Ok ())
         ∧ add_voter p1 x = (p', Err e)).
Proof.
  split; [done|]. split; [apply add_voters_Ok|]. split; [|apply add_voters_Err].
  intros p pre x post p1 p2 e Hpre Hx.
  rewrite (add_voters_app _ _ _ _ Hpre). simpl. rewrite Hx.
  split; [done|].
  destruct (add_voter_failure_atomic p1 x e) as [Hvs _]; [by rewrite Hx|].
  rewrite Hx in Hvs. simpl in Hvs.
  rewrite Hvs, (add_voters_Ok _ _ _ Hpre).
  split; [done|]. by rewrite length_app, length_fmap.
Qed.

(** *** The textual summaries *)

Variable str_set_of_candidates : list candidate → list string → string.

Lemma string_app_cons a (s t : string) : String a s +:+ t = String a (s +:+ t).
Proof. done. Qed.

Lemma string_length_app (s t : string) :
  String.length (s +:+ t) = (String.length s + String.length t)%nat.
Proof.
  induction s as [|a s IH]; [done|].
  rewrite string_app_cons. simpl. by rewrite IH.
Qed.

Lemma string_app_assoc (s t u : string) : (s +:+ t) +:+ u = s +:+ t +:+ u.
Proof.
  induction s as [|a s IH]; [done|].
  rewrite !string_app_cons. by rewrite IH.
Qed.

Lemma string_app_nil_r (s : string) : s +:+ "" = s.
Proof.
  induction s as [|a s IH]; [done|].
  rewrite string_app_cons. by rewrite IH.
Qed.

Lemma drop_last2_app (s t : string) :
  (2 ≤ String.length t)%nat → drop_last2 (s +:+ t) = s +:+ drop_last2 t.
Proof.
  intros Ht. unfold drop_last2. induction s as [|a s IH]; [done|].
  rewrite !string_app_cons. simpl String.length.
  pose proof (string_length_app s t) as Hlen.
  destruct (String.length (s +:+ t)) as [|[|n]] eqn:E; [lia..|].
  simpl. f_equal. rewrite <-IH. simpl. by rewrite Nat.sub_0_r.
Qed.

Lemma header_empty p :
  _voters p = [] →
  header p = ("profile with 0 votes and " +:+ pretty (num_cand p) +:+ " candidates")
               +:+ ":" +:+ NL.
Proof.
  intros Hvs. unfold header, len. rewrite Hvs. simpl length.
  replace (pretty 0%nat) with "0" by (by vm_compute).
  by rewrite !string_app_assoc.
Qed.

(** C10. For a profile without voters, [str()] and [str_compact()] strip
    the last two characters of the header itself, the colon and the
    newline: [str()] is "profile with 0 votes and {num_cand} candidates",
    and [str_compact()] is that line followed by a newline. *)
Theorem str_of_empty_profile p :
  _voters p = [] →
  header p = ("profile with 0 votes and " +:+ pretty (num_cand p) +:+ " candidates")
               +:+ ":" +:+ NL
  ∧ str str_set_of_candidates p = drop_last2 (header p)
  ∧ str str_set_of_candidates p
    = "profile with 0 votes and " +:+ pretty (num_cand p) +:+ " candidates"
  ∧ str_compact str_set_of_candidates p = drop_last2 (header p) +:+ NL
  ∧ str_compact str_set_of_candidates p
    = ("profile with 0 votes and " +:+ pretty (num_cand p) +:+ " candidates") +:+ NL.
Proof.
  intros Hvs. pose proof (header_empty p Hvs) as Hheader.
  assert (drop_last2 (header p)
          = "profile with 0 votes and " +:+ pretty (num_cand p) +:+ " candidates")
    as Hdrop.
  { rewrite Hheader, drop_last2_app by (simpl; lia).
    replace (drop_last2 (":" +:+ NL)) with "" by done.
    apply string_app_nil_r. }
  assert (str str_set_of_candidates p = drop_last2 (header p)) as Hstr.
  { unfold str, has_unit_weights. by rewrite Hvs. }
  assert (str_compact str_set_of_candidates p = drop_last2 (header p) +:+ NL) as Hcompact.
  { unfold str_compact, has_unit_weights, compact_of. by rewrite Hvs. }
  split; [done|]. split; [done|]. split; [by rewrite Hstr|].
  split; [done|]. by rewrite Hcompact, Hdrop.
Qed.

(** *** Objects: every insertion makes a new voter with a new set *)

Implicit Types (h : store PS) (self : ProfileObj).

Lemma Voter_new_Ok h la w h' lv :
  Voter_new h la w = (h', Ok lv) →
  ∃ raw, iterable_at h la = Some raw
         ∧ h' = h ++ [ObjSet (py_set raw); ObjVoter (length h) w]
         ∧ lv = S (length h)
         ∧ Voter_init raw w = Ok (mkVoter (py_set raw) w).
Proof.
  unfold Voter_new, alloc.
  destruct (iterable_at h la) as [raw|]; cbv beta iota zeta; [|done].
  destruct (Voter_init raw w) as [v|e] eqn:Hinit; cbv beta iota; [|done].
  intros [= <- <-]. exists raw. rewrite <-app_assoc, length_app. simpl.
  apply Voter_init_value in Hinit as Hv. subst v.
  repeat split; try done; lia.
Qed.

Lemma Voter_new_grows h la w : ∃ ext, (Voter_new h la w).1 = h ++ ext.
Proof.
  unfold Voter_new, alloc. destruct (iterable_at h la) as [raw|]; simpl.
  - exists [ObjSet (py_set raw); ObjVoter (length h) w].
    destruct (Voter_init raw w); simpl; by rewrite <-app_assoc.
  - exists []. by rewrite app_nil_r.
Qed.

Lemma unique_voter_ref_Ok h self voter h' self' lv :
  unique_voter_ref h self voter = (h', self', Ok lv) →
  ∃ s w, h' = h ++ [ObjSet s; ObjVoter (length h) w]
         ∧ lv = S (length h) ∧ self' = obj_clear_cache self.
Proof.
  unfold unique_voter_ref.
  destruct (match h !! voter with
            | Some (ObjVoter la w) => Voter_new h la w
            | _ => Voter_new h voter 1%Qc
            end) as [h1 [lv1|e]] eqn:Hnew; [|done].
  assert (∃ s w, h1 = h ++ [ObjSet s; ObjVoter (length h) w] ∧ lv1 = S (length h))
    as (s & w & -> & ->).
  { destruct (h !! voter) as [[| |la w]|];
      apply Voter_new_Ok in Hnew as (raw & _ & -> & -> & _); eauto. }
  destruct (voter_at _ _) as [v|]; [|done].
  destruct (check_valid _ _ _); [|done].
  intros [= <- <- <-]. eauto.
Qed.

Lemma unique_voter_ref_grows h self voter :
  (∃ ext, (unique_voter_ref h self voter).1.1 = h ++ ext)
  ∧ obj_voters (unique_voter_ref h self voter).1.2 = obj_voters self.
Proof.
  unfold unique_voter_ref.
  assert (∃ ext, (match h !! voter with
                  | Some (ObjVoter la w) => Voter_new h la w
                  | _ => Voter_new h voter 1%Qc
                  end).1 = h ++ ext) as [ext Hext].
  { destruct (h !! voter) as [[| |la w]|]; apply Voter_new_grows. }
  destruct (match h !! voter with
            | Some (ObjVoter la w) => Voter_new h la w
            | _ => Voter_new h voter 1%Qc
            end) as [h1 [lv1|e]]; simpl in Hext; subst h1.
  - destruct (voter_at _ _) as [v|]; [destruct (check_valid _ _ _)|]; simpl; eauto.
  - simpl. eauto.
Qed.

(** What a call of [add_voter] does to the store and to the voters. *)
Lemma add_voter_ref_cases h self voter :
  ∃ ext, (add_voter_ref h self voter).1.1 = h ++ ext
    ∧ (((add_voter_ref h self voter).2 = Ok ()
        ∧ (∃ s w, ext = [ObjSet s; ObjVoter (length h) w])
        ∧ obj_voters (add_voter_ref h self voter).1.2
          = obj_voters self ++ [S (length h)])
       ∨ ((∃ e, (add_voter_ref h self voter).2 = Err e)
          ∧ obj_voters (add_voter_ref h self voter).1.2 = obj_voters self)).
Proof.
  unfold add_voter_ref.
  pose proof (unique_voter_ref_Ok h self voter) as Hok.
  pose proof (unique_voter_ref_grows h self voter) as [[ext Hext] Hvs].
  destruct (unique_voter_ref h self voter) as [[h1 self1] [lv|e]]; simpl in *.
  - destruct (Hok _ _ _ eq_refl) as (s & w & -> & -> & ->).
    exists [ObjSet s; ObjVoter (length h) w].
    split; [done|]. left. split; [done|]. split; eauto.
  - exists ext. split; [done|]. right. split; eauto.
Qed.

Lemma setitem_ref_cases h self i voter :
  ∃ ext, (setitem_ref h self i voter).1.1 = h ++ ext
    ∧ (((setitem_ref h self i voter).2 = Ok ()
        ∧ (∃ s w, ext = [ObjSet s; ObjVoter (length h) w])
        ∧ ∃ k, (k < length (obj_voters self))%nat
               ∧ obj_voters (setitem_ref h self i voter).1.2
                 = <[k := S (length h)]> (obj_voters self))
       ∨ ((∃ e, (setitem_ref h self i voter).2 = Err e)
          ∧ obj_voters (setitem_ref h self i voter).1.2 = obj_voters self)).
Proof.
  unfold setitem_ref.
  pose proof (unique_voter_ref_Ok h self voter) as Hok.
  pose proof (unique_voter_ref_grows h self voter) as [[ext Hext] Hvs].
  destruct (unique_voter_ref h self voter) as [[h1 self1] [lv|e]]; simpl in *.
  - destruct (Hok _ _ _ eq_refl) as (s & w & -> & -> & ->). simpl.
    destruct (list_index (length (obj_voters self)) i) as [k|] eqn:Hk; simpl.
    + exists [ObjSet s; ObjVoter (length h) w].
      split; [done|]. left. split; [done|]. split; [eauto|].
      exists k. split; [|done]. unfold list_index in Hk.
      destruct (_ || _) eqn:Hb; [done|]. injection Hk as <-.
      destruct (i <? 0) eqn:Hi; lia.
    + exists [ObjSet s; ObjVoter (length h) w].
      split; [done|]. right. split; eauto.
  - exists ext. split; [done|]. right. split; eauto.
Qed.

Lemma approved_at_app h (ext : store PS) lv :
  (lv < length h)%nat → approved_at (h ++ ext) lv = approved_at h lv.
Proof. intros Hlv. unfold approved_at. by rewrite lookup_app_l. Qed.

Lemma distinct_voters_old h (vs : list loc) i lv :
  distinct_voters h vs → vs !! i = Some lv →
  ∃ ls w s, h !! lv = Some (ObjVoter ls w) ∧ h !! ls = Some (ObjSet s)
            ∧ (lv < length h)%nat ∧ (ls < length h)%nat
            ∧ approved_at h lv = Some ls.
Proof.
  intros [Hwf _] Hi. destruct (Hwf i lv Hi) as (ls & w & s & Hlv & Hls).
  exists ls, w, s. repeat split; [done|done|by eapply lookup_lt_Some..|].
  unfold approved_at. by rewrite Hlv.
Qed.

(** The new voter of an insertion, and its new set, next to the voters
    that were there. *)
Lemma distinct_voters_new h (vs vs' : list loc) s w k :
  distinct_voters h vs →
  (∀ i lv, vs' !! i = Some lv → (i = k ∧ lv = S (length h)) ∨ vs !! i = Some lv) →
  distinct_voters (h ++ [ObjSet s; ObjVoter (length h) w]) vs'.
Proof.
  intros Hinv Hvs'.
  set (h' := h ++ [ObjSet s; ObjVoter (length h) w]).
  assert (h' !! length h = Some (ObjSet s)) as Hset.
  { unfold h'. rewrite lookup_app_r by lia. by rewrite Nat.sub_diag. }
  assert (h' !! S (length h) = Some (ObjVoter (length h) w)) as Hvoter.
  { unfold h'. rewrite lookup_app_r by lia.
    by replace (S (length h) - length h)%nat with 1%nat by lia. }
  assert (approved_at h' (S (length h)) = Some (length h)) as Hnew.
  { unfold approved_at. by rewrite Hvoter. }
  assert (∀ i lv, vs !! i = Some lv →
            ∃ ls w0 s0, h' !! lv = Some (ObjVoter ls w0) ∧ h' !! ls = Some (ObjSet s0)
                        ∧ (lv < length h)%nat ∧ (ls < length h)%nat
                        ∧ approved_at h' lv = Some ls ∧ approved_at h lv = Some ls)
    as Hold.
  { intros i lv Hi.
    destruct (distinct_voters_old h vs i lv Hinv Hi) as (ls & w0 & s0 & ? & ? & ? & ? & ?).
    exists ls, w0, s0. unfold h'.
    rewrite approved_at_app, !lookup_app_l by done. done. }
  split.
  - intros i lv Hi. destruct (Hvs' i lv Hi) as [[_ ->]|Hi'].
    + by exists (length h), w, s.
    + destruct (Hold i lv Hi') as (ls & w0 & s0 & ? & ? & _). by exists ls, w0, s0.
  - intros i j lvi lvj Hij Hi Hj.
    destruct (Hvs' i lvi Hi) as [[-> ->]|Hi'], (Hvs' j lvj Hj) as [[-> ->]|Hj'].
    + done.
    + destruct (Hold j lvj Hj') as (ls & _ & _ & _ & _ & ? & ? & Hls & _).
      rewrite Hnew, Hls. split; [lia|]. intros [= ?]. lia.
    + destruct (Hold i lvi Hi') as (ls & _ & _ & _ & _ & ? & ? & Hls & _).
      rewrite Hnew, Hls. split; [lia|]. intros [= ?]. lia.
    + destruct (Hold i lvi Hi') as (lsi & _ & _ & _ & _ & _ & _ & -> & Hlsi).
      destruct (Hold j lvj Hj') as (lsj & _ & _ & _ & _ & _ & _ & -> & Hlsj).
      destruct Hinv as [_ Hdist]. rewrite <-Hlsi, <-Hlsj. by apply (Hdist i j).
Qed.

Lemma distinct_voters_grow h (vs : list loc) (ext : store PS) :
  distinct_voters h vs → distinct_voters (h ++ ext) vs.
Proof.
  intros Hinv. split.
  - intros i lv Hi.
    destruct (distinct_voters_old h vs i lv Hinv Hi) as (ls & w & s & ? & ? & _).
    exists ls, w, s. by rewrite !lookup_app_l by by eapply lookup_lt_Some.
  - intros i j lvi lvj Hij Hi Hj.
    destruct (distinct_voters_old h vs i lvi Hinv Hi) as (? & ? & ? & _ & _ & ? & _).
    destruct (distinct_voters_old h vs j lvj Hinv Hj) as (? & ? & ? & _ & _ & ? & _).
    rewrite !approved_at_app by done. destruct Hinv as [_ Hdist]. by apply (Hdist i j).
Qed.

Lemma voter_at_mutate h l o lv ls :
  approved_at h lv = Some ls → l ≠ lv → l ≠ ls →
  voter_at (<[l := o]> h) lv = voter_at h lv
  ∧ approved_at (<[l := o]> h) lv = Some ls.
Proof.
  unfold approved_at, voter_at. intros Hlv ? ?.
  rewrite !list_lookup_insert_ne by done.
  destruct (h !! lv) as [[| |ls' w]|]; try done.
  injection Hlv as ->. by rewrite list_lookup_insert_ne by done.
Qed.

Lemma distinct_voters_mutate h (vs : list loc) l o :
  distinct_voters h vs →
  (∀ lv, lv ∈ vs → l ≠ lv ∧ approved_at h lv ≠ Some l) →
  distinct_voters (<[l := o]> h) vs.
Proof.
  intros Hinv Hfree.
  assert (∀ i lv, vs !! i = Some lv →
            ∃ ls, approved_at h lv = Some ls ∧ l ≠ lv ∧ l ≠ ls) as Hold.
  { intros i lv Hi.
    destruct (distinct_voters_old h vs i lv Hinv Hi) as (ls & _ & _ & _ & _ & _ & _ & Hls).
    destruct (Hfree lv) as [? Hne]; [by eapply list_elem_of_lookup_2|].
    exists ls. repeat split; [done..|]. intros ->. by rewrite Hls in Hne. }
  split.
  - intros i lv Hi.
    destruct (distinct_voters_old h vs i lv Hinv Hi) as (ls & w & s & ? & ? & _ & _ & Hls).
    destruct (Hold i lv Hi) as (ls' & Hls' & ? & ?).
    assert (ls' = ls) as -> by congruence.
    exists ls, w, s. by rewrite !list_lookup_insert_ne by done.
  - intros i j lvi lvj Hij Hi Hj.
    destruct (Hold i lvi Hi) as (lsi & Hlsi & ? & ?).
    destruct (Hold j lvj Hj) as (lsj & Hlsj & ? & ?).
    destruct (voter_at_mutate h l o lvi lsi) as [_ ->]; [done..|].
    destruct (voter_at_mutate h l o lvj lsj) as [_ ->]; [done..|].
    rewrite <-Hlsi, <-Hlsj. destruct Hinv as [_ Hdist]. by apply (Hdist i j).
Qed.

Lemma add_voter_ref_distinct h self voter :
  distinct_voters h (obj_voters self) →
  distinct_voters (add_voter_ref h self voter).1.1
    (obj_voters (add_voter_ref h self voter).1.2).
Proof.
  intros Hinv.
  destruct (add_voter_ref_cases h self voter)
    as (ext & -> & [(_ & (s & w & ->) & ->)|(_ & ->)]).
  - apply distinct_voters_new with (obj_voters self) (length (obj_voters self)); [done|].
    intros i lv [?|[? Hi]]%lookup_app_Some; [by right|left].
    apply list_lookup_singleton_Some in Hi as [? <-]. split; [lia|done].
  - by apply distinct_voters_grow.
Qed.

Lemma add_voters_ref_distinct h self (voters : list loc) :
  distinct_voters h (obj_voters self) →
  distinct_voters (add_voters_ref h self voters).1.1
    (obj_voters (add_voters_ref h self voters).1.2).
Proof.
  revert h self. induction voters as [|voter voters IH]; intros h self Hinv; simpl; [done|].
  pose proof (add_voter_ref_distinct h self voter Hinv) as Hstep.
  destruct (add_voter_ref h self voter) as [[h1 self1] [[]|e]]; simpl in *;
    [by apply IH|done].
Qed.

Lemma setitem_ref_distinct h self i voter :
  distinct_voters h (obj_voters self) →
  distinct_voters (setitem_ref h self i voter).1.1
    (obj_voters (setitem_ref h self i voter).1.2).
Proof.
  intros Hinv.
  destruct (setitem_ref_cases h self i voter)
    as (ext & -> & [(_ & (s & w & ->) & (k & Hk & ->))|(_ & ->)]).
  - apply distinct_voters_new with (obj_voters self) k; [done|].
    intros j lv Hj. apply list_lookup_insert_Some in Hj as [(-> & <- & _)|[_ ?]]; tauto.
  - by apply distinct_voters_grow.
Qed.

Lemma reachable_ref_distinct h self :
  reachable_ref h self → distinct_voters h (obj_voters self).
Proof.
  induction 1 as [h cs names|h self voter _ IH|h self voters _ IH|h self i voter _ IH
                  |h self o _ IH|h self l o _ IH Hfree].
  - split; intros i; intros; simpl in *; by rewrite lookup_nil in *.
  - by apply add_voter_ref_distinct.
  - by apply add_voters_ref_distinct.
  - by apply setitem_ref_distinct.
  - by apply distinct_voters_grow.
  - apply distinct_voters_mutate; [done|].
    intros lv Hlv. split.
    + intros ->. apply Hfree. exists lv. tauto.
    + intros Hl. apply Hfree. exists lv. tauto.
Qed.

(** *** The store agrees with the values *)

Lemma voter_at_app h (ext : store PS) lv ls :
  approved_at h lv = Some ls → (ls < length h)%nat →
  voter_at (h ++ ext) lv = voter_at h lv.
Proof.
  unfold approved_at, voter_at. intros Hlv Hls.
  destruct (h !! lv) as [o|] eqn:Ho; [|done].
  rewrite (lookup_app_l_Some _ _ _ _ Ho).
  destruct o as [| |ls' w]; try done. injection Hlv as ->.
  by rewrite lookup_app_l.
Qed.

Lemma voters_at_app h (ext : store PS) (vs : list loc) :
  distinct_voters h vs → omap (voter_at (h ++ ext)) vs = omap (voter_at h) vs.
Proof.
  intros Hinv.
  assert (Forall (λ lv, voter_at (h ++ ext) lv = voter_at h lv) vs) as Hall.
  { apply Forall_lookup. intros i lv Hi.
    destruct (distinct_voters_old h vs i lv Hinv Hi) as (ls & _ & _ & _ & _ & _ & ? & ?).
    by apply voter_at_app with ls. }
  clear Hinv. induction Hall as [|lv vs Hlv _ IH]; csimpl; [done|]. by rewrite Hlv, IH.
Qed.

Lemma Voter_new_unfold h la w raw :
  iterable_at h la = Some raw →
  Voter_new h la w =
    (h ++ [ObjSet (py_set raw); ObjVoter (length h) w],
     match Voter_init raw w with
     | Ok _ => Ok (S (length h))
     | Err e => Err e
     end).
Proof.
  intros Hraw. unfold Voter_new, alloc. rewrite Hraw. cbv zeta.
  rewrite <-app_assoc, length_app. simpl.
  replace (length h + 1)%nat with (S (length h)) by lia.
  by destruct (Voter_init raw w).
Qed.

Lemma arg_of_Some h voter x :
  arg_of h voter = Some x →
  ∃ la, iterable_at h la = Some (arg_approved x)
        ∧ match h !! voter with
          | Some (ObjVoter approved_ref w) => Voter_new h approved_ref w
          | _ => Voter_new h voter 1%Qc
          end = Voter_new h la (arg_weight x).
Proof.
  unfold arg_of, iterable_at.
  destruct (h !! voter) as [[xs|s|la w]|] eqn:Hv; [| | |done].
  - intros [= <-]. exists voter. by rewrite Hv.
  - intros [= <-]. exists voter. by rewrite Hv.
  - destruct (h !! la) as [[| s|]|] eqn:Hla; try done.
    intros [= <-]. exists la. by rewrite Hla.
Qed.

(** On a store whose voters are well formed and an argument that is a
    [Voter] or an iterable, [add_voter] on objects does what [add_voter] on
    values does. *)
Lemma add_voter_ref_refines h self voter x :
  distinct_voters h (obj_voters self) →
  arg_of h voter = Some x →
  (add_voter (profile_of h self) x).2 = (add_voter_ref h self voter).2
  ∧ (add_voter (profile_of h self) x).1
    = profile_of (add_voter_ref h self voter).1.1 (add_voter_ref h self voter).1.2.
Proof.
  intros Hinv (la & Hraw & Hnew)%arg_of_Some.
  unfold add_voter_ref, unique_voter_ref. rewrite Hnew, (Voter_new_unfold _ _ _ _ Hraw).
  unfold add_voter. rewrite unique_voter_unfold.
  set (h' := h ++ [ObjSet (py_set (arg_approved x)); ObjVoter (length h) (arg_weight x)]).
  assert (omap (voter_at h') (obj_voters self) = omap (voter_at h) (obj_voters self))
    as Hold by by apply voters_at_app.
  assert (voter_at h' (S (length h)) = Some (stored_for x)) as Hv.
  { unfold voter_at, h'. rewrite lookup_app_r by lia.
    replace (S (length h) - length h)%nat with 1%nat by lia. simpl.
    rewrite lookup_app_r by lia. by rewrite Nat.sub_diag. }
  destruct (Voter_init (arg_approved x) (arg_weight x)) as [v|e] eqn:Hinit.
  - apply Voter_init_Ok in Hinit as (-> & _). rewrite Hv.
    change (num_cand (clear_cache (profile_of h self)))
      with (obj_num_cand (obj_clear_cache self)).
    unfold stored_for.
    destruct (check_valid _ (Finite _) None) as [[]|e]; simpl.
    + split; [done|]. unfold profile_of, set_voters; simpl.
      by rewrite omap_app, Hold; simpl; rewrite Hv.
    + split; [done|]. unfold profile_of, clear_cache; simpl. by rewrite Hold.
  - simpl. split; [done|]. unfold profile_of. by rewrite Hold.
Qed.

(** C9. An accepted [add_voter] or index assignment stores a new [Voter]
    object that refers to a new set object: neither existed before the
    call, so neither is the caller's collection or a [Voter] of the caller,
    the call leaves every earlier object as it was, and a later change of
    any earlier object leaves the stored voter and its set as they are. In
    every store that arises from such calls and from the caller's changes
    to its own objects, the stored voters are distinct objects and no two
    of them refer to the same set object. *)
Theorem insertion_stores_fresh_copies :
  (∀ h self voter,
     (add_voter_ref h self voter).2 = Ok () →
     ∃ lv ls v,
       obj_voters (add_voter_ref h self voter).1.2 = obj_voters self ++ [lv]
       ∧ approved_at (add_voter_ref h self voter).1.1 lv = Some ls
       ∧ voter_at (add_voter_ref h self voter).1.1 lv = Some v
       ∧ (length h ≤ lv)%nat ∧ (length h ≤ ls)%nat
       ∧ (∀ l, (l < length h)%nat → (add_voter_ref h self voter).1.1 !! l = h !! l)
       ∧ (∀ l o, (l < length h)%nat →
            voter_at (<[l := o]> (add_voter_ref h self voter).1.1) lv = Some v
            ∧ approved_at (<[l := o]> (add_voter_ref h self voter).1.1) lv = Some ls)
       ∧ (∀ x, distinct_voters h (obj_voters self) → arg_of h voter = Some x →
            v = stored_for x))
  ∧ (∀ h self i voter,
       (setitem_ref h self i voter).2 = Ok () →
       ∃ k lv ls v,
         obj_voters (setitem_ref h self i voter).1.2 = <[k := lv]> (obj_voters self)
         ∧ approved_at (setitem_ref h self i voter).1.1 lv = Some ls
         ∧ voter_at (setitem_ref h self i voter).1.1 lv = Some v
         ∧ (length h ≤ lv)%nat ∧ (length h ≤ ls)%nat
         ∧ (∀ l, (l < length h)%nat → (setitem_ref h self i voter).1.1 !! l = h !! l)
         ∧ (∀ l o, (l < length h)%nat →
              voter_at (<[l := o]> (setitem_ref h self i voter).1.1) lv = Some v
              ∧ approved_at (<[l := o]> (setitem_ref h self i voter).1.1) lv = Some ls))
  ∧ (∀ h self, reachable_ref h self → distinct_voters h (obj_voters self))
  ∧ (∀ h self l o lv,
       reachable_ref h self → ¬ owned h self l → lv ∈ obj_voters self →
       voter_at (<[l := o]> h) lv = voter_at h lv).
Proof.
  assert (∀ h s w,
            let h' := h ++ [ObjSet s; ObjVoter (length h) w] in
            approved_at h' (S (length h)) = Some (length h)
            ∧ voter_at h' (S (length h)) = Some (mkVoter s w)
            ∧ (∀ l, (l < length h)%nat → h' !! l = h !! l)
            ∧ (∀ l o, (l < length h)%nat →
                 voter_at (<[l := o]> h') (S (length h)) = Some (mkVoter s w)
                 ∧ approved_at (<[l := o]> h') (S (length h)) = Some (length h)))
    as Hfresh.
  { intros h s w h'.
    assert (h' !! length h = Some (ObjSet s)) as Hset.
    { unfold h'. rewrite lookup_app_r by lia. by rewrite Nat.sub_diag. }
    assert (h' !! S (length h) = Some (ObjVoter (length h) w)) as Hvoter.
    { unfold h'. rewrite lookup_app_r by lia.
      by replace (S (length h) - length h)%nat with 1%nat by lia. }
    assert (approved_at h' (S (length h)) = Some (length h)) as Hap
      by (unfold approved_at; by rewrite Hvoter).
    assert (voter_at h' (S (length h)) = Some (mkVoter s w)) as Hat
      by (unfold voter_at; by rewrite Hvoter, Hset).
    split; [done|]. split; [done|]. split.
    - intros l Hl. unfold h'. by rewrite lookup_app_l.
    - intros l o Hl.
      destruct (voter_at_mutate h' l o (S (length h)) (length h)) as [-> ->];
        [done|lia|lia|done]. }
  split; [|split; [|split]].
  - intros h self voter Hok.
    destruct (add_voter_ref_cases h self voter)
      as (ext & Hh' & [(_ & (s & w & ->) & Hvs)|([e He] & _)]); [|congruence].
    destruct (Hfresh h s w) as (Hap & Hat & Hsame & Hmut).
    exists (S (length h)), (length h), (mkVoter s w). rewrite Hh', Hvs.
    repeat split; try done; try lia; try apply Hmut; try done.
    intros x Hinv Hx.
    destruct (add_voter_ref_refines h self voter x Hinv Hx) as [Hr Hp].
    assert (_voters (add_voter (profile_of h self) x).1
            = _voters (profile_of h self) ++ [mkVoter s w]) as Hmine.
    { rewrite Hp. unfold profile_of. cbn [_voters].
      rewrite Hh', Hvs, omap_app, voters_at_app by done. csimpl. by rewrite Hat. }
    assert (add_voter (profile_of h self) x
            = ((add_voter (profile_of h self) x).1, Ok ())) as Hpair.
    { rewrite <-Hok, <-Hr. apply surjective_pairing. }
    apply add_voter_Ok_stored in Hpair. rewrite Hpair in Hmine. simpl in Hmine.
    apply app_inv_head in Hmine. congruence.
  - intros h self i voter Hok.
    destruct (setitem_ref_cases h self i voter)
      as (ext & Hh' & [(_ & (s & w & ->) & (k & _ & Hvs))|([e He] & _)]); [|congruence].
    destruct (Hfresh h s w) as (Hap & Hat & Hsame & Hmut).
    exists k, (S (length h)), (length h), (mkVoter s w). rewrite Hh', Hvs.
    repeat split; try done; try lia; apply Hmut; done.
  - apply reachable_ref_distinct.
  - intros h self l o lv Hreach Hfree Hlv.
    apply reachable_ref_distinct in Hreach.
    apply list_elem_of_lookup in Hlv as [i Hi].
    destruct (distinct_voters_old h _ i lv Hreach Hi) as (ls & _ & _ & _ & _ & _ & _ & Hls).
    apply (voter_at_mutate h l o lv ls); [done| |].
    + intros ->. apply Hfree. exists lv. split; [by eapply list_elem_of_lookup_2|tauto].
    + intros ->. apply Hfree. exists lv. split; [by eapply list_elem_of_lookup_2|tauto].
Qed.

(** *** The groups of [str_compact] *)

Lemma sum_weights_app (l1 l2 : list (Voter PS)) :
  sum_weights (l1 ++ l2) = (sum_weights l1 + sum_weights l2)%Qc.
Proof.
  induction l1 as [|v l1 IH]; simpl.
  - by rewrite Qcplus_0_l.
  - unfold sum_weights in *. simpl. by rewrite IH, Qcplus_assoc.
Qed.

Lemma od_accumulate_fmap (ks : list (list candidate)) (f : list candidate → Qc) k w :
  NoDup (tuple_key <$> ks) →
  od_accumulate ((λ k', (k', f k')) <$> ks) k w =
    if decide (tuple_key k ∈ tuple_key <$> ks)
    then (λ k', (k', if decide (tuple_key k' = tuple_key k) then (f k' + w)%Qc
                      else f k')) <$> ks
    else ((λ k', (k', f k')) <$> ks) ++ [(k, w)].
Proof.
  induction ks as [|k0 ks IH]; [done|].
  rewrite !fmap_cons, NoDup_cons. intros [Hk0 Hnd]. cbn [od_accumulate].
  destruct (decide (tuple_key k0 = tuple_key k)) as [E|Hne].
  - rewrite (decide_True (P := tuple_key k ∈ tuple_key k0 :: (tuple_key <$> ks)))
      by (rewrite E; left).
    f_equal. apply list_fmap_ext. intros i k' Hk'.
    rewrite decide_False; [done|]. intros E'.
    apply Hk0. rewrite E, <-E'. eapply list_elem_of_fmap_2, list_elem_of_lookup_2, Hk'.
  - rewrite (IH Hnd). destruct (decide (tuple_key k ∈ tuple_key <$> ks)) as [Hin|Hnin].
    + by rewrite decide_True by by right.
    + by rewrite decide_False by (rewrite elem_of_cons; intros [?|?]; congruence).
Qed.

Lemma compact_of_snoc (vs : list (Voter PS)) v :
  compact_of (vs ++ [v]) = od_accumulate (compact_of vs) (voter_key v) (weight v).
Proof. unfold compact_of. by rewrite foldl_app. Qed.

Lemma filter_key_absent (vs : list (Voter PS)) k :
  tuple_key k ∉ tuple_key <$> (voter_key <$> vs) →
  filter (λ v, tuple_key (voter_key v) = tuple_key k) vs = [].
Proof.
  intros Hk. induction vs as [|v vs IH]; [done|].
  rewrite !fmap_cons, not_elem_of_cons in Hk. destruct Hk as [? ?].
  rewrite filter_cons_False by congruence. by apply IH.
Qed.

(** [str_compact] builds one entry for each distinct key
    [tuple(voter.approved)], in the order in which the keys first occur
    among the voters, and the entry holds the sum of the weights of the
    voters with that key. *)
Lemma compact_of_groups (vs : list (Voter PS)) : compact_of vs = groups vs.
Proof.
  induction vs as [|v vs IH] using rev_ind; [done|].
  rewrite compact_of_snoc, IH. unfold groups.
  rewrite od_accumulate_fmap by apply NoDup_nub_by.
  rewrite fmap_app. simpl. rewrite nub_by_snoc.
  assert (∀ k', sum_weights
                  (filter (λ v0, tuple_key (voter_key v0) = tuple_key k') (vs ++ [v]))
                = if decide (tuple_key k' = tuple_key (voter_key v))
                  then (sum_weights
                          (filter (λ v0, tuple_key (voter_key v0) = tuple_key k') vs)
                        + weight v)%Qc
                  else sum_weights
                         (filter (λ v0, tuple_key (voter_key v0) = tuple_key k') vs))
    as Hsum.
  { intros k'. rewrite filter_app, sum_weights_app.
    destruct (decide (tuple_key k' = tuple_key (voter_key v))) as [E|Hne].
    - rewrite filter_cons_True, filter_nil by done.
      unfold sum_weights at 2. simpl. by rewrite Qcplus_0_r.
    - rewrite filter_cons_False, filter_nil by congruence.
      unfold sum_weights at 2. simpl. by rewrite Qcplus_0_r. }
  destruct (decide (tuple_key (voter_key v) ∈ tuple_key <$> (voter_key <$> vs)))
    as [Hin|Hnin].
  - rewrite decide_True by by apply elem_of_nub_by_key.
    apply list_fmap_ext. intros i k' _. by rewrite Hsum.
  - rewrite decide_False by by rewrite elem_of_nub_by_key.
    rewrite fmap_app. simpl. f_equal.
    + apply list_fmap_ext. intros i k' Hk'. rewrite Hsum.
      rewrite decide_False; [done|]. intros E.
      apply Hnin. rewrite <-E, <-(elem_of_nub_by_key tuple_key).
      eapply list_elem_of_fmap_2, list_elem_of_lookup_2, Hk'.
    + rewrite Hsum, decide_True by done.
      rewrite filter_key_absent by done.
      unfold sum_weights. simpl. by rewrite Qcplus_0_l.
Qed.

Lemma set_iter_singleton s c : set_is s [c] → set_iter s = [c].
Proof.
  intros Hs. apply Permutation_singleton_r, NoDup_Permutation;
    [apply set_iter_NoDup_members|apply NoDup_singleton|apply Hs].
Qed.

(** Unit-weight voters with the approval sets {0}, {0}, {1}: [str_compact]
    prints the header, then the group of {0} with weight 2, then the group
    of {1} with weight 1, and no line for the total weight. *)
Lemma str_compact_example p v1 v2 v3 :
  _voters p = [v1; v2; v3] →
  set_is (approved v1) (ints [0]) → set_is (approved v2) (ints [0]) →
  set_is (approved v3) (ints [1]) →
  weight v1 = 1%Qc → weight v2 = 1%Qc → weight v3 = 1%Qc →
  str_compact str_set_of_candidates p
  = header p
      +:+ " 2 x " +:+ str_set_of_candidates (ints [0]) (cand_names p) +:+ "," +:+ NL
      +:+ " 1 x " +:+ str_set_of_candidates (ints [1]) (cand_names p) +:+ NL.
Proof.
  intros Hvs H1%set_iter_singleton H2%set_iter_singleton H3%set_iter_singleton
    Hw1 Hw2 Hw3.
  unfold str_compact, has_unit_weights, compact_of. rewrite Hvs. cbn [foldl forallb].
  rewrite H1, H2, H3, Hw1, Hw2, Hw3.
  replace (bool_decide (1%Qc = 1%Qc)) with true by done.
  cbn [od_accumulate andb negb].
  rewrite (decide_True (P := [CInt 0] = [CInt 0])) by done.
  cbn [od_accumulate].
  rewrite (decide_False (P := [CInt 0] = [CInt 1])) by done.
  cbn [od_accumulate foldl fst snd].
  replace (str_weight (1 + 1)%Qc) with "2" by (by vm_compute).
  replace (str_weight 1%Qc) with "1" by (by vm_compute).
  change (String.append "" (header p)) with (header p).
  rewrite !string_app_assoc.
  repeat (rewrite drop_last2_app by (rewrite ?string_length_app; simpl; lia)).
  change (drop_last2 ("," +:+ NL)) with "".
  rewrite string_app_nil_r, !string_app_assoc. reflexivity.
Qed.

End Properties.

(** * Further properties of the module *)

Section MoreProperties.
Context {PS : Type} `{PySetLaws PS}.

Implicit Types (p q : Profile PS) (v u : Voter PS) (x : voter_arg PS)
  (raw : iterable PS) (c : candidate).

Variable str_set_of_candidates : list candidate → list string → string.

(** *** Weights *)

Lemma foldl_weights (vs : list (Voter PS)) (a : Qc) :
  foldl (λ acc voter, (acc + weight voter)%Qc) a vs = (a + sum_weights vs)%Qc.
Proof.
  revert a. induction vs as [|v vs IH]; intros a; simpl.
  - unfold sum_weights. simpl. by rewrite Qcplus_0_r.
  - rewrite IH. unfold sum_weights. simpl. by rewrite Qcplus_assoc.
Qed.

Lemma totalweight_sum p : totalweight p = sum_weights (_voters p).
Proof. unfold totalweight. by rewrite foldl_weights, Qcplus_0_l. Qed.

Lemma sum_weights_nonneg (vs : list (Voter PS)) :
  Forall (λ v, (0 < weight v)%Qc) vs → (0 ≤ sum_weights vs)%Qc.
Proof.
  induction 1 as [|v vs Hv _ IH]; unfold sum_weights in *; simpl; [done|].
  apply Qcplus_nonneg_nonneg; [by apply Qclt_le_weak|done].
Qed.

(** X1. [totalweight()] of a profile built through the constructor and the
    mutating methods is 0 when the profile has no voters and positive when it
    has one. *)
Theorem totalweight_sign p :
  reachable p →
  (_voters p = [] → totalweight p = 0%Qc)
  ∧ (_voters p ≠ [] → (0 < totalweight p)%Qc).
Proof.
  intros Hreach. apply reachable_inv in Hreach as [_ Hvalid _ _ _].
  rewrite totalweight_sum. split.
  - by intros ->.
  - intros Hne.
    assert (Forall (λ v, (0 < weight v)%Qc) (_voters p)) as Hpos.
    { eapply Forall_impl; [exact Hvalid|]. by intros v [_ ?]. }
    destruct Hpos as [|v vs Hv Hvs]; [done|].
    unfold sum_weights. simpl.
    apply Qcplus_pos_nonneg; [done|by apply sum_weights_nonneg].
Qed.

Lemma Qc_of_Z_succ (n : nat) :
  Qc_of_Z (Z.of_nat (S n)) = (1 + Qc_of_Z (Z.of_nat n))%Qc.
Proof.
  apply Qc_is_canon. unfold Qc_of_Z. simpl.
  rewrite Qred_correct. unfold Qeq, Qplus. simpl. lia.
Qed.

(** X2. When all weights are 1, [totalweight()] is the number of voters. *)
Theorem totalweight_of_unit_weights p :
  has_unit_weights p = true → totalweight p = Qc_of_Z (Z.of_nat (len p)).
Proof.
  rewrite totalweight_sum. unfold has_unit_weights, len.
  induction (_voters p) as [|v vs IH]; simpl.
  - intros _. by apply Qc_is_canon.
  - intros [Hv Hvs]%andb_true_iff. apply bool_decide_eq_true in Hv.
    rewrite Qc_of_Z_succ, <-(IH Hvs). unfold sum_weights. simpl. by rewrite Hv.
Qed.

(** *** Indices *)

Lemma list_index_spec (n : nat) (i : Z) (k : nat) :
  list_index n i = Some k
  ↔ (0 ≤ i < Z.of_nat n ∧ k = Z.to_nat i)
    ∨ (- Z.of_nat n ≤ i < 0 ∧ k = Z.to_nat (i + Z.of_nat n)).
Proof.
  unfold list_index. destruct (i <? 0) eqn:Hi.
  - destruct (_ || _) eqn:Hb; split; try done.
    + intros [[? _]|[? _]]; lia.
    + intros [= <-]. right. split; [lia|done].
    + intros [[? _]|[? ->]]; [lia|done].
  - destruct (_ || _) eqn:Hb; split; try done.
    + intros [[? _]|[? _]]; lia.
    + intros [= <-]. left. split; [lia|done].
    + intros [[? ->]|[? _]]; [done|lia].
Qed.

Lemma list_index_None (n : nat) (i : Z) :
  list_index n i = None ↔ i < - Z.of_nat n ∨ Z.of_nat n ≤ i.
Proof.
  unfold list_index. destruct (i <? 0) eqn:Hi; destruct (_ || _) eqn:Hb; split;
    try done; try lia.
Qed.

Lemma getitem_at p i k v :
  list_index (len p) i = Some k → _voters p !! k = Some v → getitem p i = Ok v.
Proof. intros Hk Hv. unfold getitem. by rewrite Hk, Hv. Qed.

(** X3. [profile[i]] with [0 <= i < len(profile)] is the voter at position
    [i], and [profile[i - len(profile)]] is the same voter; an index below
    [-len(profile)] or from [len(profile)] on raises IndexError; whatever
    [profile[i]] returns is one of the stored voters. *)
Theorem getitem_bounds p i :
  (∀ v, 0 ≤ i → _voters p !! Z.to_nat i = Some v →
     getitem p i = Ok v ∧ getitem p (i - Z.of_nat (len p)) = Ok v)
  ∧ (i < - Z.of_nat (len p) ∨ Z.of_nat (len p) ≤ i → getitem p i = Err IndexOutOfRange)
  ∧ (∀ v, getitem p i = Ok v →
       v ∈ _voters p ∧ - Z.of_nat (len p) ≤ i < Z.of_nat (len p)).
Proof.
  split; [|split].
  - intros v Hi Hv. pose proof (lookup_lt_Some _ _ _ Hv) as Hlt. fold (len p) in Hlt.
    split; apply getitem_at with (Z.to_nat i); try done; apply list_index_spec.
    + left. split; [lia|done].
    + right. split; [lia|]. f_equal. lia.
  - intros Hout. unfold getitem. by rewrite (proj2 (list_index_None _ _) Hout).
  - intros v. unfold getitem.
    destruct (list_index (len p) i) as [k|] eqn:Hk; [|done].
    destruct (_voters p !! k) as [v'|] eqn:Hv; [|done]. intros [= <-].
    split; [by eapply list_elem_of_lookup_2|].
    apply list_index_spec in Hk as [[? _]|[? _]]; lia.
Qed.

(** X4. An accepted [add_voter] appends the voter made of its argument and
    nothing else: the number of voters grows by 1, the new voter is read back
    at the index [len] of before and at -1, the voters at the earlier indices
    are the ones of before, and [totalweight()] grows by the new weight. *)
Theorem add_voter_appends p x :
  (add_voter p x).2 = Ok () →
  _voters (add_voter p x).1 = _voters p ++ [stored_for x]
  ∧ len (add_voter p x).1 = S (len p)
  ∧ getitem (add_voter p x).1 (Z.of_nat (len p)) = Ok (stored_for x)
  ∧ getitem (add_voter p x).1 (-1) = Ok (stored_for x)
  ∧ (∀ i, 0 ≤ i < Z.of_nat (len p) → getitem (add_voter p x).1 i = getitem p i)
  ∧ totalweight (add_voter p x).1 = (totalweight p + arg_weight x)%Qc.
Proof.
  intros Hok.
  assert (add_voter p x = ((add_voter p x).1, Ok ())) as Hpair
    by (rewrite <-Hok; apply surjective_pairing).
  apply add_voter_Ok_stored in Hpair.
  assert (_voters (add_voter p x).1 = _voters p ++ [stored_for x]) as Hvs
    by by rewrite Hpair.
  assert (len (add_voter p x).1 = S (len p)) as Hlen.
  { unfold len. rewrite Hvs, length_app. simpl. lia. }
  assert (_voters (add_voter p x).1 !! len p = Some (stored_for x)) as Hlast.
  { rewrite Hvs. unfold len. by rewrite lookup_app_r, Nat.sub_diag by lia. }
  split; [done|]. split; [done|]. split; [|split; [|split]].
  - apply getitem_at with (len p); [|done]. apply list_index_spec. left.
    rewrite Hlen. split; [lia|by rewrite Nat2Z.id].
  - apply getitem_at with (len p); [|done]. apply list_index_spec. right.
    rewrite Hlen. split; [lia|]. lia.
  - intros i Hi. unfold getitem.
    rewrite (proj2 (list_index_spec (len (add_voter p x).1) i (Z.to_nat i)))
      by (left; rewrite Hlen; split; [lia|done]).
    rewrite (proj2 (list_index_spec (len p) i (Z.to_nat i))) by (left; split; [lia|done]).
    rewrite Hvs, lookup_app_l; [done|]. unfold len in Hi. lia.
  - rewrite !totalweight_sum, Hvs, sum_weights_app. unfold sum_weights at 2. simpl.
    by rewrite Qcplus_0_r.
Qed.

(** X5. An accepted [profile[i] = voter] replaces the voter at the position
    that [i] names, by the voter made of the argument: that voter is read
    back at [i], the number of voters is the one of before, and every other
    position reads as before. *)
Theorem setitem_replaces p i x :
  (setitem p i x).2 = Ok () →
  ∃ k, list_index (len p) i = Some k
       ∧ _voters (setitem p i x).1 = <[k := stored_for x]> (_voters p)
       ∧ len (setitem p i x).1 = len p
       ∧ getitem (setitem p i x).1 i = Ok (stored_for x)
       ∧ ∀ j k', list_index (len p) j = Some k' → k' ≠ k →
           getitem (setitem p i x).1 j = getitem p j.
Proof.
  intros Hok.
  destruct (setitem_cases p i x) as [(v & k & _ & Hv & Hk & Hp')|(e & He & _)];
    [|congruence].
  apply unique_voter_Ok in Hv as (_ & -> & _). fold (stored_for x) in Hp'.
  assert (_voters (setitem p i x).1 = <[k := stored_for x]> (_voters p)) as Hvs
    by by rewrite Hp'.
  assert (len (setitem p i x).1 = len p) as Hlen.
  { unfold len. rewrite Hvs. apply length_insert. }
  exists k. split; [done|]. split; [done|]. split; [done|]. split.
  - unfold getitem. rewrite Hlen, Hk, Hvs.
    rewrite list_lookup_insert_eq; [done|]. by apply list_index_Some in Hk.
  - intros j k' Hj Hne. unfold getitem. rewrite Hlen, Hj, Hvs.
    by rewrite list_lookup_insert_ne.
Qed.

(** X6. [profile[i] = voter] validates the voter before it looks at the
    index: a rejected voter raises its validation error whatever [i] is; an
    accepted voter with [i] below [-len(profile)] or from [len(profile)] on
    raises IndexError; whenever the assignment raises, the voters are the
    ones of before; and on a profile without voters it always raises. *)
Theorem setitem_errors p i x :
  (∀ e, (_unique_voter p x).2 = Err e → (setitem p i x).2 = Err e)
  ∧ (∀ v, (_unique_voter p x).2 = Ok v →
       i < - Z.of_nat (len p) ∨ Z.of_nat (len p) ≤ i →
       (setitem p i x).2 = Err IndexOutOfRange)
  ∧ (∀ e, (setitem p i x).2 = Err e → _voters (setitem p i x).1 = _voters p)
  ∧ (_voters p = [] → ∃ e, (setitem p i x).2 = Err e).
Proof.
  assert (∀ e, (setitem p i x).2 = Err e → _voters (setitem p i x).1 = _voters p)
    as Hsame.
  { intros e He.
    destruct (setitem_cases p i x) as [(v & k & Hok & _)|(e' & _ & [->| ->])];
      [congruence|done|done]. }
  split; [|split; [|split; [done|]]].
  - intros e He. unfold setitem.
    destruct (_unique_voter p x) as [p' [v|e']]; simpl in *; [done|congruence].
  - intros v Hv Hout. unfold setitem.
    pose proof (unique_voter_Ok p x v Hv) as (Hp' & _).
    destruct (_unique_voter p x) as [p' [v'|e']]; simpl in *; [|done]. subst p'.
    replace (len (clear_cache p)) with (len p) by done.
    by rewrite (proj2 (list_index_None _ _) Hout).
  - intros Hvs. destruct (setitem p i x).2 as [[]|e] eqn:Hr; [|by exists e].
    destruct (setitem_cases p i x) as [(v & k & _ & _ & Hk & _)|(e & He & _)];
      [|congruence].
    apply list_index_Some in Hk. unfold len in Hk. rewrite Hvs in Hk. simpl in Hk. lia.
Qed.

(** *** What the mutating methods leave alone *)

Lemma unique_voter_frame p x :
  candidates (_unique_voter p x).1 = candidates p
  ∧ cand_names (_unique_voter p x).1 = cand_names p
  ∧ _voters (_unique_voter p x).1 = _voters p.
Proof. by destruct (unique_voter_state p x) as [->| ->]. Qed.

Lemma add_voter_frame p x :
  candidates (add_voter p x).1 = candidates p
  ∧ cand_names (add_voter p x).1 = cand_names p.
Proof.
  by destruct (add_voter_cases p x) as [(v & _ & _ & ->)|(e & _ & [->| ->])].
Qed.

Lemma add_voters_frame p (xs : list (voter_arg PS)) :
  candidates (add_voters p xs).1 = candidates p
  ∧ cand_names (add_voters p xs).1 = cand_names p.
Proof.
  revert p. induction xs as [|y xs IH]; intros p; simpl; [done|].
  pose proof (add_voter_frame p y) as [Hc Hn].
  destruct (add_voter p y) as [p' [[]|e]]; simpl in *; [|done].
  destruct (IH p') as [-> ->]. done.
Qed.

Lemma setitem_frame p i x :
  candidates (setitem p i x).1 = candidates p
  ∧ cand_names (setitem p i x).1 = cand_names p.
Proof.
  by destruct (setitem_cases p i x) as [(v & k & _ & _ & _ & ->)|(e & _ & [->| ->])].
Qed.

(** X7. [add_voter], [add_voters] and index assignment never change
    [candidates], [cand_names] or [num_cand], whether they return or raise;
    so in every profile built through the constructor and these methods,
    [num_cand] is positive, [candidates] is [0, ..., num_cand - 1], there is
    one name for each candidate and the field [_approved_candidates] is
    [None]. *)
Theorem candidates_are_fixed :
  (∀ p x, candidates (add_voter p x).1 = candidates p
          ∧ cand_names (add_voter p x).1 = cand_names p
          ∧ num_cand (add_voter p x).1 = num_cand p)
  ∧ (∀ p (xs : list (voter_arg PS)),
       candidates (add_voters p xs).1 = candidates p
       ∧ cand_names (add_voters p xs).1 = cand_names p
       ∧ num_cand (add_voters p xs).1 = num_cand p)
  ∧ (∀ p i x, candidates (setitem p i x).1 = candidates p
              ∧ cand_names (setitem p i x).1 = cand_names p
              ∧ num_cand (setitem p i x).1 = num_cand p)
  ∧ (∀ p, reachable p →
       0 < num_cand p
       ∧ candidates p = range (num_cand p)
       ∧ Z.of_nat (length (cand_names p)) = num_cand p
       ∧ _approved_candidates p = None).
Proof.
  split; [|split; [|split]].
  - intros p x. destruct (add_voter_frame p x) as [Hc Hn].
    unfold num_cand. by rewrite Hc, Hn.
  - intros p xs. destruct (add_voters_frame p xs) as [Hc Hn].
    unfold num_cand. by rewrite Hc, Hn.
  - intros p i x. destruct (setitem_frame p i x) as [Hc Hn].
    unfold num_cand. by rewrite Hc, Hn.
  - intros p [Hnone _ Hpos Hcand Hnames]%reachable_inv.
    repeat split; try done. unfold num_cand. by rewrite Hnames.
Qed.

(** *** Validation again *)

(** X8. A voter that [check_valid] accepts for [n] candidates is accepted
    for every larger number of candidates, and without a number of
    candidates. *)
Theorem check_valid_monotone v (n m : Z) :
  n ≤ m →
  check_valid v (Finite n) None = Ok () →
  check_valid v (Finite m) None = Ok () ∧ check_valid v Infinity None = Ok ().
Proof.
  intros Hnm. rewrite !check_valid_None_Ok. intros [Hall Hw].
  split; (split; [|done]); eapply Forall_impl; try exact Hall.
  - intros c (z & -> & ? & Hz). exists z. split; [done|]. split; [done|].
    simpl in *. lia.
  - intros c (z & -> & ? & _). by exists z.
Qed.

Lemma valid_voter_mono (n m : Z) v : n ≤ m → valid_voter n v → valid_voter m v.
Proof.
  intros Hnm [Hall Hw]. split; [|done].
  intros c Hc. destruct (Hall c Hc) as (z & -> & ?). exists z. split; [done|lia].
Qed.

Lemma add_voter_copy p v :
  valid_voter (num_cand p) v →
  add_voter p (ArgVoter v)
  = (set_voters (clear_cache p) (_voters p ++ [mkVoter (set_copy (approved v)) (weight v)]),
     Ok ()).
Proof.
  intros [Hall Hw]. apply (add_voter_success p (ArgVoter v)); simpl; [done| |done|done].
  apply set_iter_NoDup_members.
Qed.

Lemma add_voters_copies q (vs : list (Voter PS)) :
  Forall (valid_voter (num_cand q)) vs →
  add_voters q (ArgVoter <$> vs)
  = (set_voters (clear_cache q)
       (_voters q ++ ((λ v, mkVoter (set_copy (approved v)) (weight v)) <$> vs)), Ok ())
    ∨ vs = [] ∧ add_voters q (ArgVoter <$> vs) = (q, Ok ()).
Proof.
  revert q. induction vs as [|v vs IH]; intros q Hall; [by right|]. left.
  apply Forall_cons in Hall as [Hv Hvs].
  rewrite !fmap_cons. cbn [add_voters]. rewrite (add_voter_copy q v Hv). cbv beta iota.
  destruct (IH (set_voters (clear_cache q)
                  (_voters q ++ [mkVoter (set_copy (approved v)) (weight v)])) Hvs)
    as [->|[-> ->]].
  - unfold set_voters, clear_cache. cbn [candidates cand_names _voters]. 
    by rewrite <-app_assoc.
  - done.
Qed.

(** X9. The voters of a profile built through the constructor and the
    mutating methods can be copied into any profile with at least as many
    candidates: [add_voters] with these [Voter] objects accepts all of them
    and appends, in order, voters with the same members and the same weights. *)
Theorem stored_voters_can_be_copied p q :
  reachable p → num_cand p ≤ num_cand q →
  (add_voters q (ArgVoter <$> _voters p)).2 = Ok ()
  ∧ _voters (add_voters q (ArgVoter <$> _voters p)).1
    = _voters q ++ ((λ v, mkVoter (set_copy (approved v)) (weight v)) <$> _voters p)
  ∧ ∀ v, v ∈ _voters p →
      same_set (set_copy (approved v)) (approved v)
      ∧ set_is (set_copy (approved v)) (set_iter (approved v)).
Proof.
  intros Hreach Hle. apply reachable_inv in Hreach as [_ Hvalid _ _ _].
  assert (Forall (valid_voter (num_cand q)) (_voters p)) as Hq.
  { eapply Forall_impl; [exact Hvalid|]. intros v. by apply valid_voter_mono. }
  split; [|split].
  - by destruct (add_voters_copies q (_voters p) Hq) as [->|[_ ->]].
  - destruct (add_voters_copies q (_voters p) Hq) as [->|[-> ->]]; [done|].
    simpl. by rewrite app_nil_r.
  - intros v _. split; intros c; [apply set_has_copy|apply elem_of_set_copy].
Qed.

(** *** The approved candidates again *)

(** X10. On a profile built through the constructor and the mutating
    methods, every member of [approved_candidates] is one of [candidates],
    and there are at most [num_cand] of them. *)
Theorem approved_candidates_within_candidates p (s : PS) :
  reachable p → approved_candidates p = Ok s →
  (∀ c, c ∈ set_iter s → ∃ z, c = CInt z ∧ z ∈ candidates p)
  ∧ Z.of_nat (set_len s) ≤ num_cand p.
Proof.
  intros Hreach Hs. apply reachable_inv in Hreach as Hinv.
  destruct (approved_candidates_union p Hinv) as (s' & Hs' & Hin).
  destruct Hinv as [Hnone Hvalid Hpos Hcand _].
  assert (s' = s) as -> by congruence.
  assert (∀ c, c ∈ set_iter s → ∃ z, c = CInt z ∧ z ∈ candidates p) as Hmem.
  { intros c (v & Hv & Hc)%Hin. rewrite Forall_forall in Hvalid.
    destruct (Hvalid v Hv) as [Hall _]. destruct (Hall c Hc) as (z & -> & Hz).
    exists z. split; [done|]. rewrite Hcand. unfold range. apply elem_of_seqZ. lia. }
  split; [done|].
  assert (set_iter s ⊆+ CInt <$> candidates p) as Hsub.
  { apply NoDup_submseteq; [apply set_iter_NoDup_members|].
    intros c (z & -> & Hz)%Hmem. apply list_elem_of_fmap. by exists z. }
  apply submseteq_length in Hsub. rewrite length_fmap in Hsub.
  unfold set_len, num_cand. lia.
Qed.

(** *** What decides acceptance *)

Lemma add_voter_result p q x :
  num_cand p = num_cand q → (add_voter p x).2 = (add_voter q x).2.
Proof.
  intros Hn. unfold add_voter. rewrite !unique_voter_unfold.
  destruct (Voter_init _ _) as [v|e]; [|done].
  change (num_cand (clear_cache p)) with (num_cand p).
  change (num_cand (clear_cache q)) with (num_cand q). rewrite Hn.
  by destruct (check_valid _ _ _).
Qed.

Lemma add_voter_num_cand p x : num_cand (add_voter p x).1 = num_cand p.
Proof. destruct (add_voter_frame p x) as [Hc _]. unfold num_cand. by rewrite Hc. Qed.

(** X11. Whether [add_voter] accepts its argument, and which error it
    raises, depends on the argument and on [num_cand] only, not on the voters
    that the profile holds; so [add_voters] accepts a sequence exactly when
    [add_voter] accepts each of its elements on the profile as it is. *)
Theorem acceptance_depends_on_num_cand :
  (∀ p q x, num_cand p = num_cand q → (add_voter p x).2 = (add_voter q x).2)
  ∧ (∀ p (xs : list (voter_arg PS)),
       (add_voters p xs).2 = Ok () ↔ Forall (λ x, (add_voter p x).2 = Ok ()) xs).
Proof.
  split; [apply add_voter_result|].
  intros p xs. revert p. induction xs as [|y xs IH]; intros p; simpl.
  - split; [constructor|done].
  - rewrite Forall_cons. pose proof (add_voter_num_cand p y) as Hn.
    destruct (add_voter p y) as [p' [[]|e]] eqn:Hy; simpl in *.
    + rewrite IH. split.
      * intros Hall. split; [done|]. eapply Forall_impl; [exact Hall|].
        intros x Hx. by rewrite <-(add_voter_result p' p x Hn).
      * intros [_ Hall]. eapply Forall_impl; [exact Hall|].
        intros x Hx. by rewrite (add_voter_result p' p x Hn).
    + split; [done|]. by intros [? _].
Qed.

Lemma check_candidates_error_kinds b (l : list candidate) r :
  check_candidates b l = Err r → r = InvalidCandidateType ∨ r = CandidateOutOfRange.
Proof.
  intros Hr. destruct (check_candidates_cases b l) as [E|[E|E]]; rewrite E in Hr.
  - done.
  - injection Hr as <-. by left.
  - injection Hr as <-. by right.
Qed.

Lemma check_valid_error_kinds v b r :
  check_valid v b None = Err r →
  r = InvalidCandidateType ∨ r = CandidateOutOfRange ∨ r = InvalidWeight.
Proof.
  unfold check_valid. simpl.
  destruct (check_candidates b _) as [[]|r'] eqn:Hr'; simpl.
  - case_bool_decide; simpl; [done|]. intros [= <-]. tauto.
  - intros [= <-]. destruct (check_candidates_error_kinds _ _ _ Hr'); tauto.
Qed.

Lemma Voter_init_error_kinds raw (w : Qc) r :
  Voter_init raw w = Err r →
  (r = Unhashable ∨ r = NoLength ∨ r = DuplicateApproval ∨ r = InvalidCandidateType
   ∨ r = CandidateOutOfRange ∨ r = InvalidWeight)
  ∧ (r = Unhashable ↔ ¬ hashable_entries raw)
  ∧ (r = NoLength ↔ hashable_entries raw ∧ py_len raw = None)
  ∧ (r = DuplicateApproval → ¬ no_repeats (py_list raw)).
Proof.
  rewrite Voter_init_unfold.
  destruct (hashable_or_not raw) as [Hh|Hh].
  2:{ unfold hashable_entries. rewrite Hh. intros [= <-].
      split; [tauto|]. split; [split; [by intros _ ?|done]|]. split; [|done].
      split; [done|]. by intros [? _]. }
  pose proof Hh as Hh'. unfold hashable_entries in Hh'. rewrite Hh'.
  assert (∀ r', r' ≠ Unhashable → r' = Unhashable ↔ ¬ hashable_entries raw) as Hun
    by (intros r' ?; split; [done|by intros []]).
  destruct (py_len raw) as [n|] eqn:Hn.
  2:{ intros [= <-]. split; [tauto|]. split; [by apply Hun|]. by split. }
  assert (∀ r', r' ≠ NoLength → r' = NoLength ↔ hashable_entries raw ∧ Some n = None)
    as Hno by (intros r' ?; split; [done|by intros [_ ?]]).
  apply py_len_Some in Hn as ->.
  destruct (set_len (py_set raw) <? length (py_list raw))%nat eqn:Hdup.
  - intros [= <-]. split; [tauto|]. split; [by apply Hun|]. split; [by apply Hno|].
    intros _. by apply duplicate_test.
  - destruct (check_candidates Infinity _) as [[]|r'] eqn:Hr'.
    + case_bool_decide; [done|]. intros [= <-].
      split; [tauto|]. split; [by apply Hun|]. by split; [apply Hno|].
    + intros [= <-].
      destruct (check_candidates_error_kinds _ _ _ Hr') as [->| ->];
        (split; [tauto|]); (split; [by apply Hun|]); by split; [apply Hno|].
Qed.

Lemma add_voter_error_of p x e :
  (add_voter p x).2 = Err e →
  Voter_init (arg_approved x) (arg_weight x) = Err e
  ∨ (hashable_entries (arg_approved x) ∧ sized (arg_approved x)
     ∧ (e = InvalidCandidateType ∨ e = CandidateOutOfRange ∨ e = InvalidWeight)).
Proof.
  intros He. apply add_voter_Err in He as [He _].
  rewrite unique_voter_unfold in He.
  destruct (Voter_init (arg_approved x) (arg_weight x)) as [v|e'] eqn:Hinit.
  - simpl in He.
    destruct (check_valid v _ None) as [[]|r] eqn:Hr; simpl in He; [done|].
    injection He as ->. right.
    apply Voter_init_Ok in Hinit as (_ & _ & Hall & _ & Hlen).
    split; [|split; [done|by apply check_valid_error_kinds in Hr]].
    apply hashable_ints. intros c Hc. rewrite Forall_forall in Hall.
    by apply within_is_int with Infinity, Hall.
  - simpl in He. injection He as ->. by left.
Qed.

(** X12. [add_voter] with a [Voter] or an iterable raises nothing but the
    two TypeErrors of [set()] and of [len()] and the four validation errors
    (repeated entry, bad type, candidate out of range, bad weight). It raises
    the TypeError of [set()] exactly when an entry cannot be hashed, and the
    TypeError of [len()] exactly when the entries can be hashed and the
    iterable is an iterator, which is therefore never accepted; it reports a
    repeated entry only when two entries are equal. With a [Voter] whose
    [approved] is a set it raises none of the three, on values and on
    objects; a [Voter] object whose [approved] has been made a list with a
    repeated entry is reported for it. *)
Theorem add_voter_error_kinds :
  (∀ p x e,
     (add_voter p x).2 = Err e →
     (e = Unhashable ∨ e = NoLength ∨ e = DuplicateApproval ∨ e = InvalidCandidateType
      ∨ e = CandidateOutOfRange ∨ e = InvalidWeight)
     ∧ (e = Unhashable ↔ ¬ hashable_entries (arg_approved x))
     ∧ (e = NoLength
        ↔ hashable_entries (arg_approved x) ∧ py_len (arg_approved x) = None)
     ∧ (e = DuplicateApproval → ¬ no_repeats (py_list (arg_approved x))))
  ∧ (∀ p x, ¬ hashable_entries (arg_approved x) → (add_voter p x).2 = Err Unhashable)
  ∧ (∀ p x, hashable_entries (arg_approved x) → py_len (arg_approved x) = None →
       (add_voter p x).2 = Err NoLength)
  ∧ (∀ p v e,
       (add_voter p (ArgVoter v)).2 = Err e →
       e = InvalidCandidateType ∨ e = CandidateOutOfRange ∨ e = InvalidWeight)
  ∧ (∀ (h : store PS) (self : ProfileObj) (voter ls : loc) (w : Qc) (s : PS) e,
       h !! voter = Some (ObjVoter ls w) → h !! ls = Some (ObjSet s) →
       (add_voter_ref h self voter).2 = Err e →
       e = InvalidCandidateType ∨ e = CandidateOutOfRange ∨ e = InvalidWeight)
  ∧ (∀ (h : store PS) (self : ProfileObj) (voter ls : loc) (w : Qc)
       (xs : list candidate),
       h !! voter = Some (ObjVoter ls w) → h !! ls = Some (ObjList xs) →
       forallb hashable xs = true → ¬ no_repeats xs →
       (add_voter_ref h self voter).2 = Err DuplicateApproval).
Proof.
  assert (∀ (s : PS) (w : Qc) e,
            Voter_init (IterSet s) w = Err e →
            e = InvalidCandidateType ∨ e = CandidateOutOfRange ∨ e = InvalidWeight)
    as Hset.
  { intros s w e He.
    destruct (Voter_init_error_kinds _ _ _ He) as (Hkind & Hun & Hlen & Hdup).
    destruct Hkind as [->|[->|[->|?]]]; [| | |done].
    - by destruct (proj1 Hun eq_refl).
    - by destruct (proj1 Hlen eq_refl) as [_ ?].
    - destruct Hdup; [done|]. apply set_iter_NoDup. }
  split; [|split; [|split; [|split; [|split]]]].
  - intros p x e He. destruct (add_voter_error_of p x e He) as [Hinit|Hlate].
    + by apply Voter_init_error_kinds in Hinit.
    + destruct Hlate as (Hh & Hlen & Hlate). unfold sized in Hlen.
      assert (e ≠ Unhashable ∧ e ≠ NoLength ∧ e ≠ DuplicateApproval) as (? & ? & ?)
        by (destruct Hlate as [->|[->| ->]]; done).
      split; [tauto|]. split; [split; [done|by intros []]|].
      split; [|done]. split; [done|]. intros [_ ?]. congruence.
  - intros p x Hno. unfold add_voter. rewrite unique_voter_unfold.
    by rewrite Voter_init_unhashable.
  - intros p x Hh Hlen. unfold add_voter. rewrite unique_voter_unfold.
    by rewrite Voter_init_unsized.
  - intros p v e He. destruct (add_voter_error_of _ _ _ He) as [Hinit|(_ & _ & ?)];
      [|done]. by apply Hset in Hinit.
  - intros h self voter ls w s e Hvoter Hls. unfold add_voter_ref, unique_voter_ref.
    rewrite Hvoter, (Voter_new_unfold h ls w (IterSet s))
      by (unfold iterable_at; by rewrite Hls).
    destruct (Voter_init (IterSet s) w) as [v|e'] eqn:Hinit.
    + assert (voter_at (h ++ [ObjSet (py_set (IterSet s)); ObjVoter (length h) w])
                (S (length h)) = Some (mkVoter (py_set (IterSet s)) w)) as ->.
      { unfold voter_at. rewrite lookup_app_r by lia.
        replace (S (length h) - length h)%nat with 1%nat by lia. simpl.
        rewrite lookup_app_r by lia. by rewrite Nat.sub_diag. }
      destruct (check_valid _ (Finite _) None) as [[]|r] eqn:Hr; simpl; [done|].
      intros [= <-]. by apply check_valid_error_kinds in Hr.
    + simpl. intros [= <-]. by apply Hset in Hinit.
  - intros h self voter ls w xs Hvoter Hls Hhash Hdup.
    unfold add_voter_ref, unique_voter_ref.
    rewrite Hvoter, (Voter_new_unfold h ls w (IterList xs))
      by (unfold iterable_at; by rewrite Hls).
    assert (Voter_init (IterList xs) w = Err DuplicateApproval) as ->; [|done].
    rewrite Voter_init_sized; [|unfold hashable_entries; simpl; by rewrite Hhash|done].
    by rewrite (proj2 (duplicate_test (IterList xs)) Hdup).
Qed.

(** *** Unit weights *)

Lemma has_unit_weights_app p (vs : list (Voter PS)) :
  has_unit_weights (set_voters (clear_cache p) (_voters p ++ vs))
  = has_unit_weights p && forallb (λ v, bool_decide (weight v = 1%Qc)) vs.
Proof. unfold has_unit_weights. simpl. apply forallb_app. Qed.

Lemma add_voter_unit_weights p x :
  has_unit_weights (add_voter p x).1
  = match (add_voter p x).2 with
    | Ok _ => has_unit_weights p && bool_decide (arg_weight x = 1%Qc)
    | Err _ => has_unit_weights p
    end.
Proof.
  destruct (add_voter_cases p x) as [(v & -> & Hv & ->)|(e & -> & [->| ->])];
    [|done|done].
  apply unique_voter_Ok in Hv as (_ & -> & _).
  rewrite has_unit_weights_app. simpl. by rewrite andb_true_r.
Qed.

(** X13. Voters given as plain iterables get the weight 1: [add_voters] with
    iterables keeps [has_unit_weights()] true, whether it returns or raises,
    and a profile that is filled with iterables only has unit weights. An
    accepted [Voter] object keeps [has_unit_weights()] true exactly when its
    weight is 1. *)
Theorem iterables_keep_unit_weights :
  (∀ p (raws : list (iterable PS)),
     has_unit_weights p = true →
     has_unit_weights (add_voters p (ArgIterable <$> raws)).1 = true)
  ∧ (∀ n names p (raws : list (iterable PS)),
       Profile_init n names = Ok p →
       has_unit_weights (add_voters p (ArgIterable <$> raws)).1 = true)
  ∧ (∀ p v, (add_voter p (ArgVoter v)).2 = Ok () →
       has_unit_weights (add_voter p (ArgVoter v)).1
       = has_unit_weights p && bool_decide (weight v = 1%Qc)).
Proof.
  assert (∀ (raws : list (iterable PS)) p,
            has_unit_weights p = true →
            has_unit_weights (add_voters p (ArgIterable <$> raws)).1 = true) as Hkeep.
  { induction raws as [|raw raws IH]; intros p Hp; [done|].
    rewrite fmap_cons. cbn [add_voters].
    pose proof (add_voter_unit_weights p (ArgIterable raw)) as Hstep.
    destruct (add_voter p (ArgIterable raw)) as [p' [[]|e]]; simpl in *.
    - apply IH. by rewrite Hstep, Hp.
    - by rewrite Hstep. }
  split; [|split].
  - intros p raws. apply Hkeep.
  - intros n names p raws Hinit. apply Hkeep.
    apply Profile_init_Ok in Hinit as (_ & _ & _ & Hvs & _).
    unfold has_unit_weights. by rewrite Hvs.
  - intros p v Hok. by rewrite add_voter_unit_weights, Hok.
Qed.

(** *** Party lists again *)

(** X14. [is_party_list()] looks at the approval sets only: when every
    approval set of [q] has the same members as some approval set of [p] and
    [p] is a party list, so is [q]. Removing voters, reordering them,
    repeating them or changing weights keeps a party list a party list. *)
Theorem is_party_list_of_subprofile p q :
  (∀ v, v ∈ _voters q → ∃ u, u ∈ _voters p ∧ same_set (approved v) (approved u)) →
  is_party_list p = true → is_party_list q = true.
Proof.
  intros Hsub. rewrite !is_party_list_disjoint_or_same. intros Hp v1 v2 Hv1 Hv2.
  destruct (Hsub v1 Hv1) as (u1 & Hu1 & E1), (Hsub v2 Hv2) as (u2 & Hu2 & E2).
  destruct (Hp u1 u2 Hu1 Hu2) as [Hdis|Hsame].
  - left. intros c Hc1 Hc2. apply (Hdis c); [by apply E1|by apply E2].
  - right. intros c. by rewrite (E1 c), (E2 c).
Qed.

(** *** The table of [str_compact] *)

(** X15. The table that [str_compact] builds has one entry for each distinct
    key [tuple(voter.approved)], in the order in which the keys first occur
    among the voters; no key occurs twice; there are at most as many entries
    as voters; and each entry holds the sum of the weights of the voters
    with its key, of which there is at least one. Keys are the same when
    they are equal as tuples. *)
Theorem str_compact_table (vs : list (Voter PS)) :
  compact_of vs = groups vs
  ∧ (compact_of vs).*1 = nub_by tuple_key (voter_key <$> vs)
  ∧ NoDup (compact_of vs).*1
  ∧ NoDup (tuple_key <$> (compact_of vs).*1)
  ∧ (length (compact_of vs) ≤ length vs)%nat
  ∧ ∀ k w, (k, w) ∈ compact_of vs →
      w = sum_weights (filter (λ v, tuple_key (voter_key v) = tuple_key k) vs)
      ∧ ∃ v, v ∈ vs ∧ voter_key v = k.
Proof.
  rewrite compact_of_groups. unfold groups.
  assert (((λ k, (k, sum_weights
                       (filter (λ v, tuple_key (voter_key v) = tuple_key k) vs)))
             <$> nub_by tuple_key (voter_key <$> vs)).*1
          = nub_by tuple_key (voter_key <$> vs)) as Hkeys.
  { rewrite <-list_fmap_compose. apply list_fmap_id. }
  split; [done|]. split; [done|]. rewrite Hkeys.
  split; [eapply NoDup_fmap_1, NoDup_nub_by|]. split; [apply NoDup_nub_by|]. split.
  - rewrite length_fmap. etrans; [apply length_nub_by_le|]. by rewrite length_fmap.
  - intros k w (k' & [= <- ->] & Hk)%list_elem_of_fmap. split; [done|].
    apply elem_of_nub_by, list_elem_of_fmap in Hk as (v & -> & Hv). by exists v.
Qed.

Lemma od_accumulate_total (d : ordered_dict) k (w : Qc) :
  foldr (λ e acc, (e.2 + acc)%Qc) 0%Qc (od_accumulate d k w)
  = (foldr (λ e acc, (e.2 + acc)%Qc) 0%Qc d + w)%Qc.
Proof.
  induction d as [|[k0 w0] d IH]; simpl.
  - by rewrite Qcplus_0_r, Qcplus_0_l.
  - destruct (decide (tuple_key k0 = tuple_key k)); simpl.
    + rewrite <-!Qcplus_assoc. f_equal. apply Qcplus_comm.
    + by rewrite IH, Qcplus_assoc.
Qed.

(** X16. The weights in the table of [str_compact] add up to
    [totalweight()]: no voter's weight is lost or counted twice by the
    grouping. *)
Theorem compact_weights_add_up p :
  foldr (λ e acc, (e.2 + acc)%Qc) 0%Qc (compact_of (_voters p)) = totalweight p.
Proof.
  rewrite totalweight_sum.
  induction (_voters p) as [|v vs IH] using rev_ind; [done|].
  rewrite compact_of_snoc, od_accumulate_total, IH, sum_weights_app.
  unfold sum_weights at 3. simpl. by rewrite Qcplus_0_r.
Qed.

(** *** The text of a profile with voters *)

Lemma foldl_lines {A : Type} (step : string → A → string) (f : A → string)
    (init : string) (l : list A) :
  (∀ out a, step out a = out +:+ f a) →
  foldl step init l = init +:+ foldr (λ a acc, f a +:+ acc) "" l.
Proof.
  intros Hstep. revert init. induction l as [|a l IH]; intros init; simpl.
  - by rewrite string_app_nil_r.
  - by rewrite IH, Hstep, string_app_assoc.
Qed.

(** Lines that each end in a separator of two characters, with the last two
    characters taken off, are the lines joined by the separator. *)
Lemma drop_last2_lines {A : Type} (f g : A → string) (sep init : string)
    (l : list A) :
  String.length sep = 2%nat → (∀ a, f a = g a +:+ sep) → l ≠ [] →
  drop_last2 (init +:+ foldr (λ a acc, f a +:+ acc) "" l)
  = init +:+ String.concat sep (g <$> l).
Proof.
  intros Hsep Hf Hne. revert init.
  induction l as [|a l IH]; intros init; [done|].
  destruct l as [|b l].
  - simpl. rewrite Hf, string_app_nil_r, <-string_app_assoc.
    rewrite drop_last2_app by lia.
    assert (drop_last2 sep = "") as ->; [|by rewrite string_app_nil_r].
    destruct sep as [|c1 [|c2 [|c3 sep]]]; simpl in Hsep; try lia. done.
  - change (foldr (λ a acc, f a +:+ acc) "" (a :: b :: l))
      with (f a +:+ foldr (λ a acc, f a +:+ acc) "" (b :: l)).
    rewrite <-string_app_assoc, IH by done.
    rewrite Hf, !fmap_cons.
    change (String.concat sep (g a :: g b :: (g <$> l)))
      with (g a +:+ sep +:+ String.concat sep (g b :: (g <$> l))).
    by rewrite !string_app_assoc.
Qed.

(** X17. For a profile with voters, [str()] is the header followed by one
    line for each voter in order, the lines joined by a comma and a newline
    and the last line without them: a line is a space and the rendered
    approval set when all weights are 1, and otherwise a space, the weight,
    " * ", the rendered approval set and a space, under a header that starts
    with "weighted ". *)
Theorem str_of_voters p :
  _voters p ≠ [] →
  (has_unit_weights p = true →
   str str_set_of_candidates p
   = header p
       +:+ String.concat ("," +:+ NL)
             ((λ v, " " +:+ str_set_of_candidates (set_iter (approved v)) (cand_names p))
                <$> _voters p))
  ∧ (has_unit_weights p = false →
     str str_set_of_candidates p
     = ("weighted " +:+ header p)
         +:+ String.concat ("," +:+ NL)
               ((λ v, " " +:+ str_weight (weight v) +:+ " * "
                        +:+ str_set_of_candidates (set_iter (approved v)) (cand_names p)
                        +:+ " ")
                  <$> _voters p)).
Proof.
  intros Hne. unfold str. split; intros ->.
  - rewrite (foldl_lines _
               (λ v, " " +:+ str_set_of_candidates (set_iter (approved v)) (cand_names p)
                       +:+ "," +:+ NL)) by done.
    apply drop_last2_lines; [done| |done].
    intros v. by rewrite !string_app_assoc.
  - rewrite (foldl_lines _
               (λ v, " " +:+ str_weight (weight v) +:+ " * "
                       +:+ str_set_of_candidates (set_iter (approved v)) (cand_names p)
                       +:+ " ," +:+ NL)).
    + apply drop_last2_lines; [done| |done].
      intros v. by rewrite !string_app_assoc.
    + intros out v. by rewrite !string_app_assoc.
Qed.

Lemma groups_nonempty (vs : list (Voter PS)) : vs ≠ [] → groups vs ≠ [].
Proof. by destruct vs. Qed.

(** X18. For a profile with voters, [str_compact()] is the header, then one
    line " <weight> x <rendered key>" for each entry of the table, the lines
    joined by a comma and a newline, then a newline; when not all weights
    are 1 the header starts with "weighted " and a line "total weight:
    <totalweight>" comes before the last newline. *)
Theorem str_compact_of_voters p :
  _voters p ≠ [] →
  (has_unit_weights p = true →
   str_compact str_set_of_candidates p
   = header p
       +:+ String.concat ("," +:+ NL)
             ((λ e, " " +:+ str_weight e.2 +:+ " x "
                      +:+ str_set_of_candidates e.1 (cand_names p))
                <$> groups (_voters p))
       +:+ NL)
  ∧ (has_unit_weights p = false →
     str_compact str_set_of_candidates p
     = "weighted " +:+ header p
         +:+ String.concat ("," +:+ NL)
               ((λ e, " " +:+ str_weight e.2 +:+ " x "
                        +:+ str_set_of_candidates e.1 (cand_names p))
                  <$> groups (_voters p))
         +:+ NL +:+ "total weight: " +:+ str_weight (totalweight p) +:+ NL).
Proof.
  intros Hne. pose proof (groups_nonempty _ Hne) as Hgroups.
  unfold str_compact. rewrite compact_of_groups.
  split; intros ->; cbn [negb].
  - rewrite (foldl_lines _
               (λ e, " " +:+ str_weight e.2 +:+ " x "
                       +:+ str_set_of_candidates e.1 (cand_names p) +:+ "," +:+ NL))
      by done.
    rewrite (drop_last2_lines _
               (λ e, " " +:+ str_weight e.2 +:+ " x "
                       +:+ str_set_of_candidates e.1 (cand_names p)) ("," +:+ NL));
      [|done| |done].
    + by rewrite !string_app_assoc.
    + intros e. by rewrite !string_app_assoc.
  - rewrite (foldl_lines _
               (λ e, " " +:+ str_weight e.2 +:+ " x "
                       +:+ str_set_of_candidates e.1 (cand_names p) +:+ "," +:+ NL))
      by done.
    rewrite (drop_last2_lines _
               (λ e, " " +:+ str_weight e.2 +:+ " x "
                       +:+ str_set_of_candidates e.1 (cand_names p)) ("," +:+ NL));
      [|done| |done].
    + by rewrite !string_app_assoc.
    + intros e. by rewrite !string_app_assoc.
Qed.

(** *** Reading a voter hands out the stored object *)


(** *** Construction keeps the candidates *)

(** X20. An accepted [Voter(approved, weight)] has exactly the candidates of
    [approved], each once, and the given weight: iterating its set yields a
    rearrangement of the input, which has as many entries as the set has
    members, all of them integers that are not negative. *)
Theorem Voter_init_keeps_candidates raw (w : Qc) v :
  Voter_init raw w = Ok v →
  set_iter (approved v) ≡ₚ py_list raw
  ∧ py_len raw = Some (set_len (approved v))
  ∧ weight v = w ∧ (0 < w)%Qc
  ∧ ∀ c, c ∈ py_list raw → ∃ z, c = CInt z ∧ 0 ≤ z.
Proof.
  intros Hinit. pose proof (Voter_init_Ok_no_repeats _ _ _ Hinit) as Hnd'.
  apply Voter_init_Ok in Hinit as (-> & Hnd & Hall & Hw & Hlen). simpl.
  pose proof (py_set_perm raw Hnd') as Hperm.
  split; [done|]. split; [unfold set_len; by rewrite Hperm|].
  split; [done|]. split; [done|].
  intros c Hc. rewrite Forall_forall in Hall.
  destruct (Hall c Hc) as (z & -> & ? & _). by exists z.
Qed.

(** X21. An accepted [add_voter] adds the candidates of its argument to
    [approved_candidates] and takes none away; a rejected one leaves
    [approved_candidates] as it was. *)
Theorem add_voter_extends_approved_candidates p x (s s' : PS) :
  reachable p →
  approved_candidates p = Ok s →
  approved_candidates (add_voter p x).1 = Ok s' →
  match (add_voter p x).2 with
  | Ok _ => ∀ c, c ∈ set_iter s' ↔ c ∈ set_iter s ∨ c ∈ py_list (arg_approved x)
  | Err _ => s' = s
  end.
Proof.
  intros Hreach Hs Hs'.
  pose proof (reachable_inv _ Hreach) as Hinv.
  destruct (approved_candidates_union p Hinv) as (s0 & Hs0 & Hin).
  destruct Hinv as [Hnone _ _ _ _].
  assert (s0 = s) as -> by congruence.
  destruct (add_voter p x).2 as [[]|e] eqn:Hr.
  - pose proof (reachable_inv _ (reach_add_voter p x Hreach)) as Hinv'.
    destruct (approved_candidates_union _ Hinv') as (s1 & Hs1 & Hin').
    assert (s1 = s') as -> by congruence.
    assert (no_repeats (py_list (arg_approved x))) as Hnd.
    { destruct (add_voter_Ok p x Hr) as (v & Hv & _).
      by apply unique_voter_Ok_input in Hv as [_ ?]. }
    assert (add_voter p x = ((add_voter p x).1, Ok ())) as Hpair
      by (rewrite <-Hr; apply surjective_pairing).
    apply add_voter_Ok_stored in Hpair.
    intros c. rewrite Hin', Hin, Hpair. simpl. split.
    + intros (v & [Hv| ->%list_elem_of_singleton]%elem_of_app & Hc).
      * left. by exists v.
      * right. by apply elem_of_py_set.
    + intros [(v & Hv & Hc)|Hc].
      * exists v. split; [|done]. apply elem_of_app. by left.
      * exists (stored_for x). split; [|by apply elem_of_py_set].
        apply elem_of_app. right. by apply list_elem_of_singleton.
  - destruct (add_voter_failure_atomic p x e Hr) as [_ Hsame].
    rewrite (Hsame Hnone) in Hs'. congruence.
Qed.

(** X22. A voter who approves nobody does not matter to [is_party_list()]:
    with or without such a voter at the end, the answer is the same. *)
Theorem is_party_list_ignores_abstention p v :
  set_iter (approved v) = [] →
  is_party_list (set_voters p (_voters p ++ [v])) = is_party_list p.
Proof.
  intros Hempty.
  assert (∀ u, disjoint_sets (approved v) (approved u)
               ∧ disjoint_sets (approved u) (approved v)) as Hdis.
  { intros u. split; intros c; unfold set_has; rewrite Hempty;
      [by intros ?%elem_of_nil|]. intros _. apply not_elem_of_nil. }
  apply eq_true_iff_eq. rewrite !is_party_list_disjoint_or_same. simpl. split.
  - intros Hall v1 v2 Hv1 Hv2. apply Hall; apply elem_of_app; by left.
  - intros Hall v1 v2 [Hv1| ->%list_elem_of_singleton]%elem_of_app
      [Hv2| ->%list_elem_of_singleton]%elem_of_app.
    + by apply Hall.
    + left. apply Hdis.
    + left. apply Hdis.
    + left. apply Hdis.
Qed.

End MoreProperties.

(** * Runs on concrete inputs *)

Lemma new_profile_init {PS : Type} `{PySet PS} n :
  0 < n → Profile_init n None = Ok (new_profile (PS:=PS) n).
Proof. intros Hn. unfold Profile_init. by assert ((n <=? 0) = false) as -> by lia. Qed.

Lemma ordered_profile_reachable n ls :
  0 < n → @reachable _ ordered_set (ordered_profile n ls).
Proof.
  intros Hn. apply reach_add_voters, (reach_init n None).
  by apply (@new_profile_init _ ordered_set).
Qed.

Lemma stored_voters_valid_witness :
  let p := ordered_profile 3 [[0; 2]; [1]] in
  let v := mkVoter [CInt 0; CInt 2] 1%Qc in
  @check_valid _ ordered_set v (Finite (num_cand p)) None = Ok ()
  ∧ (∀ c, c ∈ @set_iter _ ordered_set (approved v) → ∃ z, c = CInt z ∧ 0 ≤ z < num_cand p)
  ∧ (0 < weight v)%Qc.
Proof.
  apply (@stored_voters_valid _ ordered_set ordered_set_laws).
  - apply ordered_profile_reachable. lia.
  - vm_compute. left.
Defined.

Lemma is_party_list_spec_witness :
  @is_party_list _ ordered_set (ordered_profile 3 [[0; 1]; [1; 2]]) = false
  ∧ @is_party_list _ ordered_set (ordered_profile 3 [[0; 1]; [0; 1]; [2]]) = true
  ∧ @is_party_list _ ordered_set (ordered_profile 3 []) = true.
Proof.
  destruct (@is_party_list_spec _ ordered_set ordered_set_laws)
    as (_ & _ & Hsmall & Hfalse & Htrue).
  split; [|split].
  - apply (Hfalse _ (mkVoter [CInt 0; CInt 1] 1%Qc) (mkVoter [CInt 1; CInt 2] 1%Qc));
      [by vm_compute|done|done].
  - apply (Htrue _ (mkVoter [CInt 0; CInt 1] 1%Qc) (mkVoter [CInt 0; CInt 1] 1%Qc)
             (mkVoter [CInt 2] 1%Qc)); [by vm_compute|done|done|done].
  - apply Hsmall. vm_compute. lia.
Defined.

Lemma approved_candidates_spec_witness :
  ∃ s, @approved_candidates _ ordered_set (ordered_profile 4 [[0]; [1; 2]; [3]]) = Ok s
       ∧ ∀ c, c ∈ @set_iter _ ordered_set s
              ↔ ∃ v, v ∈ _voters (ordered_profile 4 [[0]; [1; 2]; [3]])
                     ∧ c ∈ @set_iter _ ordered_set (approved v).
Proof.
  destruct (@approved_candidates_spec _ ordered_set ordered_set_laws) as (Hunion & _).
  apply Hunion, ordered_profile_reachable. lia.
Defined.

(** The constructor of [Voter] reports the repeated entry of ['a', 'a'] and
    of [1, 1.0], not the type, and the negative candidate of [-1] with
    weight 0, not the weight, on insertion-ordered sets and on CPython's
    sets. *)
Lemma Voter_init_reports_first_failure :
  @Voter_init _ ordered_set (IterList [CObj "a"; CObj "a"]) 1%Qc = Err DuplicateApproval
  ∧ @Voter_init _ cpython_set (IterList [CObj "a"; CObj "a"]) 1%Qc = Err DuplicateApproval
  ∧ @Voter_init _ ordered_set (IterList [CInt 1; CNum 1]) 1%Qc = Err DuplicateApproval
  ∧ @Voter_init _ cpython_set (IterList [CInt 1; CNum 1]) 1%Qc = Err DuplicateApproval
  ∧ @Voter_init _ ordered_set (IterList [CInt (-1)]) 0%Qc = Err CandidateOutOfRange
  ∧ @Voter_init _ cpython_set (IterList [CInt (-1)]) 0%Qc = Err CandidateOutOfRange.
Proof. repeat split; by vm_compute. Qed.

Lemma Voter_init_spec_witness :
  @Voter_init _ ordered_set (IterList [CUnhashable "[1]"; CUnhashable "[1]"]) 1%Qc
  = Err Unhashable
  ∧ @Voter_init _ ordered_set (IterGen [CInt 1; CInt 2]) 1%Qc = Err NoLength
  ∧ @Voter_init _ ordered_set (IterList [CInt 1; CNum 1]) 1%Qc = Err DuplicateApproval
  ∧ @Voter_init _ ordered_set (IterList [CObj "a"; CInt (-1)]) 1%Qc
    = Err InvalidCandidateType
  ∧ @Voter_init _ ordered_set (IterList [CInt (-1); CObj "a"]) 1%Qc
    = Err CandidateOutOfRange
  ∧ @Voter_init _ ordered_set (IterList [CInt 1; CObj "a"]) 1%Qc = Err InvalidCandidateType
  ∧ @Voter_init _ ordered_set (IterList [CInt 1; CInt 2]) 0%Qc = Err InvalidWeight
  ∧ @Voter_init _ ordered_set (IterList [CInt 1; CInt (2 ^ 70)]) 1%Qc
    = Ok (mkVoter (@py_set _ ordered_set (IterList [CInt 1; CInt (2 ^ 70)])) 1%Qc).
Proof.
  assert (∀ l : list candidate,
            bool_decide (NoDup (py_key <$> l)) = true → @no_repeats l) as Hnd
    by (intros l; apply bool_decide_eq_true).
  split; [|split; [|split; [|split; [|split; [|split; [|split]]]]]].
  - by apply (@Voter_init_spec _ ordered_set ordered_set_laws).
  - by apply (@Voter_init_spec _ ordered_set ordered_set_laws).
  - destruct (@Voter_init_spec _ ordered_set ordered_set_laws
                (IterList [CInt 1; CNum 1]) 1%Qc) as (_ & _ & _ & Hdup & _).
    apply Hdup; [done..|]. intros Hno. apply NoDup_cons in Hno as [Hno _].
    apply Hno. left.
  - destruct (@Voter_init_spec _ ordered_set ordered_set_laws
                (IterList [CObj "a"; CInt (-1)]) 1%Qc)
      as (_ & _ & _ & _ & _ & Hfirst & _).
    destruct (Hfirst eq_refl eq_refl (Hnd [CObj "a"; CInt (-1)] eq_refl)
                [] (CObj "a") [CInt (-1)] eq_refl) as [Htype _].
    + by intros d ?%elem_of_nil.
    + apply Htype. by intros [z ?].
  - destruct (@Voter_init_spec _ ordered_set ordered_set_laws
                (IterList [CInt (-1); CObj "a"]) 1%Qc)
      as (_ & _ & _ & _ & _ & Hfirst & _).
    destruct (Hfirst eq_refl eq_refl (Hnd [CInt (-1); CObj "a"] eq_refl)
                [] (CInt (-1)) [CObj "a"] eq_refl) as [_ Hrange].
    + by intros d ?%elem_of_nil.
    + apply (Hrange (-1)); [done|lia].
  - destruct (@Voter_init_spec _ ordered_set ordered_set_laws
                (IterList [CInt 1; CObj "a"]) 1%Qc)
      as (_ & _ & _ & _ & _ & _ & Htype & _).
    apply Htype; simpl.
    + done.
    + done.
    + by apply Hnd.
    + exists (CObj "a"). split; [right; left|]. by intros [z ?].
    + intros z Hz. apply elem_of_cons in Hz as [[= ->]|Hz]; [lia|].
      apply elem_of_cons in Hz as [?|Hz]; [done|]. by apply elem_of_nil in Hz.
  - destruct (@Voter_init_spec _ ordered_set ordered_set_laws
                (IterList [CInt 1; CInt 2]) 0%Qc)
      as (_ & _ & _ & _ & _ & _ & _ & _ & Hweight & _).
    apply Hweight; simpl.
    + done.
    + by apply Hnd.
    + intros c Hc. apply elem_of_cons in Hc as [->|Hc]; [exists 1; split; [done|lia]|].
      apply elem_of_cons in Hc as [->|Hc]; [exists 2; split; [done|lia]|].
      by apply elem_of_nil in Hc.
    + done.
  - destruct (@Voter_init_spec _ ordered_set ordered_set_laws
                (IterList [CInt 1; CInt (2 ^ 70)]) 1%Qc)
      as (_ & _ & _ & _ & _ & _ & _ & _ & _ & Hok & _).
    apply Hok; simpl.
    + done.
    + by apply Hnd.
    + intros c Hc. apply elem_of_cons in Hc as [->|Hc]; [exists 1; split; [done|lia]|].
      apply elem_of_cons in Hc as [->|Hc]; [exists (2 ^ 70); split; [done|lia]|].
      by apply elem_of_nil in Hc.
    + done.
Defined.

(** [Profile(3, cand_names=[])] returns a profile with the default names. *)
Lemma Profile_init_empty_names :
  @Profile_init (list candidate) 3 (Some [])
  = Ok (mkProfile [0; 1; 2] ["0"; "1"; "2"] [] None).
Proof. by vm_compute. Qed.

Lemma Profile_init_spec_witness :
  @Profile_init (list candidate) 0 None = Err InvalidArgument
  ∧ @Profile_init (list candidate) 2 (Some ["a"]) = Err InvalidArgument
  ∧ @Profile_init (list candidate) 2 (Some ["a"; "b"; "c"])
    = Ok (mkProfile (range 2) (take (Z.to_nat 2) ["a"; "b"; "c"]) [] None).
Proof.
  destruct (@Profile_init_spec (list candidate)) as (Hneg & Hshort & _ & Hnames).
  split; [|split].
  - apply Hneg. lia.
  - apply Hshort; [lia|done|simpl; lia].
  - apply Hnames; [lia|simpl; lia].
Defined.

(** [add_voter([5, 5])] on [Profile(3)] reports the repeated entry, not the
    candidate out of range. *)
Lemma add_voter_reports_duplicate :
  @add_voter _ ordered_set (new_profile 3) (from_list [5; 5])
  = (new_profile 3, Err DuplicateApproval)
  ∧ @add_voter _ cpython_set (new_profile 3) (from_list [5; 5])
    = (new_profile 3, Err DuplicateApproval).
Proof. split; by vm_compute. Qed.

Lemma add_voter_rejects_witness :
  (@add_voter _ ordered_set (ordered_profile 3 [[0]]) (from_list [1; 5])).2
  = Err CandidateOutOfRange
  ∧ _voters (@add_voter _ ordered_set (ordered_profile 3 [[0]]) (from_list [1; 5])).1
    = _voters (ordered_profile 3 [[0]]).
Proof.
  destruct (@add_voter_rejects _ ordered_set ordered_set_laws
              (ordered_profile 3 [[0]]) (from_list [1; 5])) as [Hrange _].
  destruct (Hrange 5) as (_ & Hvoters & _ & Herror).
  - simpl. right. left.
  - right. by vm_compute.
  - split; [|exact Hvoters]. apply Herror; simpl.
    + apply (bool_decide_unpack _). by vm_compute.
    + intros c Hc. apply elem_of_cons in Hc as [->|Hc]; [by exists 1|].
      apply elem_of_cons in Hc as [->|Hc]; [by exists 5|]. by apply elem_of_nil in Hc.
    + done.
Defined.

Lemma add_voters_not_atomic_witness :
  @add_voters _ ordered_set (new_profile 3)
    ([from_list [0]; from_list [1; 2]] ++ from_list [7] :: [from_list [2]])
  = (ordered_profile 3 [[0]; [1; 2]], Err CandidateOutOfRange)
  ∧ _voters (ordered_profile 3 [[0]; [1; 2]])
    = _voters (new_profile 3)
        ++ (@stored_for _ ordered_set <$> [from_list [0]; from_list [1; 2]]).
Proof.
  destruct (@add_voters_not_atomic _ ordered_set ordered_set_laws)
    as (_ & _ & Hfail & _).
  destruct (Hfail (new_profile 3) [from_list [0]; from_list [1; 2]] (from_list [7])
              [from_list [2]] (ordered_profile 3 [[0]; [1; 2]])
              (ordered_profile 3 [[0]; [1; 2]]) CandidateOutOfRange)
    as (Hrun & Hvoters & _); [by vm_compute|by vm_compute|].
  split; [exact Hrun|exact Hvoters].
Defined.

(** The iteration orders of CPython 3.11 on some lists of integers: 0 and 8
    share the first slot of the table of 8 slots, and the one added second
    moves to the next slot; a copy keeps the slots; the table grows with the
    fifth entry. *)
Example cpython_iteration_orders :
  let tuple_of_set l := @set_iter _ cpython_set (@set_of_list _ cpython_set (ints l)) in
  let tuple_of_copy l :=
    @set_iter _ cpython_set (@set_copy _ cpython_set (@set_of_list _ cpython_set (ints l))) in
  tuple_of_set [0; 8] = ints [0; 8]
  ∧ tuple_of_set [8; 0] = ints [8; 0]
  ∧ tuple_of_set [0; 1] = ints [0; 1]
  ∧ tuple_of_set [1; 0] = ints [0; 1]
  ∧ tuple_of_set [7; 15] = ints [15; 7]
  ∧ tuple_of_copy [7; 15] = ints [15; 7]
  ∧ tuple_of_set [64; 32; 0; 16; 8; 96; 128; 5] = ints [64; 0; 32; 96; 128; 5; 8; 16]
  ∧ tuple_of_set [-1; -2; 5; -7; 100; 37; 1000000]
    = ints [1000000; 100; 5; 37; -2; -7; -1].
Proof. repeat split; by vm_compute. Qed.

(** Equal members on CPython 3.11: [set([1, 1.0])] is {1} and
    [set([1.0, 1])] is {1.0}; [{1} & {1.0}] is {1.0} and [{1.0} & {1}] is
    {1}; [{1, 2} & {1.0}] and [{1.0} & {1, 2}] are {1.0};
    [{1, 2.0} & {1.0, 2}] is {1.0, 2}; and [{1}.update({1.0, 2.0})] leaves
    {1, 2.0}. *)
Example cpython_equal_members :
  let set l := @set_of_list _ cpython_set l in
  let tuple s := @set_iter _ cpython_set s in
  tuple (set [CInt 1; CNum 1]) = [CInt 1]
  ∧ tuple (set [CNum 1; CInt 1]) = [CNum 1]
  ∧ tuple (@set_and _ cpython_set (set [CInt 1]) (set [CNum 1])) = [CNum 1]
  ∧ tuple (@set_and _ cpython_set (set [CNum 1]) (set [CInt 1])) = [CInt 1]
  ∧ tuple (@set_and _ cpython_set (set [CInt 1; CInt 2]) (set [CNum 1])) = [CNum 1]
  ∧ tuple (@set_and _ cpython_set (set [CNum 1]) (set [CInt 1; CInt 2])) = [CNum 1]
  ∧ tuple (@set_and _ cpython_set (set [CInt 1; CNum 2]) (set [CNum 1; CInt 2]))
    = [CNum 1; CInt 2]
  ∧ tuple (@set_update _ cpython_set (set [CInt 1]) (set [CNum 1; CNum 2]))
    = [CInt 1; CNum 2].
Proof. repeat split; by vm_compute. Qed.

(** C8. On CPython, [Profile(9)] with the voters [0, 8] and [8, 0]: the two
    approval sets hold the same members, but iterate to them as 0, 8 and as
    8, 0, so [str_compact()] has two keys and prints two groups of weight 1
    where one group of weight 2 is due. *)
Theorem str_compact_splits_equal_sets :
  let p := cpython_profile 9 [[0; 8]; [8; 0]] in
  (∃ v1 v2, _voters p = [v1; v2]
            ∧ @same_set _ cpython_set (approved v1) (approved v2)
            ∧ @set_is _ cpython_set (approved v1) (@set_iter _ cpython_set (approved v2)))
  ∧ @voter_key _ cpython_set <$> _voters p = [ints [0; 8]; ints [8; 0]]
  ∧ @compact_of _ cpython_set (_voters p) = [(ints [0; 8], 1%Qc); (ints [8; 0], 1%Qc)]
  ∧ @str_compact _ cpython_set str_set_of_candidates_spec p
    = "profile with 2 votes and 9 candidates:" +:+ NL
        +:+ " 1 x {0, 8}," +:+ NL
        +:+ " 1 x {0, 8}" +:+ NL
  ∧ @str_compact _ cpython_set str_set_of_candidates_spec
      (cpython_profile 9 [[0; 8]; [0; 8]])
    = "profile with 2 votes and 9 candidates:" +:+ NL
        +:+ " 2 x {0, 8}" +:+ NL.
Proof.
  split; [|repeat split; by vm_compute].
  eexists _, _. split; [by vm_compute|]. split; intros c.
  - change (py_key c ∈ py_key <$> ints [0; 8] ↔ py_key c ∈ py_key <$> ints [8; 0]).
    unfold ints. simpl. rewrite !elem_of_cons, !elem_of_nil. tauto.
  - change (c ∈ ints [0; 8] ↔ c ∈ ints [8; 0]).
    unfold ints. simpl. rewrite !elem_of_cons, !elem_of_nil. tauto.
Qed.

Lemma str_of_empty_profile_witness :
  @str _ ordered_set str_set_of_candidates_spec (new_profile 5)
  = "profile with 0 votes and 5 candidates"
  ∧ @str_compact _ ordered_set str_set_of_candidates_spec (new_profile 5)
    = "profile with 0 votes and 5 candidates" +:+ NL.
Proof.
  destruct (@str_of_empty_profile _ ordered_set str_set_of_candidates_spec
              (new_profile 5)) as (_ & _ & Hstr & _ & Hcompact); [done|].
  split; [exact Hstr|exact Hcompact].
Defined.

Lemma insertion_stores_fresh_copies_witness :
  let h : store (list candidate) := [ObjList (ints [0; 1])] in
  let self := mkProfileObj [0; 1; 2] ["0"; "1"; "2"] [] None in
  ∃ lv ls v,
    obj_voters (@add_voter_ref _ ordered_set h self 0%nat).1.2 = obj_voters self ++ [lv]
    ∧ approved_at (@add_voter_ref _ ordered_set h self 0%nat).1.1 lv = Some ls
    ∧ voter_at (@add_voter_ref _ ordered_set h self 0%nat).1.1 lv = Some v
    ∧ (length h ≤ lv)%nat ∧ (length h ≤ ls)%nat
    ∧ (∀ l, (l < length h)%nat →
         (@add_voter_ref _ ordered_set h self 0%nat).1.1 !! l = h !! l)
    ∧ (∀ l o, (l < length h)%nat →
         voter_at (<[l := o]> (@add_voter_ref _ ordered_set h self 0%nat).1.1) lv = Some v
         ∧ approved_at (<[l := o]> (@add_voter_ref _ ordered_set h self 0%nat).1.1) lv
           = Some ls)
    ∧ (∀ x, distinct_voters h (obj_voters self) →
         @arg_of _ h 0%nat = Some x → v = @stored_for _ ordered_set x).
Proof.
  intros h self.
  apply (proj1 (@insertion_stores_fresh_copies _ ordered_set ordered_set_laws)).
  by vm_compute.
Defined.

(** ** Runs of the further properties *)

Lemma totalweight_sign_witness :
  let p := ordered_profile 3 [[0; 2]; [1]] in
  (_voters p = [] → totalweight p = 0%Qc) ∧ (_voters p ≠ [] → (0 < totalweight p)%Qc).
Proof.
  apply (@totalweight_sign _ ordered_set ordered_set_laws), ordered_profile_reachable. lia.
Defined.

Lemma totalweight_of_unit_weights_witness :
  let p := ordered_profile 3 [[0; 2]; [1]] in
  totalweight p = Qc_of_Z (Z.of_nat (len p)).
Proof. apply totalweight_of_unit_weights. by vm_compute. Defined.

Lemma getitem_bounds_witness :
  let p := ordered_profile 3 [[0; 2]; [1]] in
  let v := mkVoter [CInt 1] 1%Qc in
  getitem p 1 = Ok v ∧ getitem p (1 - Z.of_nat (len p)) = Ok v
  ∧ getitem p 2 = Err IndexOutOfRange.
Proof.
  intros p v.
  destruct (getitem_bounds p 1) as (Hin & _).
  destruct (getitem_bounds p 2) as (_ & Hout & _).
  destruct (Hin v) as [Hpos Hneg]; [lia|by vm_compute|].
  split; [exact Hpos|split; [exact Hneg|]].
  apply Hout. right. by vm_compute.
Defined.

Lemma add_voter_appends_witness :
  let p := ordered_profile 3 [[0]] in
  let x := from_list [1; 2] in
  _voters (@add_voter _ ordered_set p x).1 = _voters p ++ [@stored_for _ ordered_set x]
  ∧ getitem (@add_voter _ ordered_set p x).1 (-1) = Ok (@stored_for _ ordered_set x)
  ∧ totalweight (@add_voter _ ordered_set p x).1 = (totalweight p + arg_weight x)%Qc.
Proof.
  intros p x.
  destruct (@add_voter_appends _ ordered_set ordered_set_laws p x)
    as (Hvoters & _ & _ & Hlast & _ & Hweight); [by vm_compute|].
  split; [exact Hvoters|split; [exact Hlast|exact Hweight]].
Defined.

Lemma setitem_replaces_witness :
  let p := ordered_profile 3 [[0]; [1]] in
  let x := from_list [2] in
  ∃ k, list_index (len p) (-1) = Some k
       ∧ _voters (@setitem _ ordered_set p (-1) x).1
         = <[k := @stored_for _ ordered_set x]> (_voters p)
       ∧ getitem (@setitem _ ordered_set p (-1) x).1 (-1) = Ok (@stored_for _ ordered_set x).
Proof.
  intros p x.
  destruct (@setitem_replaces _ ordered_set ordered_set_laws p (-1) x)
    as (k & Hk & Hvoters & _ & Hread & _); [by vm_compute|].
  exists k. split; [exact Hk|split; [exact Hvoters|exact Hread]].
Defined.

Lemma setitem_errors_witness :
  let p := ordered_profile 3 [[0]] in
  (@setitem _ ordered_set p 5 (from_list [1])).2 = Err IndexOutOfRange
  ∧ (@setitem _ ordered_set p 0 (from_list [7])).2 = Err CandidateOutOfRange.
Proof.
  intros p. split.
  - destruct (@setitem_errors _ ordered_set ordered_set_laws p 5 (from_list [1]))
      as (_ & Hindex & _).
    apply (Hindex (mkVoter [CInt 1] 1%Qc)); [by vm_compute|right; by vm_compute].
  - destruct (@setitem_errors _ ordered_set ordered_set_laws p 0 (from_list [7]))
      as (Hvoter & _).
    apply Hvoter. by vm_compute.
Defined.

Lemma candidates_are_fixed_witness :
  let p := ordered_profile 3 [[0]] in
  candidates (@add_voter _ ordered_set p (from_list [1])).1 = candidates p
  ∧ candidates p = range (num_cand p).
Proof.
  intros p.
  destruct (@candidates_are_fixed _ ordered_set ordered_set_laws)
    as (Hadd & _ & _ & Hreach).
  split; [apply Hadd|]. apply Hreach, ordered_profile_reachable. lia.
Defined.

Lemma check_valid_monotone_witness :
  let v := mkVoter [CInt 0; CInt 2] 1%Qc in
  @check_valid _ ordered_set v (Finite 5) None = Ok ()
  ∧ @check_valid _ ordered_set v Infinity None = Ok ().
Proof.
  apply (@check_valid_monotone _ ordered_set _ 3 5); [lia|by vm_compute].
Defined.

Lemma stored_voters_can_be_copied_witness :
  let p := ordered_profile 2 [[0]; [1]] in
  let q := ordered_profile 4 [[3]] in
  (@add_voters _ ordered_set q (ArgVoter <$> _voters p)).2 = Ok ().
Proof.
  intros p q.
  apply (@stored_voters_can_be_copied _ ordered_set ordered_set_laws p q).
  - apply ordered_profile_reachable. lia.
  - by vm_compute.
Defined.

Lemma approved_candidates_within_candidates_witness :
  let p := ordered_profile 4 [[0]; [1; 2]] in
  let s := ints [0; 1; 2] in
  (∀ c, c ∈ @set_iter _ ordered_set s → ∃ z, c = CInt z ∧ z ∈ candidates p)
  ∧ Z.of_nat (@set_len _ ordered_set s) ≤ num_cand p.
Proof.
  intros p s.
  apply (@approved_candidates_within_candidates _ ordered_set ordered_set_laws p s).
  - apply ordered_profile_reachable. lia.
  - by vm_compute.
Defined.

Lemma acceptance_depends_on_num_cand_witness :
  (@add_voter _ ordered_set (new_profile 3) (from_list [1])).2
  = (@add_voter _ ordered_set (ordered_profile 3 [[0]]) (from_list [1])).2.
Proof.
  apply (proj1 (@acceptance_depends_on_num_cand _ ordered_set ordered_set_laws)).
  by vm_compute.
Defined.

Lemma add_voter_error_kinds_witness :
  let p : Profile (list candidate) := new_profile 3 in
  let h : store (list candidate) := [ObjList [CInt 1; CInt 1]; ObjVoter 0%nat 1%Qc] in
  let h' : store (list candidate) := [ObjSet [CInt 5]; ObjVoter 0%nat 1%Qc] in
  let self := mkProfileObj [0; 1; 2] ["0"; "1"; "2"] [] None in
  (@add_voter _ ordered_set p (ArgIterable (IterGen (ints [0; 1])))).2 = Err NoLength
  ∧ (@add_voter _ ordered_set p (ArgIterable (IterList [CUnhashable "[0]"]))).2
    = Err Unhashable
  ∧ (∃ e, (@add_voter _ ordered_set p (ArgVoter (mkVoter [CInt 5] 1%Qc))).2 = Err e
          ∧ (e = InvalidCandidateType ∨ e = CandidateOutOfRange ∨ e = InvalidWeight))
  ∧ (∃ e, (@add_voter_ref _ ordered_set h' self 1%nat).2 = Err e
          ∧ (e = InvalidCandidateType ∨ e = CandidateOutOfRange ∨ e = InvalidWeight))
  ∧ (@add_voter_ref _ ordered_set h self 1%nat).2 = Err DuplicateApproval.
Proof.
  intros p h h' self.
  destruct (@add_voter_error_kinds _ ordered_set ordered_set_laws)
    as (_ & Hhash & Hgen & Hvoter & Hset & Hlist).
  split; [by apply Hgen|]. split; [by apply Hhash|]. split; [|split].
  - exists CandidateOutOfRange. split; [by vm_compute|].
    apply (Hvoter p (mkVoter [CInt 5] 1%Qc)). by vm_compute.
  - exists CandidateOutOfRange. split; [by vm_compute|].
    apply (Hset h' self 1%nat 0%nat 1%Qc [CInt 5]); by vm_compute.
  - apply (Hlist h self 1%nat 0%nat 1%Qc [CInt 1; CInt 1]); [done..|].
    intros Hno. apply NoDup_cons in Hno as [Hno _]. apply Hno. left.
Defined.

Lemma iterables_keep_unit_weights_witness :
  let p := ordered_profile 3 [[0]] in
  has_unit_weights
    (@add_voters _ ordered_set p (ArgIterable <$> [IterList (ints [1]); IterList (ints [7])])).1
  = true.
Proof.
  intros p.
  apply (proj1 (@iterables_keep_unit_weights _ ordered_set ordered_set_laws)).
  by vm_compute.
Defined.

Lemma is_party_list_of_subprofile_witness :
  @is_party_list _ ordered_set (ordered_profile 3 [[1; 0]]) = true.
Proof.
  apply (@is_party_list_of_subprofile _ ordered_set ordered_set_laws
           (ordered_profile 3 [[0; 1]; [2]])); [|by vm_compute].
  intros v Hv.
  assert (_voters (ordered_profile 3 [[1; 0]]) = [mkVoter (ints [1; 0]) 1%Qc]) as Hq
    by (by vm_compute).
  rewrite Hq in Hv. apply list_elem_of_singleton in Hv as ->.
  exists (mkVoter (ints [0; 1]) 1%Qc). split; [vm_compute; left|].
  intros c. change (py_key c ∈ py_key <$> ints [1; 0] ↔ py_key c ∈ py_key <$> ints [0; 1]).
  unfold ints. simpl. rewrite !elem_of_cons, !elem_of_nil. tauto.
Defined.

Lemma str_compact_table_witness :
  let vs := _voters (ordered_profile 3 [[0]; [0]; [1]]) in
  @compact_of _ ordered_set vs = @groups _ ordered_set vs
  ∧ (@compact_of _ ordered_set vs).*1
    = nub_by tuple_key (@voter_key _ ordered_set <$> vs).
Proof.
  intros vs. destruct (@str_compact_table _ ordered_set vs) as (Hgroups & Hkeys & _).
  split; [exact Hgroups|exact Hkeys].
Defined.

Lemma compact_weights_add_up_witness :
  let p := ordered_profile 3 [[0]; [0]; [1]] in
  foldr (λ (e : list candidate * Qc) acc, (e.2 + acc)%Qc) 0%Qc
    (@compact_of _ ordered_set (_voters p))
  = totalweight p.
Proof. intros p. exact (@compact_weights_add_up _ ordered_set p). Defined.

Lemma str_of_voters_witness :
  let p := ordered_profile 3 [[0]; [1; 2]] in
  @str _ ordered_set str_set_of_candidates_spec p
  = header p +:+ String.concat ("," +:+ NL)
      ((λ v, " " +:+ str_set_of_candidates_spec (@set_iter _ ordered_set (approved v))
                       (cand_names p)) <$> _voters p).
Proof.
  intros p.
  destruct (@str_of_voters _ ordered_set str_set_of_candidates_spec p) as [Hunit _];
    [by vm_compute|].
  apply Hunit. by vm_compute.
Defined.

Lemma str_compact_of_voters_witness :
  let p := ordered_profile 3 [[0]; [0]; [1]] in
  @str_compact _ ordered_set str_set_of_candidates_spec p
  = header p +:+ String.concat ("," +:+ NL)
      ((λ e : list candidate * Qc,
          " " +:+ str_weight e.2 +:+ " x " +:+ str_set_of_candidates_spec e.1 (cand_names p))
         <$> @groups _ ordered_set (_voters p)) +:+ NL.
Proof.
  intros p.
  destruct (@str_compact_of_voters _ ordered_set str_set_of_candidates_spec p) as [Hunit _];
    [by vm_compute|].
  apply Hunit. by vm_compute.
Defined.


Lemma Voter_init_keeps_candidates_witness :
  let raw : iterable (list candidate) := IterList (ints [2; 0]) in
  let v := mkVoter (ints [2; 0]) 1%Qc in
  @set_iter _ ordered_set (approved v) ≡ₚ @py_list _ ordered_set raw
  ∧ @py_len _ ordered_set raw = Some (@set_len _ ordered_set (approved v)).
Proof.
  intros raw v.
  destruct (@Voter_init_keeps_candidates _ ordered_set ordered_set_laws raw 1%Qc v)
    as (Hperm & Hlen & _); [by vm_compute|].
  split; [exact Hperm|exact Hlen].
Defined.

Lemma add_voter_extends_approved_candidates_witness :
  let p := ordered_profile 4 [[0]] in
  let x : voter_arg (list candidate) := from_list [1; 2] in
  @approved_candidates _ ordered_set (@add_voter _ ordered_set p x).1 = Ok (ints [0; 1; 2])
  ∧ ∀ c, c ∈ @set_iter _ ordered_set (ints [0; 1; 2])
         ↔ c ∈ @set_iter _ ordered_set (ints [0]) ∨ c ∈ @py_list _ ordered_set (arg_approved x).
Proof.
  intros p x. split; [by vm_compute|].
  exact (@add_voter_extends_approved_candidates _ ordered_set ordered_set_laws
           p x (ints [0]) (ints [0; 1; 2])
           (ordered_profile_reachable 4 [[0]] eq_refl) eq_refl eq_refl).
Defined.

Lemma is_party_list_ignores_abstention_witness :
  let p := ordered_profile 3 [[0; 1]] in
  let v := mkVoter [] 1%Qc in
  @is_party_list _ ordered_set (set_voters p (_voters p ++ [v]))
  = @is_party_list _ ordered_set p.
Proof.
  apply (@is_party_list_ignores_abstention _ ordered_set ordered_set_laws). reflexivity.
Defined.
